(** * SoccerGame: team formation and referee rendezvous of players and goalies

    Shallow embedding of the player process (semSharedMemPlayer) and of the
    goalie process (semSharedMemGoalie.c): the shared region [FULL_STAT], the
    semaphore set, the four operations of each process as programs over
    semaphore and shared-memory actions, and the interleaving semantics of
    the processes that run them. *)

From stdpp Require Import base numbers list.
From Stdlib Require Import ZArith Lia.
From Stdlib Require String Ascii.

Local Open Scope Z_scope.

(** ** Shared data *)

(** State constants of players and goalies (probConst.h is not part of the
    sources at hand; the constants are pairwise distinct tags). *)
Inductive Status : Type :=
| ARRIVING | WAITING_TEAM | FORMING_TEAM
| WAITING_START_1 | WAITING_START_2
| PLAYING_1 | PLAYING_2 | LATE.

Global Instance Status_eq_dec : EqDecision Status.
Proof. solve_decision. Defined.

(** [sh->fSt.st]: the state of every player and goalie, indexed by id. *)
Record STAT : Type := mkSTAT {
  playerStat : list Status;
  goalieStat : list Status
}.

(** [sh->fSt]: the full state of the problem. The counters are C [int]s;
    they move by one per process, far from the range limit, and are kept
    as unbounded integers. *)
Record FULL_STAT : Type := mkFULL_STAT {
  st : STAT;
  playersArrived : Z;
  goaliesArrived : Z;
  playersFree : Z;
  goaliesFree : Z;
  teamId : Z
}.

(** The semaphores of [SHARED_DATA]. *)
Inductive Sem : Type :=
| mutex | playersWaitTeam | goaliesWaitTeam | playersWaitReferee
| playersWaitEnd | refereeWaitTeams | playerRegistered | playing.

Global Instance Sem_eq_dec : EqDecision Sem.
Proof. solve_decision. Defined.

Inductive Kind : Type := Player | Goalie.

Global Instance Kind_eq_dec : EqDecision Kind.
Proof. solve_decision. Defined.

(** Field updates. *)
Definition set_st (v : STAT) (m : FULL_STAT) : FULL_STAT :=
  mkFULL_STAT v (playersArrived m) (goaliesArrived m) (playersFree m)
              (goaliesFree m) (teamId m).
Definition set_playersArrived (v : Z) (m : FULL_STAT) : FULL_STAT :=
  mkFULL_STAT (st m) v (goaliesArrived m) (playersFree m) (goaliesFree m)
              (teamId m).
Definition set_goaliesArrived (v : Z) (m : FULL_STAT) : FULL_STAT :=
  mkFULL_STAT (st m) (playersArrived m) v (playersFree m) (goaliesFree m)
              (teamId m).
Definition set_playersFree (v : Z) (m : FULL_STAT) : FULL_STAT :=
  mkFULL_STAT (st m) (playersArrived m) (goaliesArrived m) v (goaliesFree m)
              (teamId m).
Definition set_goaliesFree (v : Z) (m : FULL_STAT) : FULL_STAT :=
  mkFULL_STAT (st m) (playersArrived m) (goaliesArrived m) (playersFree m) v
              (teamId m).
Definition set_teamId (v : Z) (m : FULL_STAT) : FULL_STAT :=
  mkFULL_STAT (st m) (playersArrived m) (goaliesArrived m) (playersFree m)
              (goaliesFree m) v.

Arguments set_st : simpl never.
Arguments set_playersArrived : simpl never.
Arguments set_goaliesArrived : simpl never.
Arguments set_playersFree : simpl never.
Arguments set_goaliesFree : simpl never.
Arguments set_teamId : simpl never.

(** [sh->fSt.st.playerStat[id] = v], for the ids of the pool, which are the
    indices of the array. An index outside the array has no defined
    behaviour in C (the write lands on whatever lies beside the array):
    here the write has no result, and what is proved of an operation is
    proved of the actors of the pool. *)
Definition write_playerStat (id : nat) (v : Status) (m : FULL_STAT)
  : option FULL_STAT :=
  if decide (id < length (playerStat (st m)))%nat
  then Some (set_st (mkSTAT (<[id:=v]> (playerStat (st m)))
                            (goalieStat (st m))) m)
  else None.

Definition write_goalieStat (id : nat) (v : Status) (m : FULL_STAT)
  : option FULL_STAT :=
  if decide (id < length (goalieStat (st m)))%nat
  then Some (set_st (mkSTAT (playerStat (st m))
                            (<[id:=v]> (goalieStat (st m)))) m)
  else None.

(** The status entry of actor [id] of kind [k]. *)
Definition own_stat (k : Kind) (id : nat) (m : FULL_STAT) : option Status :=
  match k with
  | Player => playerStat (st m) !! id
  | Goalie => goalieStat (st m) !! id
  end.

Definition write_stat (k : Kind) : nat → Status → FULL_STAT → option FULL_STAT :=
  match k with Player => write_playerStat | Goalie => write_goalieStat end.

(** ** Programs

    An operation of a process is a finite tree of actions: [semDown] and
    [semUp] on a semaphore of the set, a read of the shared region, one
    assignment statement on the shared region, [saveState] and [usleep].
    The error branch of every [semDown]/[semUp] ends the process
    ([exit (EXIT_FAILURE)]); a process that ends there is a process that
    takes no further step. *)
Inductive prog (A : Type) : Type :=
| Ret (a : A)
| SemDown (s : Sem) (k : prog A)
| SemUp (s : Sem) (k : prog A)
| Load (k : FULL_STAT → prog A)
| Store (f : FULL_STAT → option FULL_STAT) (k : prog A)
| SaveState (k : prog A)
| Usleep (k : prog A).

Arguments Ret {A} a.
Arguments SemDown {A} s k.
Arguments SemUp {A} s k.
Arguments Load {A} k.
Arguments Store {A} f k.
Arguments SaveState {A} k.
Arguments Usleep {A} k.

Fixpoint bind {A B : Type} (c : prog A) (f : A → prog B) : prog B :=
  match c with
  | Ret a => f a
  | SemDown s k => SemDown s (bind k f)
  | SemUp s k => SemUp s (bind k f)
  | Load k => Load (λ m, bind (k m) f)
  | Store g k => Store g (bind k f)
  | SaveState k => SaveState (bind k f)
  | Usleep k => Usleep (bind k f)
  end.

Global Instance prog_ret : MRet prog := @Ret.
Global Instance prog_bind : MBind prog := λ A B f c, bind c f.

Definition semDown (s : Sem) : prog unit := SemDown s (Ret tt).
Definition semUp (s : Sem) : prog unit := SemUp s (Ret tt).
Definition load : prog FULL_STAT := Load Ret.
Definition assign (f : FULL_STAT → FULL_STAT) : prog unit :=
  Store (λ m, Some (f m)) (Ret tt).
Definition assign_stat (k : Kind) (id : nat) (v : Status) : prog unit :=
  Store (write_stat k id v) (Ret tt).
Definition saveState : prog unit := SaveState (Ret tt).
Definition usleep : prog unit := Usleep (Ret tt).

(** [for (int i = 0; i < n; i++) body] *)
Fixpoint for_loop (n : nat) (body : prog unit) : prog unit :=
  match n with
  | O => Ret tt
  | S n' => body;; for_loop n' body
  end.

(** ** The player process *)
Module Player.
Section Operations.
Variables NUMTEAMPLAYERS NUMTEAMGOALIES : Z.

Definition arrive (id : nat) : prog unit :=
    semDown mutex;;
    assign_stat Player id ARRIVING;;
    saveState;;
    semUp mutex;;
    usleep.

Definition playerConstituteTeam (id : nat) : prog Z :=
    semDown mutex;;
    assign (λ m, set_playersArrived (playersArrived m + 1) m);;
    assign (λ m, set_playersFree (playersFree m + 1) m);;
    m ← load;
    ret ←
      (if playersArrived m <=? 2 * NUMTEAMPLAYERS then
         m ← load;
         if (NUMTEAMPLAYERS <=? playersFree m)
            && (NUMTEAMGOALIES <=? goaliesFree m) then
           assign_stat Player id FORMING_TEAM;;
           for_loop (Z.to_nat (NUMTEAMPLAYERS - 1))
             (semUp playersWaitTeam;; semDown playerRegistered);;
           assign (λ m, set_playersFree (playersFree m - NUMTEAMPLAYERS) m);;
           semUp goaliesWaitTeam;;
           semDown playerRegistered;;
           assign (λ m, set_goaliesFree (goaliesFree m - NUMTEAMGOALIES) m);;
           m ← load;
           assign (λ m', set_teamId (teamId m + 1) m');;
           saveState;;
           mret (teamId m)
         else
           assign_stat Player id WAITING_TEAM;;
           saveState;;
           mret 0
       else
         assign_stat Player id LATE;;
         assign (λ m, set_playersFree (playersFree m - 1) m);;
         saveState;;
         mret 0);
    semUp mutex;;
    m ← load;
    if bool_decide (playerStat (st m) !! id = Some WAITING_TEAM) then
      semDown playersWaitTeam;;
      m ← load;
      semUp playerRegistered;;
      mret (teamId m)
    else
      m ← load;
      if bool_decide (playerStat (st m) !! id = Some FORMING_TEAM) then
        semUp refereeWaitTeams;;
        mret ret
      else mret ret.

Definition waitReferee (id : nat) (team : Z) : prog unit :=
    semDown mutex;;
    (if team =? 1 then assign_stat Player id WAITING_START_1
     else if team =? 2 then assign_stat Player id WAITING_START_2
     else mret tt);;
    saveState;;
    semUp mutex;;
    semDown playersWaitReferee.

Definition playUntilEnd (id : nat) (team : Z) : prog unit :=
    semDown mutex;;
    (if team =? 1 then assign_stat Player id PLAYING_1
     else if team =? 2 then assign_stat Player id PLAYING_2
     else mret tt);;
    semUp playing;;
    saveState;;
    semUp mutex;;
    semDown playersWaitEnd.

  (** The life cycle of [main], after the command line is validated and the
      process is attached to the semaphore set and the shared region. *)
Definition life (id : nat) : prog Z :=
    arrive id;;
    team ← playerConstituteTeam id;
    if negb (team =? 0) then
      waitReferee id team;;
      playUntilEnd id team;;
      mret team
    else mret team.
End Operations.
End Player.

(** ** The goalie process *)
Module Goalie.
Section Operations.
Variables NUMTEAMPLAYERS NUMTEAMGOALIES : Z.

Definition arrive (id : nat) : prog unit :=
    semDown mutex;;
    assign_stat Goalie id ARRIVING;;
    saveState;;
    semUp mutex;;
    usleep.

Definition goalieConstituteTeam (id : nat) : prog Z :=
    semDown mutex;;
    assign (λ m, set_goaliesFree (goaliesFree m + 1) m);;
    assign (λ m, set_goaliesArrived (goaliesArrived m + 1) m);;
    m ← load;
    ret ←
      (if goaliesArrived m <=? 2 * NUMTEAMGOALIES then
         m ← load;
         if (NUMTEAMPLAYERS <=? playersFree m)
            && (NUMTEAMGOALIES <=? goaliesFree m) then
           assign_stat Goalie id FORMING_TEAM;;
           assign (λ m, set_goaliesFree (goaliesFree m - NUMTEAMGOALIES) m);;
           for_loop (Z.to_nat NUMTEAMPLAYERS) (semUp playersWaitTeam);;
           for_loop (Z.to_nat NUMTEAMPLAYERS) (semDown playerRegistered);;
           assign (λ m, set_playersFree (playersFree m - NUMTEAMPLAYERS) m);;
           m ← load;
           assign (λ m', set_teamId (teamId m + 1) m');;
           saveState;;
           mret (teamId m)
         else
           assign_stat Goalie id WAITING_TEAM;;
           saveState;;
           mret 0
       else
         assign_stat Goalie id LATE;;
         assign (λ m, set_goaliesFree (goaliesFree m - 1) m);;
         saveState;;
         mret 0);
    semUp mutex;;
    m ← load;
    if bool_decide (goalieStat (st m) !! id = Some FORMING_TEAM) then
      semUp refereeWaitTeams;;
      mret ret
    else
      m ← load;
      if bool_decide (goalieStat (st m) !! id = Some WAITING_TEAM) then
        semDown goaliesWaitTeam;;
        m ← load;
        semUp playerRegistered;;
        mret (teamId m)
      else mret ret.

Definition waitReferee (id : nat) (team : Z) : prog unit :=
    semDown mutex;;
    (if team =? 1 then assign_stat Goalie id WAITING_START_1
     else if team =? 2 then assign_stat Goalie id WAITING_START_2
     else mret tt);;
    saveState;;
    semUp mutex;;
    semDown playersWaitReferee.

Definition playUntilEnd (id : nat) (team : Z) : prog unit :=
    semDown mutex;;
    semUp playing;;
    (if team =? 1 then assign_stat Goalie id PLAYING_1
     else if team =? 2 then assign_stat Goalie id PLAYING_2
     else mret tt);;
    saveState;;
    semUp mutex;;
    semDown playersWaitEnd.

Definition life (id : nat) : prog Z :=
    arrive id;;
    team ← goalieConstituteTeam id;
    if negb (team =? 0) then
      waitReferee id team;;
      playUntilEnd id team;;
      mret team
    else mret team.
End Operations.
End Goalie.

(** ** Executions of one process

    What a process does is recorded as events: the action and the shared
    region before and after it. *)
Inductive op : Type :=
| OpDown (s : Sem) | OpUp (s : Sem) | OpLoad | OpStore | OpSave | OpSleep.

Global Instance op_eq_dec : EqDecision op.
Proof. solve_decision. Defined.

Record event : Type := Ev { ev_op : op; ev_pre : FULL_STAT; ev_post : FULL_STAT }.

(** One action of a program on the shared region [m]. No step from [Ret],
    nor from a write outside its array. *)
Definition step_prog {A} (c : prog A) (m : FULL_STAT) : option (event * prog A) :=
  match c with
  | Ret _ => None
  | SemDown s k => Some (Ev (OpDown s) m m, k)
  | SemUp s k => Some (Ev (OpUp s) m m, k)
  | Load k => Some (Ev OpLoad m m, k m)
  | Store f k =>
      match f m with
      | Some m' => Some (Ev OpStore m m', k)
      | None => None
      end
  | SaveState k => Some (Ev OpSave m m, k)
  | Usleep k => Some (Ev OpSleep m m, k)
  end.

(** Whether the process is inside the critical region after an action. *)
Definition held_after (h : bool) (o : op) : bool :=
  match o with
  | OpDown mutex => true
  | OpUp mutex => false
  | _ => h
  end.

Fixpoint held_of (h : bool) (tr : list event) : bool :=
  match tr with
  | [] => h
  | e :: tr' => held_of (held_after h (ev_op e)) tr'
  end.

Fixpoint last_post (m : FULL_STAT) (tr : list event) : FULL_STAT :=
  match tr with
  | [] => m
  | e :: tr' => last_post (ev_post e) tr'
  end.

Section Actor.
Variable k : Kind.
Variable id : nat.

  (** What the other processes may have done to the shared region between
      two actions of this one: nothing while it is inside the critical
      region, and never a write to its status entry. *)
Definition rely (h : bool) (m m1 : FULL_STAT) : Prop :=
    (h = true → m1 = m) ∧ own_stat k id m1 = own_stat k id m.

Lemma rely_refl h m : rely h m m.
Proof. by split. Qed.

  (** [exec h m c tr c']: from [c], inside the critical region or not ([h]),
      having last seen the shared region as [m], the process performs the
      events [tr] and is left with [c']. *)
Inductive exec {A} : bool → FULL_STAT → prog A → list event → prog A → Prop :=
  | exec_nil h m c : exec h m c [] c
  | exec_cons h m m1 c e c1 tr c' :
      rely h m m1 →
      step_prog c m1 = Some (e, c1) →
      exec (held_after h (ev_op e)) (ev_post e) c1 tr c' →
      exec h m c (e :: tr) c'.

  (** A discipline over the events of a process: an observer state [S],
      advanced by [δ], and a condition [ok] on every event. *)
Section Discipline.
Context {S : Type} (δ : S → event → S) (ok : bool → S → event → Prop).

Fixpoint follows (h : bool) (s : S) (tr : list event) : Prop :=
      match tr with
      | [] => True
      | e :: tr' => ok h s e ∧ follows (held_after h (ev_op e)) (δ s e) tr'
      end.

Definition observe (s : S) (tr : list event) : S := fold_left δ tr s.

    (** Every execution of [c] follows the discipline and ends in [Q]. *)
Fixpoint obeys {A} (c : prog A) (h : bool) (m : FULL_STAT) (s : S)
        (Q : A → bool → FULL_STAT → S → Prop) : Prop :=
      match c with
      | Ret a => Q a h m s
      | SemDown x c' => ∀ m1, rely h m m1 →
          let e := Ev (OpDown x) m1 m1 in
          ok h s e ∧ obeys c' (held_after h (OpDown x)) m1 (δ s e) Q
      | SemUp x c' => ∀ m1, rely h m m1 →
          let e := Ev (OpUp x) m1 m1 in
          ok h s e ∧ obeys c' (held_after h (OpUp x)) m1 (δ s e) Q
      | Load c' => ∀ m1, rely h m m1 →
          let e := Ev OpLoad m1 m1 in
          ok h s e ∧ obeys (c' m1) h m1 (δ s e) Q
      | Store f c' => ∀ m1 m2, rely h m m1 → f m1 = Some m2 →
          let e := Ev OpStore m1 m2 in
          ok h s e ∧ obeys c' h m2 (δ s e) Q
      | SaveState c' => ∀ m1, rely h m m1 →
          let e := Ev OpSave m1 m1 in
          ok h s e ∧ obeys c' h m1 (δ s e) Q
      | Usleep c' => ∀ m1, rely h m m1 →
          let e := Ev OpSleep m1 m1 in
          ok h s e ∧ obeys c' h m1 (δ s e) Q
      end.

Lemma obeys_step {A} (c : prog A) h m s Q m1 e c1 :
      obeys c h m s Q → rely h m m1 → step_prog c m1 = Some (e, c1) →
      ok h s e ∧ obeys c1 (held_after h (ev_op e)) (ev_post e) (δ s e) Q.
Proof.
      destruct c; simpl; intros Hob Hr Hst; try discriminate;
        try (injection Hst as <- <-; exact (Hob _ Hr)).
      destruct (f m1) as [m2|] eqn:Hf; [|discriminate].
      injection Hst as <- <-. exact (Hob _ _ Hr Hf).
Qed.

Lemma obeys_exec {A} (c : prog A) h m s Q tr c' :
      obeys c h m s Q → exec h m c tr c' →
      follows h s tr ∧ obeys c' (held_of h tr) (last_post m tr) (observe s tr) Q.
Proof.
      intros Hob Hex. revert s Hob.
      induction Hex as [|h m m1 c e c1 tr c' Hr Hst _ IH]; intros s Hob.
      - by split.
      - destruct (obeys_step _ _ _ _ _ _ _ _ Hob Hr Hst) as [Hok Hob1].
        destruct (IH _ Hob1) as [Hf Hob'].
        simpl. by repeat split.
Qed.

Lemma obeys_mono {A} (c : prog A) h m s (Q Q' : A → bool → FULL_STAT → S → Prop) :
      (∀ a h m s, Q a h m s → Q' a h m s) → obeys c h m s Q → obeys c h m s Q'.
Proof.
      intros HQ. revert h m s.
      induction c as [a|x c IH|x c IH|c IH|f c IH|c IH|c IH]; simpl; intros h m s Hob;
        try (by apply HQ);
        try (intros m1 Hr; destruct (Hob m1 Hr); split; [done|by eauto]).
      intros m1 m2 Hr Hf. destruct (Hob m1 m2 Hr Hf). split; [done|by eauto].
Qed.

Lemma obeys_bind {A B} (c : prog A) (f : A → prog B) h m s Q :
      obeys c h m s (λ a h' m' s', obeys (f a) h' m' s' Q) →
      obeys (bind c f) h m s Q.
Proof.
      revert h m s.
      induction c as [a|x c IH|x c IH|c IH|g c IH|c IH|c IH]; simpl; intros h m s Hob;
        try done;
        try (intros m1 Hr; destruct (Hob m1 Hr); split; [done|by eauto]).
      intros m1 m2 Hr Hf. destruct (Hob m1 m2 Hr Hf). split; [done|by eauto].
Qed.

    (** A loop obeys the discipline when an invariant, indexed by the number
        of iterations done, is kept by its body. *)
Lemma obeys_for_loop (Inv : nat → bool → FULL_STAT → S → Prop) n body h m s Q :
      Inv O h m s →
      (∀ i h m s, (i < n)%nat → Inv i h m s →
         obeys body h m s (λ _ h' m' s', Inv (Datatypes.S i) h' m' s')) →
      (∀ h m s, Inv n h m s → Q tt h m s) →
      obeys (for_loop n body) h m s Q.
Proof.
      intros H0 Hbody HQ.
      assert (Hgen : ∀ j i h m s, (i + j = n)%nat → Inv i h m s →
                obeys (for_loop j body) h m s Q).
      { induction j as [|j IH]; intros i h' m' s' Hij Hinv; simpl.
        - apply HQ. by replace n with i by lia.
        - apply obeys_bind.
          eapply obeys_mono; [|apply (Hbody i); [lia|done]].
          intros [] h2 m2 s2 Hinv2. simpl. apply (IH (Datatypes.S i)); [lia|done]. }
      by apply (Hgen n O).
Qed.
End Discipline.

  (** The execution without interference: every wait is granted and no
      other process writes in between. *)
Fixpoint run {A} (c : prog A) (m : FULL_STAT) : option (list event * A) :=
    match c with
    | Ret a => Some ([], a)
    | SemDown s c' => r ← run c' m; Some (Ev (OpDown s) m m :: r.1, r.2)
    | SemUp s c' => r ← run c' m; Some (Ev (OpUp s) m m :: r.1, r.2)
    | Load c' => r ← run (c' m) m; Some (Ev OpLoad m m :: r.1, r.2)
    | Store f c' =>
        m' ← f m; r ← run c' m'; Some (Ev OpStore m m' :: r.1, r.2)
    | SaveState c' => r ← run c' m; Some (Ev OpSave m m :: r.1, r.2)
    | Usleep c' => r ← run c' m; Some (Ev OpSleep m m :: r.1, r.2)
    end.

Lemma run_exec {A} (c : prog A) h m tr a :
    run c m = Some (tr, a) → exec h m c tr (Ret a).
Proof.
    revert h m tr a.
    induction c as [a'|x c IH|x c IH|c IH|f c IH|c IH|c IH]; simpl; intros h m tr a Hrun.
    - injection Hrun as <- <-. constructor.
    - destruct (run c m) as [[tr' a']|] eqn:Hr; simplify_eq/=.
      eapply exec_cons; [apply rely_refl|done|]. simpl. by apply IH.
    - destruct (run c m) as [[tr' a']|] eqn:Hr; simplify_eq/=.
      eapply exec_cons; [apply rely_refl|done|]. simpl. by apply IH.
    - destruct (run (c m) m) as [[tr' a']|] eqn:Hr; simplify_eq/=.
      eapply exec_cons; [apply rely_refl|done|]. simpl. by apply IH.
    - destruct (f m) as [m'|] eqn:Hf; simplify_eq/=.
      destruct (run c m') as [[tr' a']|] eqn:Hr; simplify_eq/=.
      eapply exec_cons; [apply rely_refl|by simpl; rewrite Hf|]. simpl. by apply IH.
    - destruct (run c m) as [[tr' a']|] eqn:Hr; simplify_eq/=.
      eapply exec_cons; [apply rely_refl|done|]. simpl. by apply IH.
    - destruct (run c m) as [[tr' a']|] eqn:Hr; simplify_eq/=.
      eapply exec_cons; [apply rely_refl|done|]. simpl. by apply IH.
Qed.
End Actor.

(** ** Reading traces *)
Definition record (s : list event) (e : event) : list event := s ++ [e].

Lemma observe_record s tr : observe record s tr = s ++ tr.
Proof.
  revert s. induction tr as [|e tr IH]; intros s; simpl.
  - by rewrite app_nil_r.
  - rewrite IH. unfold record. by rewrite <- app_assoc.
Qed.

(** A property of every complete execution, from the program. *)
Lemma obeys_complete k id {A} (c : prog A) h m (Q : A → list event → Prop) tr a :
  obeys k id record (λ _ _ _, True) c h m [] (λ a _ _ s, Q a s) →
  exec k id h m c tr (Ret a) → Q a tr.
Proof.
  intros Hob Hex. destruct (obeys_exec _ _ _ _ _ _ _ _ _ _ _ Hob Hex) as [_ HQ].
  simpl in HQ. by rewrite observe_record in HQ.
Qed.

Definition WAITING_START (team : Z) : Status :=
  if team =? 1 then WAITING_START_1 else WAITING_START_2.
Definition PLAYING (team : Z) : Status :=
  if team =? 1 then PLAYING_1 else PLAYING_2.

Lemma rely_held k id m m1 : rely k id true m m1 → m1 = m.
Proof. intros [H _]. by apply H. Qed.

Lemma rely_own k id h m m1 : rely k id h m m1 → own_stat k id m1 = own_stat k id m.
Proof. by intros [_ H]. Qed.

(** Symbolic execution of a program against [obeys]. *)
Ltac obeys_next :=
  lazymatch goal with
  | |- ∀ m1 m2 : FULL_STAT, rely _ _ true _ m1 → _ =>
      let m1 := fresh "m" in let m2 := fresh "m" in
      let Hr := fresh "Hr" in let Hw := fresh "Hw" in
      intros m1 m2 Hr Hw; apply rely_held in Hr; subst m1
  | |- ∀ m1 m2 : FULL_STAT, rely _ _ false _ m1 → _ =>
      let m1 := fresh "m" in let m2 := fresh "m" in
      let Hr := fresh "Hr" in let Hw := fresh "Hw" in
      intros m1 m2 Hr Hw; apply rely_own in Hr
  | |- ∀ m1 : FULL_STAT, rely _ _ true _ m1 → _ =>
      let m1 := fresh "m" in let Hr := fresh "Hr" in
      intros m1 Hr; apply rely_held in Hr; subst m1
  | |- ∀ m1 : FULL_STAT, rely _ _ false _ m1 → _ =>
      let m1 := fresh "m" in let Hr := fresh "Hr" in
      intros m1 Hr; apply rely_own in Hr
  | |- True ∧ _ => split; [exact I|]
  end.

Ltac from_program Hex :=
  lazymatch type of Hex with
  | exec ?k ?id ?h ?m ?c ?tr (Ret ?a) =>
      pattern a, tr;
      lazymatch goal with
      | |- ?P a tr =>
          refine (obeys_complete k id c h m P tr a _ Hex); clear Hex
      end
  end.

(** ** The operations by kind of actor *)
Definition arrive (k : Kind) : nat → prog unit :=
  match k with Player => Player.arrive | Goalie => Goalie.arrive end.

Definition constituteTeam (NUMTEAMPLAYERS NUMTEAMGOALIES : Z) (k : Kind)
  : nat → prog Z :=
  match k with
  | Player => Player.playerConstituteTeam NUMTEAMPLAYERS NUMTEAMGOALIES
  | Goalie => Goalie.goalieConstituteTeam NUMTEAMPLAYERS NUMTEAMGOALIES
  end.

Definition waitReferee (k : Kind) : nat → Z → prog unit :=
  match k with Player => Player.waitReferee | Goalie => Goalie.waitReferee end.

Definition playUntilEnd (k : Kind) : nat → Z → prog unit :=
  match k with Player => Player.playUntilEnd | Goalie => Goalie.playUntilEnd end.

Definition life (NUMTEAMPLAYERS NUMTEAMGOALIES : Z) (k : Kind) : nat → prog Z :=
  match k with
  | Player => Player.life NUMTEAMPLAYERS NUMTEAMGOALIES
  | Goalie => Goalie.life NUMTEAMPLAYERS NUMTEAMGOALIES
  end.

(** A shared region to run the operations on: four players and two goalies
    have arrived, no team is formed yet. *)
Definition demo_region : FULL_STAT :=
  mkFULL_STAT (mkSTAT (replicate 4 ARRIVING) (replicate 2 ARRIVING)) 0 0 0 0 1.

(** ** The referee rendezvous *)

(** The events of [waitReferee]: the status is written inside the critical
    region, the wait for the start of the match comes after it. *)
Definition start_gate (k : Kind) (id : nat) (team : Z) (tr : list event) : Prop :=
  ∃ m1 m2 m3, write_stat k id (WAITING_START team) m1 = Some m2 ∧
    tr = [Ev (OpDown mutex) m1 m1; Ev OpStore m1 m2; Ev OpSave m2 m2;
          Ev (OpUp mutex) m2 m2; Ev (OpDown playersWaitReferee) m3 m3].

(** The events of [playUntilEnd]: the player writes its status and then
    signals [playing], the goalie signals [playing] and then writes its
    status; both inside the critical region, the wait for the end of the
    match after it. *)
Definition end_gate (k : Kind) (id : nat) (team : Z) (tr : list event) : Prop :=
  ∃ m1 m2 m3, write_stat k id (PLAYING team) m1 = Some m2 ∧
    tr = match k with
         | Player =>
             [Ev (OpDown mutex) m1 m1; Ev OpStore m1 m2; Ev (OpUp playing) m2 m2;
              Ev OpSave m2 m2; Ev (OpUp mutex) m2 m2;
              Ev (OpDown playersWaitEnd) m3 m3]
         | Goalie =>
             [Ev (OpDown mutex) m1 m1; Ev (OpUp playing) m1 m1; Ev OpStore m1 m2;
              Ev OpSave m2 m2; Ev (OpUp mutex) m2 m2;
              Ev (OpDown playersWaitEnd) m3 m3]
         end.

(** [precedes a b l]: [a] occurs in [l], [b] occurs after it and not before. *)
Fixpoint precedes (a b : op) (l : list op) : bool :=
  match l with
  | [] => false
  | o :: l' =>
      if decide (o = b) then false
      else if decide (o = a) then bool_decide (b ∈ l')
      else precedes a b l'
  end.

(** What an event leaves untouched: the counters, the team id and the
    status of every other actor. *)
Definition frame (k : Kind) (id : nat) (e : event) : Prop :=
  playersArrived (ev_post e) = playersArrived (ev_pre e) ∧
  playersFree (ev_post e) = playersFree (ev_pre e) ∧
  goaliesArrived (ev_post e) = goaliesArrived (ev_pre e) ∧
  goaliesFree (ev_post e) = goaliesFree (ev_pre e) ∧
  teamId (ev_post e) = teamId (ev_pre e) ∧
  ∀ k' j, k' ≠ k ∨ j ≠ id → own_stat k' j (ev_post e) = own_stat k' j (ev_pre e).

Definition is_sem_op (o : op) : bool :=
  match o with OpDown _ | OpUp _ => true | _ => false end.

(** The operations of a trace that [f] picks, in order. *)
Fixpoint pick (f : op → bool) (tr : list event) : list op :=
  match tr with
  | [] => []
  | e :: tr' => if f (ev_op e) then ev_op e :: pick f tr' else pick f tr'
  end.

(** The semaphore operations of a trace, in order. *)
Definition sem_ops (tr : list event) : list op := pick is_sem_op tr.

Lemma follows_Forall {S} (δ : S → event → S) (P : event → Prop) h s tr :
  follows (S:=S) δ (λ _ _ e, P e) h s tr → Forall P tr.
Proof.
  revert h s. induction tr as [|e tr IH]; intros h s; simpl.
  - constructor.
  - intros [He Htr]. constructor; eauto.
Qed.

Lemma write_stat_frame k id v m m' k' j :
  write_stat k id v m = Some m' → k' ≠ k ∨ j ≠ id →
  own_stat k' j m' = own_stat k' j m.
Proof.
  destruct k; simpl; unfold write_playerStat, write_goalieStat;
    case_decide; intros Hw Hne; simplify_eq; destruct k'; simpl; try done;
    apply list_lookup_insert_ne; by destruct Hne.
Qed.

Lemma write_stat_counters k id v m m' :
  write_stat k id v m = Some m' →
  playersArrived m' = playersArrived m ∧ playersFree m' = playersFree m ∧
  goaliesArrived m' = goaliesArrived m ∧ goaliesFree m' = goaliesFree m ∧
  teamId m' = teamId m.
Proof.
  destruct k; simpl; unfold write_playerStat, write_goalieStat;
    case_decide; intros Hw; by simplify_eq.
Qed.

Lemma write_stat_own k id v m m' :
  write_stat k id v m = Some m' → own_stat k id m' = Some v.
Proof.
  destruct k; simpl; unfold write_playerStat, write_goalieStat;
    case_decide; intros Hw; simplify_eq; simpl; by apply list_lookup_insert_eq.
Qed.

Lemma frame_write k id v m m' :
  write_stat k id v m = Some m' → frame k id (Ev OpStore m m').
Proof.
  intros Hw. destruct (write_stat_counters _ _ _ _ _ Hw) as (?&?&?&?&?).
  repeat split; simpl; try done. intros. by eapply write_stat_frame.
Qed.

Lemma frame_same k id o m : frame k id (Ev o m m).
Proof. by repeat split. Qed.

(** X15. For a team member (team 1 or 2) of either kind, every
    complete execution of [waitReferee] writes WAITING_START of its team
    inside the critical region and then waits exactly once on
    [playersWaitReferee]; every complete execution of [playUntilEnd] writes
    PLAYING of its team and signals [playing] exactly once inside one
    critical region (the player writes first, the goalie signals first) and
    then waits exactly once on [playersWaitEnd]. *)
Theorem referee_rendezvous_events k id team m0 m0' trw trp :
  team = 1 ∨ team = 2 →
  exec k id false m0 (waitReferee k id team) trw (Ret tt) →
  exec k id false m0' (playUntilEnd k id team) trp (Ret tt) →
  start_gate k id team trw ∧ end_gate k id team trp.
Proof.
  intros Ht Hw Hp. split.
  - from_program Hw.
    destruct k, Ht as [-> | ->]; simpl; repeat obeys_next;
      unfold start_gate, record; simpl; eauto 10.
  - from_program Hp.
    destruct k, Ht as [-> | ->]; simpl; repeat obeys_next;
      unfold end_gate, record; simpl; eauto 10.
Qed.

Lemma referee_rendezvous_events_witness :
  ∃ trw trp,
    run (waitReferee Goalie 1 2) demo_region = Some (trw, tt) ∧
    run (playUntilEnd Goalie 1 2) demo_region = Some (trp, tt) ∧
    start_gate Goalie 1 2 trw ∧ end_gate Goalie 1 2 trp.
Proof.
  eexists _, _. split; [vm_compute; reflexivity|]. split; [vm_compute; reflexivity|].
  apply (referee_rendezvous_events Goalie 1%nat 2 demo_region demo_region).
  - right; reflexivity.
  - apply run_exec. vm_compute. reflexivity.
  - apply run_exec. vm_compute. reflexivity.
Defined.

(** C8 does not hold of the goalie: in its [playUntilEnd] the signal on
    [playing] comes before the status is written, where the player's
    [playUntilEnd] writes the status first (see [end_gate]). Here goalie 0
    of team 1: no assignment comes before the signal, one comes after. *)
Lemma goalie_signals_before_marking :
  ∃ tr, exec Goalie 0 false demo_region (playUntilEnd Goalie 0 1) tr (Ret tt) ∧
        precedes OpStore (OpUp playing) (map ev_op tr) = false ∧
        precedes (OpUp playing) OpStore (map ev_op tr) = true.
Proof.
  eexists. split; [apply run_exec; vm_compute; reflexivity|].
  split; vm_compute; reflexivity.
Qed.

(** X17. For an actor of the pool (its id is an index of the status array
    of its kind) and every team value, [waitReferee] and [playUntilEnd]
    leave the counters, the team id and the status of every other actor as
    they are, at every event; when the team is neither 1 nor 2 no event
    changes the shared region at all, whatever the id, and the semaphore
    operations are performed all the same. *)
Theorem referee_rendezvous_frame k id team m0 m0' trw trp cw cp :
  (team = 1 ∨ team = 2 →
     is_Some (own_stat k id m0) ∧ is_Some (own_stat k id m0')) →
  exec k id false m0 (waitReferee k id team) trw cw →
  exec k id false m0' (playUntilEnd k id team) trp cp →
  Forall (frame k id) trw ∧ Forall (frame k id) trp ∧
  (team ≠ 1 → team ≠ 2 →
     Forall (λ e, ev_post e = ev_pre e) trw ∧
     Forall (λ e, ev_post e = ev_pre e) trp ∧
     (cw = Ret tt → sem_ops trw =
        [OpDown mutex; OpUp mutex; OpDown playersWaitReferee]) ∧
     (cp = Ret tt → sem_ops trp =
        [OpDown mutex; OpUp playing; OpUp mutex; OpDown playersWaitEnd])).
Proof.
  intros _ Hw Hp.
  assert (Hfw : obeys k id record (λ _ _, frame k id) (waitReferee k id team)
                  false m0 [] (λ _ _ _ _, True)).
  { destruct k; simpl; destruct (team =? 1); [|destruct (team =? 2)| |destruct (team =? 2)];
      simpl; repeat (first [obeys_next | split; [by eauto using frame_same, frame_write|]
                           | intros ? Hr | intros ? ? Hr Hw' ]); done. }
  assert (Hfp : obeys k id record (λ _ _, frame k id) (playUntilEnd k id team)
                  false m0' [] (λ _ _ _ _, True)).
  { destruct k; simpl; destruct (team =? 1); [|destruct (team =? 2)| |destruct (team =? 2)];
      simpl; repeat (first [obeys_next | split; [by eauto using frame_same, frame_write|]
                           | intros ? Hr | intros ? ? Hr Hw' ]); done. }
  split; [|split].
  - destruct (obeys_exec _ _ _ _ _ _ _ _ _ _ _ Hfw Hw) as [Hf _].
    by eapply follows_Forall.
  - destruct (obeys_exec _ _ _ _ _ _ _ _ _ _ _ Hfp Hp) as [Hf _].
    by eapply follows_Forall.
  - intros H1 H2.
    apply Z.eqb_neq in H1, H2.
    assert (Hsw : obeys k id record (λ _ _ e, ev_post e = ev_pre e)
                    (waitReferee k id team) false m0 []
                    (λ _ _ _ s, sem_ops s =
                       [OpDown mutex; OpUp mutex; OpDown playersWaitReferee])).
    { destruct k; simpl; rewrite H1, H2; simpl;
        repeat (first [split; [done|] | intros ? Hr]); done. }
    assert (Hsp : obeys k id record (λ _ _ e, ev_post e = ev_pre e)
                    (playUntilEnd k id team) false m0' []
                    (λ _ _ _ s, sem_ops s =
                       [OpDown mutex; OpUp playing; OpUp mutex; OpDown playersWaitEnd])).
    { destruct k; simpl; rewrite H1, H2; simpl;
        repeat (first [split; [done|] | intros ? Hr]); done. }
    destruct (obeys_exec _ _ _ _ _ _ _ _ _ _ _ Hsw Hw) as [Hf1 Hq1].
    destruct (obeys_exec _ _ _ _ _ _ _ _ _ _ _ Hsp Hp) as [Hf2 Hq2].
    repeat split.
    + by eapply follows_Forall.
    + by eapply follows_Forall.
    + intros ->. simpl in Hq1. by rewrite observe_record in Hq1.
    + intros ->. simpl in Hq2. by rewrite observe_record in Hq2.
Qed.

Lemma referee_rendezvous_frame_witness :
  ∃ trw trp,
    is_Some (own_stat Player 2 demo_region) ∧
    run (waitReferee Player 2 1) demo_region = Some (trw, tt) ∧
    run (playUntilEnd Player 2 1) demo_region = Some (trp, tt) ∧
    Forall (frame Player 2) trw ∧ Forall (frame Player 2) trp ∧
    (1 ≠ 1 → 1 ≠ 2 →
     Forall (λ e, ev_post e = ev_pre e) trw ∧
     Forall (λ e, ev_post e = ev_pre e) trp ∧
     (Ret tt = Ret tt → sem_ops trw =
        [OpDown mutex; OpUp mutex; OpDown playersWaitReferee]) ∧
     (Ret tt = Ret tt → sem_ops trp =
        [OpDown mutex; OpUp playing; OpUp mutex; OpDown playersWaitEnd])).
Proof.
  assert (Hown : is_Some (own_stat Player 2 demo_region)) by (by eexists).
  eexists _, _. split; [done|].
  split; [vm_compute; reflexivity|]. split; [vm_compute; reflexivity|].
  apply (referee_rendezvous_frame Player 2%nat 1 demo_region demo_region).
  - by intros _.
  - apply run_exec. vm_compute. reflexivity.
  - apply run_exec. vm_compute. reflexivity.
Defined.

(** With a team that is neither 1 nor 2 the two operations write nothing. *)
Example rendezvous_of_no_team :
  ∃ trw trp,
    run (waitReferee Player 2 7) demo_region = Some (trw, tt) ∧
    run (playUntilEnd Player 2 7) demo_region = Some (trp, tt) ∧
    Forall (λ e, ev_post e = ev_pre e) (trw ++ trp) ∧
    sem_ops trw = [OpDown mutex; OpUp mutex; OpDown playersWaitReferee] ∧
    sem_ops trp = [OpDown mutex; OpUp playing; OpUp mutex; OpDown playersWaitEnd].
Proof.
  eexists _, _. split; [vm_compute; reflexivity|]. split; [vm_compute; reflexivity|].
  split; [|by split]. simpl. repeat constructor.
Qed.

(** ** Team formation: the executions of [constituteTeam] *)

Lemma obeys_mbind k id {S} (δ : S → event → S) ok {A B} (c : prog A) (f : A → prog B)
    h m s Q :
  obeys k id δ ok c h m s (λ a h' m' s', obeys k id δ ok (f a) h' m' s' Q) →
  obeys k id δ ok (c ≫= f) h m s Q.
Proof. apply obeys_bind. Qed.

Lemma concat_replicate_comm {A} (l : list A) n :
  concat (replicate n l) ++ l = l ++ concat (replicate n l).
Proof.
  induction n as [|n IH]; simpl.
  - by rewrite app_nil_r.
  - by rewrite <- app_assoc, IH.
Qed.

Lemma replicate_comm {A} (x : A) n :
  replicate n x ++ [x] = x :: replicate n x.
Proof. induction n as [|n IH]; simpl; [done|]. by rewrite IH. Qed.

Section Formation.
Variables NUMTEAMPLAYERS NUMTEAMGOALIES : Z.

(** The shared region after the arrival of a player, resp. a goalie, is
    counted, from the region [m1] found on entering the critical region. *)
Definition player_counted (m1 : FULL_STAT) : FULL_STAT :=
  let m2 := set_playersArrived (playersArrived m1 + 1) m1 in
  set_playersFree (playersFree m2 + 1) m2.

Definition goalie_counted (m1 : FULL_STAT) : FULL_STAT :=
  let m2 := set_goaliesFree (goaliesFree m1 + 1) m1 in
  set_goaliesArrived (goaliesArrived m2 + 1) m2.

Definition player_entry (m1 : FULL_STAT) : list event :=
  let m2 := set_playersArrived (playersArrived m1 + 1) m1 in
  [Ev (OpDown mutex) m1 m1; Ev OpStore m1 m2; Ev OpStore m2 (player_counted m1);
   Ev OpLoad (player_counted m1) (player_counted m1)].

Definition goalie_entry (m1 : FULL_STAT) : list event :=
  let m2 := set_goaliesFree (goaliesFree m1 + 1) m1 in
  [Ev (OpDown mutex) m1 m1; Ev OpStore m1 m2; Ev OpStore m2 (goalie_counted m1);
   Ev OpLoad (goalie_counted m1) (goalie_counted m1)].

(** A late player: marked LATE, its own increment of [playersFree] undone,
    nothing after the critical region but the two reads of its status. *)
Definition player_late (id : nat) (m1 : FULL_STAT) (tr : list event) (v : Z) : Prop :=
  let m3 := player_counted m1 in
  ∃ m4 m6 m7, write_playerStat id LATE m3 = Some m4 ∧
    let m5 := set_playersFree (playersFree m4 - 1) m4 in
    v = 0 ∧
    tr = player_entry m1 ++
         [Ev OpStore m3 m4; Ev OpStore m4 m5; Ev OpSave m5 m5;
          Ev (OpUp mutex) m5 m5; Ev OpLoad m6 m6; Ev OpLoad m7 m7].

Definition goalie_late (id : nat) (m1 : FULL_STAT) (tr : list event) (v : Z) : Prop :=
  let m3 := goalie_counted m1 in
  ∃ m4 m6 m7, write_goalieStat id LATE m3 = Some m4 ∧
    let m5 := set_goaliesFree (goaliesFree m4 - 1) m4 in
    v = 0 ∧
    tr = goalie_entry m1 ++
         [Ev OpStore m3 m4; Ev OpStore m4 m5; Ev OpSave m5 m5;
          Ev (OpUp mutex) m5 m5; Ev OpLoad m6 m6; Ev OpLoad m7 m7].

(** A recruit: marked WAITING_TEAM, it waits for a captain outside the
    critical region, reads the team id and acknowledges. *)
Definition player_recruit (id : nat) (m1 : FULL_STAT) (tr : list event) (v : Z) : Prop :=
  let m3 := player_counted m1 in
  ∃ m4 m6 m7 m8 m9, write_playerStat id WAITING_TEAM m3 = Some m4 ∧
    v = teamId m8 ∧
    tr = player_entry m1 ++
         [Ev OpLoad m3 m3; Ev OpStore m3 m4; Ev OpSave m4 m4;
          Ev (OpUp mutex) m4 m4; Ev OpLoad m6 m6;
          Ev (OpDown playersWaitTeam) m7 m7; Ev OpLoad m8 m8;
          Ev (OpUp playerRegistered) m9 m9].

Definition goalie_recruit (id : nat) (m1 : FULL_STAT) (tr : list event) (v : Z) : Prop :=
  let m3 := goalie_counted m1 in
  ∃ m4 m5 m6 m7 m8 m9, write_goalieStat id WAITING_TEAM m3 = Some m4 ∧
    v = teamId m8 ∧
    tr = goalie_entry m1 ++
         [Ev OpLoad m3 m3; Ev OpStore m3 m4; Ev OpSave m4 m4;
          Ev (OpUp mutex) m4 m4; Ev OpLoad m5 m5; Ev OpLoad m6 m6;
          Ev (OpDown goaliesWaitTeam) m7 m7; Ev OpLoad m8 m8;
          Ev (OpUp playerRegistered) m9 m9].

(** A captain. The player releases one player and waits for its
    acknowledgment, [NUMTEAMPLAYERS - 1] times over, then does the same for
    one goalie; the goalie releases [NUMTEAMPLAYERS] players and then waits
    for [NUMTEAMPLAYERS] acknowledgments. All of it inside the critical
    region. *)
Definition player_captain (id : nat) (m1 : FULL_STAT) (tr : list event) (v : Z) : Prop :=
  let m3 := player_counted m1 in
  ∃ m4 m8 m9 m10, write_playerStat id FORMING_TEAM m3 = Some m4 ∧
    let m5 := set_playersFree (playersFree m4 - NUMTEAMPLAYERS) m4 in
    let m6 := set_goaliesFree (goaliesFree m5 - NUMTEAMGOALIES) m5 in
    let m7 := set_teamId (teamId m6 + 1) m6 in
    v = teamId m6 ∧
    tr = player_entry m1 ++
         [Ev OpLoad m3 m3; Ev OpStore m3 m4] ++
         concat (replicate (Z.to_nat (NUMTEAMPLAYERS - 1))
                   [Ev (OpUp playersWaitTeam) m4 m4;
                    Ev (OpDown playerRegistered) m4 m4]) ++
         [Ev OpStore m4 m5; Ev (OpUp goaliesWaitTeam) m5 m5;
          Ev (OpDown playerRegistered) m5 m5; Ev OpStore m5 m6;
          Ev OpLoad m6 m6; Ev OpStore m6 m7; Ev OpSave m7 m7;
          Ev (OpUp mutex) m7 m7; Ev OpLoad m8 m8; Ev OpLoad m9 m9;
          Ev (OpUp refereeWaitTeams) m10 m10].

Definition goalie_captain (id : nat) (m1 : FULL_STAT) (tr : list event) (v : Z) : Prop :=
  let m3 := goalie_counted m1 in
  ∃ m4 m8 m9, write_goalieStat id FORMING_TEAM m3 = Some m4 ∧
    let m5 := set_goaliesFree (goaliesFree m4 - NUMTEAMGOALIES) m4 in
    let m6 := set_playersFree (playersFree m5 - NUMTEAMPLAYERS) m5 in
    let m7 := set_teamId (teamId m6 + 1) m6 in
    v = teamId m6 ∧
    tr = goalie_entry m1 ++
         [Ev OpLoad m3 m3; Ev OpStore m3 m4; Ev OpStore m4 m5] ++
         replicate (Z.to_nat NUMTEAMPLAYERS) (Ev (OpUp playersWaitTeam) m5 m5) ++
         replicate (Z.to_nat NUMTEAMPLAYERS) (Ev (OpDown playerRegistered) m5 m5) ++
         [Ev OpStore m5 m6; Ev OpLoad m6 m6; Ev OpStore m6 m7; Ev OpSave m7 m7;
          Ev (OpUp mutex) m7 m7; Ev OpLoad m8 m8;
          Ev (OpUp refereeWaitTeams) m9 m9].

(** The role an arrival takes, decided on the counters after its own
    increments. *)
Inductive Role : Type := IsLate | IsCaptain | IsRecruit.

Definition role_of (k : Kind) (m3 : FULL_STAT) : Role :=
  let late := match k with
              | Player => negb (playersArrived m3 <=? 2 * NUMTEAMPLAYERS)
              | Goalie => negb (goaliesArrived m3 <=? 2 * NUMTEAMGOALIES)
              end in
  if late then IsLate
  else if (NUMTEAMPLAYERS <=? playersFree m3) && (NUMTEAMGOALIES <=? goaliesFree m3)
       then IsCaptain else IsRecruit.

Definition counted (k : Kind) : FULL_STAT → FULL_STAT :=
  match k with Player => player_counted | Goalie => goalie_counted end.

(** [formation k id m1 tr v]: [tr] is a complete execution of
    [constituteTeam] that entered the critical region on [m1] and returned
    [v], in the role decided there. *)
Definition formation (k : Kind) (id : nat) (m1 : FULL_STAT)
    (tr : list event) (v : Z) : Prop :=
  match k, role_of k (counted k m1) with
  | Player, IsLate => player_late id m1 tr v
  | Player, IsCaptain => player_captain id m1 tr v
  | Player, IsRecruit => player_recruit id m1 tr v
  | Goalie, IsLate => goalie_late id m1 tr v
  | Goalie, IsCaptain => goalie_captain id m1 tr v
  | Goalie, IsRecruit => goalie_recruit id m1 tr v
  end.

Ltac obeys_go :=
  repeat (obeys_next; simplify_eq/=).

Lemma write_playerStat_own id v m m' :
  write_playerStat id v m = Some m' → playerStat (st m') !! id = Some v.
Proof. apply (write_stat_own Player). Qed.

Lemma write_goalieStat_own id v m m' :
  write_goalieStat id v m = Some m' → goalieStat (st m') !! id = Some v.
Proof. apply (write_stat_own Goalie). Qed.

(** After the critical region the actor reads its own status, which no
    other process writes. *)
Ltac own_status :=
  repeat match goal with
  | Hw : write_playerStat ?id ?v _ = Some ?m1,
    Hr : playerStat (st ?m2) !! ?id = playerStat (st ?m1) !! ?id |- _ =>
      rewrite (write_playerStat_own _ _ _ _ Hw) in Hr
  | Hw : write_goalieStat ?id ?v _ = Some ?m1,
    Hr : goalieStat (st ?m2) !! ?id = goalieStat (st ?m1) !! ?id |- _ =>
      rewrite (write_goalieStat_own _ _ _ _ Hw) in Hr
  | Hr : playerStat (st ?m2) !! ?id = Some _ |- context [playerStat (st ?m2) !! ?id] =>
      rewrite Hr
  | Hr : goalieStat (st ?m2) !! ?id = Some _ |- context [goalieStat (st ?m2) !! ?id] =>
      rewrite Hr
  | Hr1 : ?x = Some _, Hr2 : ?y = ?x |- _ => rewrite Hr1 in Hr2
  end;
  repeat (case_bool_decide; simplify_eq; []).

Ltac finish_run m :=
  exists m; unfold formation, role_of, counted; simpl;
  repeat match goal with H : _ = true |- _ => rewrite H | H : _ = false |- _ => rewrite H end;
  simpl;
  unfold player_late, player_recruit, player_captain,
         goalie_late, goalie_recruit, goalie_captain;
  repeat eexists; [eassumption|..];
  unfold record, player_entry, goalie_entry, player_counted, goalie_counted;
  simpl; rewrite <- ?app_assoc; reflexivity.

Lemma playerConstituteTeam_runs id m0 tr v :
  exec Player id false m0
    (Player.playerConstituteTeam NUMTEAMPLAYERS NUMTEAMGOALIES id) tr (Ret v) →
  ∃ m1, formation Player id m1 tr v.
Proof.
  intros Hex. from_program Hex.
  unfold Player.playerConstituteTeam. simpl. obeys_go.
  destruct (playersArrived m + 1 <=? 2 * NUMTEAMPLAYERS) eqn:Ha; simpl.
  - obeys_go.
    destruct ((NUMTEAMPLAYERS <=? playersFree m + 1) && (NUMTEAMGOALIES <=? goaliesFree m))
      eqn:Hb; simpl.
    + obeys_go. do 2 apply obeys_mbind.
      match goal with |- obeys _ _ _ _ _ _ ?mm ?s _ =>
        remember s as pre eqn:Hpre;
        apply (obeys_for_loop Player id record _
                 (λ i h m' s', h = true ∧ m' = mm ∧
                    s' = pre ++ concat (replicate i [Ev (OpUp playersWaitTeam) mm mm;
                                                     Ev (OpDown playerRegistered) mm mm])))
      end.
      * simpl. by rewrite ?app_nil_r.
      * clear Hpre. intros i h m' s' _ (-> & -> & ->). simpl. obeys_go.
        repeat split. unfold record. rewrite <- !app_assoc. f_equal.
        apply (concat_replicate_comm [_; _]).
      * intros h m' s' (-> & -> & ->). simpl. obeys_go.
        own_status. simpl. obeys_go. own_status. simpl. obeys_go.
        finish_run m.
    + obeys_go. own_status. simpl. obeys_go. finish_run m.
  - obeys_go. own_status. simpl. obeys_go. own_status. simpl. finish_run m.
Qed.

Lemma goalieConstituteTeam_runs id m0 tr v :
  exec Goalie id false m0
    (Goalie.goalieConstituteTeam NUMTEAMPLAYERS NUMTEAMGOALIES id) tr (Ret v) →
  ∃ m1, formation Goalie id m1 tr v.
Proof.
  intros Hex. from_program Hex.
  unfold Goalie.goalieConstituteTeam. simpl. obeys_go.
  destruct (goaliesArrived m + 1 <=? 2 * NUMTEAMGOALIES) eqn:Ha; simpl.
  - obeys_go.
    destruct ((NUMTEAMPLAYERS <=? playersFree m) && (NUMTEAMGOALIES <=? goaliesFree m + 1))
      eqn:Hb; simpl.
    + obeys_go. do 2 apply obeys_mbind.
      match goal with |- obeys _ _ _ _ _ _ ?mm ?s _ =>
        remember s as pre eqn:Hpre;
        apply (obeys_for_loop Goalie id record _
                 (λ i h m' s', h = true ∧ m' = mm ∧
                    s' = pre ++ replicate i (Ev (OpUp playersWaitTeam) mm mm)))
      end.
      * simpl. by rewrite ?app_nil_r.
      * clear Hpre. intros i h m' s' _ (-> & -> & ->). simpl. obeys_go.
        repeat split. unfold record. rewrite <- !app_assoc. f_equal.
        apply replicate_comm.
      * intros h m' s' (-> & -> & ->). simpl. apply obeys_mbind.
        match goal with |- obeys _ _ _ _ _ _ ?mm ?s _ =>
          remember s as pre2 eqn:Hpre2;
          apply (obeys_for_loop Goalie id record _
                   (λ i h m' s', h = true ∧ m' = mm ∧
                      s' = pre2 ++ replicate i (Ev (OpDown playerRegistered) mm mm)))
        end.
        -- simpl. by rewrite ?app_nil_r.
        -- clear Hpre Hpre2. intros i h m' s' _ (-> & -> & ->). simpl. obeys_go.
           repeat split. unfold record. rewrite <- !app_assoc. f_equal.
           apply replicate_comm.
        -- intros h m' s' (-> & -> & ->). simpl. obeys_go.
           own_status. simpl. obeys_go. finish_run m.
    + obeys_go. own_status. simpl. obeys_go. own_status. simpl. obeys_go.
      finish_run m.
  - obeys_go. own_status. simpl. obeys_go. own_status. simpl. finish_run m.
Qed.

Lemma constituteTeam_runs k id m0 tr v :
  exec k id false m0 (constituteTeam NUMTEAMPLAYERS NUMTEAMGOALIES k id) tr (Ret v) →
  ∃ m1, formation k id m1 tr v.
Proof.
  destruct k; [apply playerConstituteTeam_runs | apply goalieConstituteTeam_runs].
Qed.
End Formation.

(** ** The life cycle as a sequence of operations *)

Lemma exec_bind_inv k id {A B} (c : prog A) (f : A → prog B) h m tr v :
  exec k id h m (bind c f) tr (Ret v) →
  ∃ tr1 a tr2, tr = tr1 ++ tr2 ∧ exec k id h m c tr1 (Ret a) ∧
    exec k id (held_of h tr1) (last_post m tr1) (f a) tr2 (Ret v).
Proof.
  revert h m tr.
  induction c as [a|x c IH|x c IH|c IH|g c IH|c IH|c IH]; simpl; intros h m tr Hex.
  - exists [], a, tr. repeat split; [constructor|done].
  - inversion Hex as [|? ? m1 ? e c1 tr' ? Hr Hst Hex']; simplify_eq/=.
    destruct (IH _ _ _ Hex') as (tr1 & a & tr2 & -> & H1 & H2).
    eexists (_ :: tr1), a, tr2. repeat split; [|done].
    eapply exec_cons; [done|done|done].
  - inversion Hex as [|? ? m1 ? e c1 tr' ? Hr Hst Hex']; simplify_eq/=.
    destruct (IH _ _ _ Hex') as (tr1 & a & tr2 & -> & H1 & H2).
    eexists (_ :: tr1), a, tr2. repeat split; [|done].
    eapply exec_cons; [done|done|done].
  - inversion Hex as [|? ? m1 ? e c1 tr' ? Hr Hst Hex']; simplify_eq/=.
    destruct (IH _ _ _ _ Hex') as (tr1 & a & tr2 & -> & H1 & H2).
    eexists (_ :: tr1), a, tr2. repeat split; [|done].
    eapply exec_cons; [done|done|done].
  - inversion Hex as [|? ? m1 ? e c1 tr' ? Hr Hst Hex']; subst.
    simpl in Hst. destruct (g m1) as [m2|] eqn:Hg; simplify_eq/=.
    destruct (IH _ _ _ Hex') as (tr1 & a & tr2 & -> & H1 & H2).
    eexists (_ :: tr1), a, tr2. repeat split; [|done].
    eapply exec_cons; [done|by simpl; rewrite Hg|done].
  - inversion Hex as [|? ? m1 ? e c1 tr' ? Hr Hst Hex']; simplify_eq/=.
    destruct (IH _ _ _ Hex') as (tr1 & a & tr2 & -> & H1 & H2).
    eexists (_ :: tr1), a, tr2. repeat split; [|done].
    eapply exec_cons; [done|done|done].
  - inversion Hex as [|? ? m1 ? e c1 tr' ? Hr Hst Hex']; simplify_eq/=.
    destruct (IH _ _ _ Hex') as (tr1 & a & tr2 & -> & H1 & H2).
    eexists (_ :: tr1), a, tr2. repeat split; [|done].
    eapply exec_cons; [done|done|done].
Qed.

(** What a process last saw of the shared region only matters through its
    own status entry. *)
Lemma exec_forget k id {A} (c : prog A) m m' tr c' :
  exec k id false m c tr c' → own_stat k id m' = own_stat k id m →
  exec k id false m' c tr c'.
Proof.
  intros Hex Hown. inversion Hex as [|? ? m1 ? e c1 tr' ? Hr Hst Hex']; subst.
  - constructor.
  - eapply exec_cons; [|done|done].
    destruct Hr as [_ Hr]. split; [done|congruence].
Qed.

(** The discipline of the waits: inside the critical region a process waits
    on [playerRegistered] only, outside of it on any other semaphore. *)
Definition wait_discipline (h : bool) (e : event) : Prop :=
  match ev_op e with
  | OpDown s => if h then s = playerRegistered else s ≠ playerRegistered
  | _ => True
  end.

Fixpoint waits_ok (h : bool) (tr : list event) : Prop :=
  match tr with
  | [] => True
  | e :: tr' => wait_discipline h e ∧ waits_ok (held_after h (ev_op e)) tr'
  end.

(** The semaphores a process waits on while inside the critical region. *)
Fixpoint waits_inside (h : bool) (tr : list event) : list Sem :=
  match tr with
  | [] => []
  | e :: tr' =>
      let rest := waits_inside (held_after h (ev_op e)) tr' in
      match ev_op e with
      | OpDown s => if h then s :: rest else rest
      | _ => rest
      end
  end.

Lemma follows_waits_ok {S} (δ : S → event → S) h s tr :
  follows δ (λ h _ e, wait_discipline h e) h s tr → waits_ok h tr.
Proof.
  revert h s. induction tr as [|e tr IH]; intros h s; simpl; [done|].
  intros [He Htr]. eauto.
Qed.

Lemma waits_ok_inside h tr :
  waits_ok h tr → Forall (λ s, s = playerRegistered) (waits_inside h tr).
Proof.
  revert h. induction tr as [|e tr IH]; intros h; simpl; [constructor|].
  intros [He Htr]. unfold wait_discipline in He.
  destruct (ev_op e) as [s| | | | |]; try (by apply IH).
  destruct h; [constructor; [done|by apply IH]|by apply IH].
Qed.

Section Balanced.
Variables NUMTEAMPLAYERS NUMTEAMGOALIES : Z.

(** Every operation keeps the discipline of the waits and leaves the
    critical region before it returns. *)
Definition leaves (k : Kind) (id : nat) {A} (c : prog A) : Prop :=
  ∀ m, obeys k id (λ (_ : unit) _, tt) (λ h _ e, wait_discipline h e) c false m tt
         (λ _ h _ _, h = false).

Lemma leaves_exec k id {A} (c : prog A) m tr a :
  leaves k id c → exec k id false m c tr (Ret a) → held_of false tr = false.
Proof.
  intros Hl Hex. by destruct (obeys_exec _ _ _ _ _ _ _ _ _ _ _ (Hl m) Hex) as [_ HQ].
Qed.

Ltac leaves_go :=
  repeat (first [obeys_next | split; [done|] | intros ? Hr | intros ? ? Hr Hw]; simpl).

Lemma arrive_leaves k id : leaves k id (arrive k id).
Proof. intros m. destruct k; simpl; leaves_go; done. Qed.

Lemma waitReferee_leaves k id team : leaves k id (waitReferee k id team).
Proof.
  intros m. destruct k; simpl; leaves_go;
    destruct (team =? 1); [|destruct (team =? 2)| |destruct (team =? 2)];
    simpl; leaves_go; done.
Qed.

Lemma playUntilEnd_leaves k id team : leaves k id (playUntilEnd k id team).
Proof.
  intros m. destruct k; simpl; leaves_go;
    destruct (team =? 1); [|destruct (team =? 2)| |destruct (team =? 2)];
    simpl; leaves_go; done.
Qed.

Lemma constituteTeam_leaves k id :
  leaves k id (constituteTeam NUMTEAMPLAYERS NUMTEAMGOALIES k id).
Proof.
  intros m. destruct k; simpl.
  - unfold Player.playerConstituteTeam. simpl. leaves_go.
    match goal with |- context [if ?b then _ else _] => destruct b end; simpl.
    + leaves_go.
      match goal with |- context [if ?b then _ else _] => destruct b end; simpl.
      * leaves_go. do 2 apply obeys_mbind.
        apply (obeys_for_loop _ _ _ _ (λ _ h _ _, h = true)); [done| |].
        { intros i h m' [] _ ->. simpl. leaves_go. done. }
        intros h m' [] ->. simpl. leaves_go.
        match goal with |- context [if ?b then _ else _] => destruct b end; simpl;
          leaves_go; [done|].
        match goal with |- context [if ?b then _ else _] => destruct b end; simpl;
          leaves_go; done.
      * leaves_go.
        match goal with |- context [if ?b then _ else _] => destruct b end; simpl;
          leaves_go; [done|].
        match goal with |- context [if ?b then _ else _] => destruct b end; simpl;
          leaves_go; done.
    + leaves_go.
      match goal with |- context [if ?b then _ else _] => destruct b end; simpl;
        leaves_go; [done|].
      match goal with |- context [if ?b then _ else _] => destruct b end; simpl;
        leaves_go; done.
  - unfold Goalie.goalieConstituteTeam. simpl. leaves_go.
    match goal with |- context [if ?b then _ else _] => destruct b end; simpl.
    + leaves_go.
      match goal with |- context [if ?b then _ else _] => destruct b end; simpl.
      * leaves_go. do 2 apply obeys_mbind.
        apply (obeys_for_loop _ _ _ _ (λ _ h _ _, h = true)); [done| |].
        { intros i h m' [] _ ->. simpl. leaves_go. done. }
        intros h m' [] ->. simpl. apply obeys_mbind.
        apply (obeys_for_loop _ _ _ _ (λ _ h _ _, h = true)); [done| |].
        { intros i h m'' [] _ ->. simpl. leaves_go. done. }
        intros h m'' [] ->. simpl. leaves_go.
        match goal with |- context [if ?b then _ else _] => destruct b end; simpl;
          leaves_go; [done|].
        match goal with |- context [if ?b then _ else _] => destruct b end; simpl;
          leaves_go; done.
      * leaves_go.
        match goal with |- context [if ?b then _ else _] => destruct b end; simpl;
          leaves_go; [done|].
        match goal with |- context [if ?b then _ else _] => destruct b end; simpl;
          leaves_go; done.
    + leaves_go.
      match goal with |- context [if ?b then _ else _] => destruct b end; simpl;
        leaves_go; [done|].
      match goal with |- context [if ?b then _ else _] => destruct b end; simpl;
        leaves_go; done.
Qed.

(** A complete life cycle is an arrival, a team formation and, for the
    actors that got a team, the two waits on the referee. *)
Lemma life_runs k id m0 tr v :
  exec k id false m0 (life NUMTEAMPLAYERS NUMTEAMGOALIES k id) tr (Ret v) →
  ∃ tra trc rest ma,
    tr = tra ++ trc ++ rest ∧
    exec k id false m0 (arrive k id) tra (Ret tt) ∧
    exec k id false ma (constituteTeam NUMTEAMPLAYERS NUMTEAMGOALIES k id) trc (Ret v) ∧
    (v = 0 → rest = []) ∧
    (v ≠ 0 → ∃ trw trp mw mp, rest = trw ++ trp ∧
       exec k id false mw (waitReferee k id v) trw (Ret tt) ∧
       exec k id false mp (playUntilEnd k id v) trp (Ret tt)).
Proof.
  intros Hex.
  assert (Hex' : exec k id false m0
    (bind (arrive k id) (λ _, bind (constituteTeam NUMTEAMPLAYERS NUMTEAMGOALIES k id)
       (λ team, if negb (team =? 0)
                then bind (waitReferee k id team)
                       (λ _, bind (playUntilEnd k id team) (λ _, Ret team))
                else Ret team))) tr (Ret v)) by (by destruct k).
  clear Hex.
  apply exec_bind_inv in Hex' as (tra & [] & tr2 & -> & Ha & H2).
  rewrite (leaves_exec _ _ _ _ _ _ (arrive_leaves k id) Ha) in H2.
  apply exec_bind_inv in H2 as (trc & team & tr3 & -> & Hc & H3).
  rewrite (leaves_exec _ _ _ _ _ _ (constituteTeam_leaves k id) Hc) in H3.
  exists tra, trc, tr3, (last_post m0 tra).
  destruct (team =? 0) eqn:Ht; simpl in H3.
  - apply Z.eqb_eq in Ht as ->.
    inversion H3 as [|? ? ? ? ? ? ? ? ? Hst]; subst; [|by simpl in Hst]. by repeat split.
  - apply Z.eqb_neq in Ht.
    apply exec_bind_inv in H3 as (trw & [] & tr4 & -> & Hw & H4).
    rewrite (leaves_exec _ _ _ _ _ _ (waitReferee_leaves k id team) Hw) in H4.
    apply exec_bind_inv in H4 as (trp & [] & tr5 & -> & Hp & H5).
    inversion H5 as [|? ? ? ? ? ? ? ? ? Hst]; subst; [|by simpl in Hst].
    repeat split; [done|done|done|]. intros _.
    eexists trw, trp, _, _. rewrite app_nil_r. repeat split; eassumption.
Qed.
End Balanced.

(** ** Reading the semaphore operations off a trace *)
Lemma pick_app f tr1 tr2 : pick f (tr1 ++ tr2) = pick f tr1 ++ pick f tr2.
Proof.
  induction tr1 as [|e tr1 IH]; simpl; [done|].
  rewrite IH. by destruct (f (ev_op e)).
Qed.

Lemma pick_concat_replicate f n tr :
  pick f (concat (replicate n tr)) = concat (replicate n (pick f tr)).
Proof. induction n as [|n IH]; simpl; [done|]. by rewrite pick_app, IH. Qed.

Lemma pick_replicate f n e :
  pick f (replicate n e) =
  if f (ev_op e) then replicate n (ev_op e) else [].
Proof.
  induction n as [|n IH]; simpl; [by destruct (f (ev_op e))|].
  rewrite IH. by destruct (f (ev_op e)).
Qed.

(** The captain's side of the registration handshake: releases of recruits
    and waits for their acknowledgment. *)
Definition is_release (o : op) : bool :=
  match o with
  | OpUp playersWaitTeam | OpUp goaliesWaitTeam => true
  | _ => false
  end.

Definition is_ack_wait (o : op) : bool :=
  match o with OpDown playerRegistered => true | _ => false end.

Definition handshake (tr : list event) : list op :=
  pick (λ o, is_release o || is_ack_wait o) tr.

(** One release, then one wait, and so on. *)
Fixpoint paired (l : list op) : bool :=
  match l with
  | [] => true
  | r :: l1 =>
      match l1 with
      | a :: l' => is_release r && is_ack_wait a && paired l'
      | [] => false
      end
  end.

Definition count_op (o : op) (tr : list event) : nat :=
  length (pick (λ o', bool_decide (o' = o)) tr).

Definition perTeam (NUMTEAMPLAYERS NUMTEAMGOALIES : Z) (k : Kind) : Z :=
  match k with Player => NUMTEAMPLAYERS | Goalie => NUMTEAMGOALIES end.

Definition arrived (k : Kind) (m : FULL_STAT) : Z :=
  match k with Player => playersArrived m | Goalie => goaliesArrived m end.

Definition free (k : Kind) (m : FULL_STAT) : Z :=
  match k with Player => playersFree m | Goalie => goaliesFree m end.

(** The handshake of a captain of kind [k]. *)
Definition captain_handshake (NUMTEAMPLAYERS : Z) (k : Kind) : list op :=
  match k with
  | Player =>
      concat (replicate (Z.to_nat (NUMTEAMPLAYERS - 1))
                [OpUp playersWaitTeam; OpDown playerRegistered]) ++
      [OpUp goaliesWaitTeam; OpDown playerRegistered]
  | Goalie =>
      replicate (Z.to_nat NUMTEAMPLAYERS) (OpUp playersWaitTeam) ++
      replicate (Z.to_nat NUMTEAMPLAYERS) (OpDown playerRegistered)
  end.

(** Regions to run the team formation on. *)
Definition two_players_waiting : FULL_STAT :=
  mkFULL_STAT (mkSTAT [WAITING_TEAM; WAITING_TEAM; ARRIVING; ARRIVING]
                      [ARRIVING; ARRIVING]) 2 0 2 0 1.

Definition one_each_waiting : FULL_STAT :=
  mkFULL_STAT (mkSTAT [WAITING_TEAM; ARRIVING; ARRIVING; ARRIVING]
                      [WAITING_TEAM; ARRIVING]) 1 1 1 1 1.



Lemma paired_pairs n l :
  paired l = true →
  paired (concat (replicate n [OpUp playersWaitTeam; OpDown playerRegistered]) ++ l) = true.
Proof. intros Hl. induction n as [|n IH]; simpl; done. Qed.

Section FormationClaims.
Variables NUMTEAMPLAYERS NUMTEAMGOALIES : Z.

Lemma life_leaves k id : leaves k id (life NUMTEAMPLAYERS NUMTEAMGOALIES k id).
Proof.
  intros m.
  assert (Hb : ∀ {A B} (c : prog A) (f : A → prog B) m',
    leaves k id c → (∀ a, leaves k id (f a)) →
    obeys k id (λ (_ : unit) _, tt) (λ h _ e, wait_discipline h e)
      (bind c f) false m' tt (λ _ h _ _, h = false)).
  { intros A B c f m' Hc Hf. apply obeys_bind.
    eapply obeys_mono; [|apply Hc]. intros a h m'' [] ->. apply Hf. }
  assert (Hl : leaves k id
    (bind (arrive k id) (λ _, bind (constituteTeam NUMTEAMPLAYERS NUMTEAMGOALIES k id)
       (λ team, if negb (team =? 0)
                then bind (waitReferee k id team)
                       (λ _, bind (playUntilEnd k id team) (λ _, Ret team))
                else Ret team)))).
  { intros m'. apply Hb; [apply arrive_leaves|]. intros _ m1.
    apply Hb; [apply constituteTeam_leaves|]. intros team m2.
    destruct (negb (team =? 0)); [|done].
    apply Hb; [apply waitReferee_leaves|]. intros _ m3.
    apply Hb; [apply playUntilEnd_leaves|]. by intros _ m4. }
  destruct k; apply Hl.
Qed.

Ltac pick_go :=
  simpl; rewrite ?pick_app, ?pick_concat_replicate, ?pick_replicate; simpl.

(** X16. In every complete execution of [constituteTeam] the
    releases and acknowledgment waits of a captain are, for a player, one
    release then one wait per recruit, strictly in sequence
    ([NUMTEAMPLAYERS - 1] players, then one goalie); for a goalie, the
    [NUMTEAMPLAYERS] releases first and then the [NUMTEAMPLAYERS] waits. An
    actor that is not a captain performs none of them. *)
Theorem captain_handshake_order k id m0 tr v :
  exec k id false m0 (constituteTeam NUMTEAMPLAYERS NUMTEAMGOALIES k id) tr (Ret v) →
  ∃ m1, head tr = Some (Ev (OpDown mutex) m1 m1) ∧
    handshake tr = match role_of NUMTEAMPLAYERS NUMTEAMGOALIES k (counted k m1) with
                   | IsCaptain => captain_handshake NUMTEAMPLAYERS k
                   | _ => []
                   end ∧
    (k = Player → paired (handshake tr) = true).
Proof.
  intros Hex. apply constituteTeam_runs in Hex as [m1 Hf]. exists m1.
  unfold formation in Hf. unfold handshake.
  destruct k, (role_of NUMTEAMPLAYERS NUMTEAMGOALIES _ _);
    [destruct Hf as (m4 & m6 & m7 & Hw & -> & ->)
    |destruct Hf as (m4 & m8 & m9 & m10 & Hw & -> & ->)
    |destruct Hf as (m4 & m6 & m7 & m8 & m9 & Hw & -> & ->)
    |destruct Hf as (m4 & m6 & m7 & Hw & -> & ->)
    |destruct Hf as (m4 & m8 & m9 & Hw & -> & ->)
    |destruct Hf as (m4 & m5 & m6 & m7 & m8 & m9 & Hw & -> & ->)];
    unfold player_entry, goalie_entry; simpl; (split; [reflexivity|]);
    pick_go; rewrite ?app_nil_r; (split; [reflexivity|]); try done.
  intros _. by apply paired_pairs.
Qed.

(** C2 (as amended): in every execution of the life cycle of a player or of
    a goalie, complete or not, every wait on a semaphore other than
    [playerRegistered] (the lock itself, the recruitment, the start and the
    end of the match) is performed outside the critical region, and every
    wait on [playerRegistered] (the captain waiting for an acknowledgment)
    is performed inside it. *)
Theorem waits_and_critical_region k id m0 tr c :
  exec k id false m0 (life NUMTEAMPLAYERS NUMTEAMGOALIES k id) tr c →
  waits_ok false tr ∧
  Forall (λ s, s = playerRegistered) (waits_inside false tr).
Proof.
  intros Hex.
  destruct (obeys_exec _ _ _ _ _ _ _ _ _ _ _ (life_leaves k id m0) Hex) as [Hf _].
  apply follows_waits_ok in Hf. split; [done|by apply waits_ok_inside].
Qed.

End FormationClaims.

Lemma captain_handshake_order_witness :
  ∃ tr v,
    run (constituteTeam 2 1 Player 1) one_each_waiting = Some (tr, v) ∧
    ∃ m1, head tr = Some (Ev (OpDown mutex) m1 m1) ∧
      handshake tr = match role_of 2 1 Player (counted Player m1) with
                     | IsCaptain => captain_handshake 2 Player
                     | _ => []
                     end ∧
      (Player = Player → paired (handshake tr) = true).
Proof.
  eexists _, _. split; [vm_compute; reflexivity|].
  eapply (captain_handshake_order 2 1 Player 1%nat one_each_waiting).
  apply run_exec. vm_compute. reflexivity.
Defined.


(** C1 does not hold of the goalie captain, whose two loops release all the
    recruits and only then wait for the acknowledgments, where the player
    captain pairs each release with its wait: with two players per team,
    the goalie that finds two players waiting releases both before it waits
    for the first acknowledgment. *)
Lemma goalie_captain_batches :
  ∃ tr v,
    exec Goalie 0 false two_players_waiting (constituteTeam 2 1 Goalie 0) tr (Ret v) ∧
    handshake tr = [OpUp playersWaitTeam; OpUp playersWaitTeam;
                    OpDown playerRegistered; OpDown playerRegistered] ∧
    paired (handshake tr) = false.
Proof.
  eexists _, _. split; [apply run_exec; vm_compute; reflexivity|].
  split; vm_compute; reflexivity.
Qed.


Lemma waits_and_critical_region_witness :
  ∃ tr v,
    run (life 2 1 Player 1) one_each_waiting = Some (tr, v) ∧
    waits_ok false tr ∧
    Forall (λ s, s = playerRegistered) (waits_inside false tr).
Proof.
  eexists _, _. split; [vm_compute; reflexivity|].
  eapply (waits_and_critical_region 2 1 Player 1%nat one_each_waiting _ (Ret _)).
  apply run_exec. vm_compute. reflexivity.
Defined.


(** C2 as stated fails for a captain: it waits for the acknowledgments of
    its recruits while it is inside the critical region. *)
Lemma captain_waits_inside_critical_region :
  ∃ tr v,
    exec Player 1 false one_each_waiting (constituteTeam 2 1 Player 1) tr (Ret v) ∧
    waits_inside false tr = [playerRegistered; playerRegistered].
Proof.
  eexists _, _. split; [apply run_exec; vm_compute; reflexivity|].
  vm_compute; reflexivity.
Qed.

Lemma length_concat_replicate {A} n (l : list A) :
  length (concat (replicate n l)) = (n * length l)%nat.
Proof. induction n as [|n IH]; simpl; [done|]. rewrite length_app, IH. lia. Qed.

Section MoreFormationClaims.
Variables NUMTEAMPLAYERS NUMTEAMGOALIES : Z.

Ltac pick_go :=
  simpl; rewrite ?pick_app, ?pick_concat_replicate, ?pick_replicate; simpl.

Ltac find_event :=
  simpl;
  repeat first [ apply list_elem_of_here | apply list_elem_of_further
               | (apply elem_of_app; right) ].


End MoreFormationClaims.




(** ** The processes together

    The players and the goalies run their life cycles side by side over one
    shared region and one semaphore set; every step is one action of one
    process. *)

(** Where a process is in [main]: the operation it runs and what is left of
    it, with the team it got once [constituteTeam] has returned. *)
Inductive phase : Type :=
| InArrive (c : prog unit)
| InConstitute (c : prog Z)
| InWaitReferee (team : Z) (c : prog unit)
| InPlay (team : Z) (c : prog unit)
| Done (team : Z).

(** A process: its kind and id, its phase, the events it has performed
    (newest first) and the process whose signal released it from its wait
    for a team. The last two are history: no step reads them. *)
Record proc : Type := Proc {
  p_kind : Kind;
  p_id : nat;
  p_phase : phase;
  p_trace : list event;
  p_by : option nat
}.

Record system : Type := Sys {
  shared : FULL_STAT;
  sems : Sem → nat;
  procs : list proc;
  referee_in : bool;
  last_up : Sem → option nat
}.

Definition set_at {A} (s : Sem) (v : A) (f : Sem → A) : Sem → A :=
  λ x, if decide (x = s) then v else f x.

(** Modelled from the spec: the referee, whose process is not among the
    sources at hand. It meets the teams through the lock and the semaphores
    of its rendezvous (teams ready, match started, player entered play,
    match ended); here it may operate on these at any time, taking the lock
    when it is free and releasing it when it holds it, and it leaves the
    counters and the status entries of the players and goalies as they are.

    An action of the system is a step of process [i] or one of the referee. *)
Inductive action : Type :=
| Act (i : nat)
| RefereeDown (s : Sem)
| RefereeUp (s : Sem).

(** The semaphores of the referee's side of the rendezvous. *)
Definition referee_sem (s : Sem) : bool :=
  match s with
  | mutex | refereeWaitTeams | playersWaitReferee | playersWaitEnd | playing => true
  | _ => false
  end.

Definition is_wait_team (s : Sem) : bool :=
  match s with playersWaitTeam | goaliesWaitTeam => true | _ => false end.

Section System.
Variables NUMTEAMPLAYERS NUMTEAMGOALIES : Z.

(** One step of [main]: the next action of the running operation, or the
    return from it and the call of the next one. *)
Definition next (k : Kind) (id : nat) (ph : phase) (m : FULL_STAT)
  : option (option event * phase) :=
  match ph with
  | InArrive (Ret _) =>
      Some (None, InConstitute (constituteTeam NUMTEAMPLAYERS NUMTEAMGOALIES k id))
  | InArrive c => r ← step_prog c m; Some (Some r.1, InArrive r.2)
  | InConstitute (Ret team) =>
      Some (None, if team =? 0 then Done team
                  else InWaitReferee team (waitReferee k id team))
  | InConstitute c => r ← step_prog c m; Some (Some r.1, InConstitute r.2)
  | InWaitReferee team (Ret _) => Some (None, InPlay team (playUntilEnd k id team))
  | InWaitReferee team c => r ← step_prog c m; Some (Some r.1, InWaitReferee team r.2)
  | InPlay team (Ret _) => Some (None, Done team)
  | InPlay team c => r ← step_prog c m; Some (Some r.1, InPlay team r.2)
  | Done _ => None
  end.

(** A [semDown] goes through when the semaphore is positive. *)
Definition sem_effect (sm : Sem → nat) (o : op) : option (Sem → nat) :=
  match o with
  | OpDown s =>
      match sm s with
      | O => None
      | S n => Some (set_at s n sm)
      end
  | OpUp s => Some (set_at s (S (sm s)) sm)
  | _ => Some sm
  end.

Definition fire (σ : system) (a : action) : option system :=
  match a with
  | Act i =>
      p ← procs σ !! i;
      r ← next (p_kind p) (p_id p) (p_phase p) (shared σ);
      match r.1 with
      | None =>
          Some (Sys (shared σ) (sems σ)
                    (<[i := Proc (p_kind p) (p_id p) r.2 (p_trace p) (p_by p)]> (procs σ))
                    (referee_in σ) (last_up σ))
      | Some e =>
          sm ← sem_effect (sems σ) (ev_op e);
          let by' := match ev_op e with
                     | OpDown s => if is_wait_team s then last_up σ s else p_by p
                     | _ => p_by p
                     end in
          let lu := match ev_op e with
                    | OpUp s => set_at s (Some i) (last_up σ)
                    | _ => last_up σ
                    end in
          Some (Sys (ev_post e) sm
                    (<[i := Proc (p_kind p) (p_id p) r.2 (e :: p_trace p) by']> (procs σ))
                    (referee_in σ) lu)
      end
  | RefereeDown s =>
      if referee_sem s && negb (bool_decide (s = mutex) && referee_in σ) then
        sm ← sem_effect (sems σ) (OpDown s);
        Some (Sys (shared σ) sm (procs σ)
                  (if bool_decide (s = mutex) then true else referee_in σ) (last_up σ))
      else None
  | RefereeUp s =>
      if referee_sem s && (negb (bool_decide (s = mutex)) || referee_in σ) then
        sm ← sem_effect (sems σ) (OpUp s);
        Some (Sys (shared σ) sm (procs σ)
                  (if bool_decide (s = mutex) then false else referee_in σ) (last_up σ))
      else None
  end.

Fixpoint fire_all (σ : system) (l : list action) : option system :=
  match l with
  | [] => Some σ
  | a :: l' => σ' ← fire σ a; fire_all σ' l'
  end.
End System.

Definition boot (players goalies : nat) (m : FULL_STAT) : system :=
  Sys m (λ s, if decide (s = mutex) then 1%nat else 0%nat)
      (map (λ id, Proc Player id (InArrive (arrive Player id)) [] None) (seq 0 players) ++
       map (λ id, Proc Goalie id (InArrive (arrive Goalie id)) [] None) (seq 0 goalies))
      false (λ _, None).

Definition fresh_region (players goalies : nat) : FULL_STAT :=
  mkFULL_STAT (mkSTAT (replicate players ARRIVING) (replicate goalies ARRIVING)) 0 0 0 0 1.

(** ** What a process has done so far

    The view of a process is read off its own events. *)
Record view : Type := View {
  v_held : bool;        (* it is inside the critical region *)
  v_entry : FULL_STAT;  (* the region it found on entering it *)
  v_pend : nat;         (* recruits it released and that have not acknowledged *)
  v_rel : bool;         (* it has released a recruit *)
  v_woken : bool;       (* it was released and has not acknowledged yet *)
  v_read : option Z;    (* the team id it read after its release *)
  v_team : option Z;    (* the team id it reserved, as a captain *)
  v_arr : option Z;     (* the arrival count it took *)
  v_hist : list Status  (* the values it wrote to its status, newest first *)
}.

Definition empty_region : FULL_STAT := mkFULL_STAT (mkSTAT [] []) 0 0 0 0 0.

Definition view0 : view := View false empty_region 0 false false None None None [].

Definition other (k : Kind) : Kind :=
  match k with Player => Goalie | Goalie => Player end.

Definition push_status (x : option Status) (h : list Status) : list Status :=
  match x with
  | Some y => if decide (head h = Some y) then h else y :: h
  | None => h
  end.

Definition watch (k : Kind) (id : nat) (s : view) (e : event) : view :=
  match ev_op e with
  | OpDown mutex =>
      View true (ev_post e) (v_pend s) (v_rel s) (v_woken s) (v_read s)
           (v_team s) (v_arr s) (v_hist s)
  | OpDown playerRegistered =>
      View (v_held s) (v_entry s) (pred (v_pend s)) (v_rel s) (v_woken s)
           (v_read s) (v_team s) (v_arr s) (v_hist s)
  | OpDown playersWaitTeam | OpDown goaliesWaitTeam =>
      View (v_held s) (v_entry s) (v_pend s) (v_rel s) true (v_read s)
           (v_team s) (v_arr s) (v_hist s)
  | OpUp mutex =>
      View false (v_entry s) (v_pend s) (v_rel s) (v_woken s) (v_read s)
           (v_team s) (v_arr s) (v_hist s)
  | OpUp playerRegistered =>
      View (v_held s) (v_entry s) (v_pend s) (v_rel s) false (v_read s)
           (v_team s) (v_arr s) (v_hist s)
  | OpUp playersWaitTeam | OpUp goaliesWaitTeam =>
      View (v_held s) (v_entry s) (S (v_pend s)) true (v_woken s) (v_read s)
           (v_team s) (v_arr s) (v_hist s)
  | OpLoad =>
      View (v_held s) (v_entry s) (v_pend s) (v_rel s) (v_woken s)
           (if v_woken s then Some (teamId (ev_pre e)) else v_read s)
           (v_team s) (v_arr s) (v_hist s)
  | OpStore =>
      View (v_held s) (v_entry s) (v_pend s) (v_rel s) (v_woken s) (v_read s)
           (if decide (teamId (ev_post e) = teamId (ev_pre e)) then v_team s
            else Some (teamId (ev_pre e)))
           (if decide (arrived k (ev_post e) = arrived k (ev_pre e)) then v_arr s
            else Some (arrived k (ev_post e)))
           (push_status (own_stat k id (ev_post e)) (v_hist s))
  | _ => s
  end.

(** The view of a process, from its events. *)
Definition view_of (p : proc) : view :=
  foldr (λ e s, watch (p_kind p) (p_id p) s e) view0 (p_trace p).

(** The life cycles of an actor, as the values of its status entry. *)
Definition life_cycles : list (list Status) :=
  [ [ARRIVING; LATE];
    [ARRIVING; FORMING_TEAM; WAITING_START_1; PLAYING_1];
    [ARRIVING; FORMING_TEAM; WAITING_START_2; PLAYING_2];
    [ARRIVING; WAITING_TEAM; WAITING_START_1; PLAYING_1];
    [ARRIVING; WAITING_TEAM; WAITING_START_2; PLAYING_2] ].

(** [l], oldest first, is the beginning of a life cycle. *)
Definition in_life_cycle (l : list Status) : Prop :=
  Exists (λ c, l `prefix_of` c) life_cycles.

Section Protocol.
Variables NUMTEAMPLAYERS NUMTEAMGOALIES : Z.

(** The counters of a region that no process is in the middle of updating:
    with [teamId - 1] teams formed, the free actors of a kind are the
    arrivals in time that no team has taken. *)
Definition settled (m : FULL_STAT) : Prop :=
  0 <= playersArrived m ∧ 0 <= goaliesArrived m ∧
  0 <= playersFree m ∧ 0 <= goaliesFree m ∧
  1 <= teamId m <= 3 ∧
  (teamId m - 1) * NUMTEAMPLAYERS + playersFree m =
    Z.min (playersArrived m) (2 * NUMTEAMPLAYERS) ∧
  (teamId m - 1) * NUMTEAMGOALIES + goaliesFree m =
    Z.min (goaliesArrived m) (2 * NUMTEAMGOALIES).

Definition forming (k : Kind) (m : FULL_STAT) : Prop :=
  role_of NUMTEAMPLAYERS NUMTEAMGOALIES k (counted k m) = IsCaptain.

(** What a critical region has done to the counters when it is left. *)
Definition leaves_ok (k : Kind) (s : view) (m : FULL_STAT) : Prop :=
  let e := v_entry s in
  (v_rel s = true → v_team s ≠ None) ∧
  ((playersArrived m = playersArrived e ∧ goaliesArrived m = goaliesArrived e ∧
    playersFree m = playersFree e ∧ goaliesFree m = goaliesFree e ∧
    teamId m = teamId e) ∨
   (arrived k m = arrived k e + 1 ∧
    arrived (other k) m = arrived (other k) e ∧
    match role_of NUMTEAMPLAYERS NUMTEAMGOALIES k (counted k e) with
    | IsLate =>
        playersFree m = playersFree e ∧ goaliesFree m = goaliesFree e ∧
        teamId m = teamId e
    | IsRecruit =>
        free k m = free k e + 1 ∧ free (other k) m = free (other k) e ∧
        teamId m = teamId e
    | IsCaptain =>
        playersFree m = playersFree (counted k e) - NUMTEAMPLAYERS ∧
        goaliesFree m = goaliesFree (counted k e) - NUMTEAMGOALIES ∧
        teamId m = teamId e + 1
    end)).

(** What one assignment may do. *)
Definition store_ok (k : Kind) (id : nat) (s : view) (m m' : FULL_STAT) : Prop :=
  (∀ k' j, k' ≠ k ∨ j ≠ id → own_stat k' j m' = own_stat k' j m) ∧
  (is_Some (own_stat k id m) → is_Some (own_stat k id m')) ∧
  (teamId m' = teamId m ∨
   (teamId m' = teamId m + 1 ∧ v_pend s = 0%nat ∧ v_team s = None ∧
    forming k (v_entry s) ∧ v_read s = None ∧
    v_hist s = [FORMING_TEAM; ARRIVING])) ∧
  (arrived k m' = arrived k m ∨
   (arrived k m' = arrived k m + 1 ∧ v_arr s = None)) ∧
  arrived (other k) m' = arrived (other k) m ∧
  in_life_cycle (reverse (push_status (own_stat k id m') (v_hist s))).

(** The protocol of the semaphores and of the shared region. *)
Definition protocol (k : Kind) (id : nat) (_ : bool) (s : view) (e : event) : Prop :=
  match ev_op e with
  | OpDown mutex => v_held s = false ∧ v_woken s = false
  | OpDown playerRegistered => v_held s = true ∧ (0 < v_pend s)%nat
  | OpDown playersWaitTeam | OpDown goaliesWaitTeam =>
      v_held s = false ∧ v_woken s = false ∧ v_read s = None ∧
      v_team s = None ∧ v_hist s = [WAITING_TEAM; ARRIVING]
  | OpUp mutex =>
      v_held s = true ∧ v_pend s = 0%nat ∧ leaves_ok k s (ev_pre e)
  | OpUp playerRegistered => v_woken s = true ∧ v_read s ≠ None
  | OpUp playersWaitTeam | OpUp goaliesWaitTeam =>
      v_held s = true ∧ v_team s = None ∧ forming k (v_entry s) ∧
      v_hist s = [FORMING_TEAM; ARRIVING]
  | OpStore => v_held s = true ∧ store_ok k id s (ev_pre e) (ev_post e)
  | _ => True
  end.
End Protocol.

Global Instance in_life_cycle_dec l : Decision (in_life_cycle l).
Proof. unfold in_life_cycle. apply _. Defined.

Lemma watch_held k id s e :
  v_held (watch k id s e) = held_after (v_held s) (ev_op e).
Proof. destruct e as [[[]|[]| | | |] m m']; reflexivity. Qed.

Arguments watch k id s !e /.
Arguments protocol NUMTEAMPLAYERS NUMTEAMGOALIES k id h s !e /.

Section LocalProtocol.
Variables NUMTEAMPLAYERS NUMTEAMGOALIES : Z.

Definition obeys_protocol (k : Kind) (id : nat) {A} (c : prog A) (m : FULL_STAT)
    (s : view) (Q : A → FULL_STAT → view → Prop) : Prop :=
  obeys k id (watch k id) (protocol NUMTEAMPLAYERS NUMTEAMGOALIES k id) c
    (v_held s) m s (λ a h m' s', h = false ∧ v_held s' = false ∧ Q a m' s').

(** The view of an actor between two operations. *)
Definition between (e : FULL_STAT) (rel : bool) (rd tm ar : option Z)
    (h : list Status) : view :=
  View false e 0 rel false rd tm ar h.

Ltac life_cycle := by (apply (bool_decide_unpack _); vm_compute).

Ltac view_norm :=
  simpl;
  repeat first [ rewrite decide_True by (simpl; first [done | lia])
               | rewrite decide_False by (simpl; lia) ];
  repeat match goal with
  | H : playerStat (st ?m) !! ?id = Some _ |- context [playerStat (st ?m) !! ?id] => rewrite H
  | H : goalieStat (st ?m) !! ?id = Some _ |- context [goalieStat (st ?m) !! ?id] => rewrite H
  end;
  simpl.

Ltac proto_intro :=
  lazymatch goal with
  | |- ∀ m1 m2 : FULL_STAT, rely _ _ true _ m1 → _ =>
      let m1 := fresh "m" in let m2 := fresh "m" in
      let Hr := fresh "Hr" in let Hw := fresh "Hw" in
      intros m1 m2 Hr Hw; apply rely_held in Hr; subst m1;
      try (injection Hw as <-)
  | |- ∀ m1 : FULL_STAT, rely _ _ true _ m1 → _ =>
      let m1 := fresh "m" in let Hr := fresh "Hr" in
      intros m1 Hr; apply rely_held in Hr; subst m1
  | |- ∀ m1 : FULL_STAT, rely _ _ false _ m1 → _ =>
      let m1 := fresh "m" in let Hr := fresh "Hr" in
      intros m1 Hr; apply rely_own in Hr; simpl in Hr;
      try match type of Hr with
          | _ = ?x => match goal with H : x = Some _ |- _ => rewrite H in Hr end
          end
  end.

Lemma store_ok_write k id s m m' x :
  write_stat k id x m = Some m' →
  in_life_cycle (reverse (push_status (Some x) (v_hist s))) →
  store_ok NUMTEAMPLAYERS NUMTEAMGOALIES k id s m m'.
Proof.
  intros Hw Hl.
  destruct (write_stat_counters _ _ _ _ _ Hw) as (Hpa & Hpf & Hga & Hgf & Ht).
  rewrite <- (write_stat_own _ _ _ _ _ Hw) in Hl.
  repeat split; try done.
  - intros. by eapply write_stat_frame.
  - intros _. rewrite (write_stat_own _ _ _ _ _ Hw). by eexists.
  - by left.
  - left. by destruct k.
  - by destruct k.
Qed.

Lemma watch_write k id s m m' x :
  write_stat k id x m = Some m' →
  watch k id s (Ev OpStore m m') =
  View (v_held s) (v_entry s) (v_pend s) (v_rel s) (v_woken s) (v_read s)
       (v_team s) (v_arr s) (push_status (Some x) (v_hist s)).
Proof.
  intros Hw.
  destruct (write_stat_counters _ _ _ _ _ Hw) as (Hpa & Hpf & Hga & Hgf & Ht).
  unfold watch. simpl. rewrite (write_stat_own _ _ _ _ _ Hw).
  rewrite decide_True by done.
  rewrite decide_True by (by destruct k). done.
Qed.

(** One status write inside the critical region. *)
Ltac proto_write k :=
  let mm := fresh "m" in let m' := fresh "m" in
  let Hr := fresh "Hr" in let Hw := fresh "Hw" in
  intros mm m' Hr Hw; apply rely_held in Hr; subst mm;
  let Hpa := fresh "Hpa" in let Hpf := fresh "Hpf" in
  let Hga := fresh "Hga" in let Hgf := fresh "Hgf" in let Ht := fresh "Ht" in
  destruct (write_stat_counters k _ _ _ _ Hw) as (Hpa & Hpf & Hga & Hgf & Ht);
  pose proof (write_stat_own k _ _ _ _ Hw);
  simpl in *;
  split; [split; [done|apply (store_ok_write k _ _ _ _ _ Hw); life_cycle]|];
  view_norm.

Lemma arrive_protocol k id m e0 :
  obeys_protocol k id (arrive k id) m (between e0 false None None None [])
    (λ _ m' s, own_stat k id m' = Some ARRIVING ∧
               ∃ e, s = between e false None None None [ARRIVING]).
Proof.
  unfold obeys_protocol.
  destruct k; simpl; proto_intro; (split; [done|]).
  - proto_write Player. proto_intro. split; [done|]. proto_intro.
    split.
    { simpl. repeat split; try done. left. done. }
    simpl. proto_intro. split; [done|]. simpl. repeat split; eauto.
  - proto_write Goalie. proto_intro. split; [done|]. proto_intro.
    split.
    { simpl. repeat split; try done. left. done. }
    simpl. proto_intro. split; [done|]. simpl. repeat split; eauto. 
Qed.

Lemma waitReferee_protocol k id team x m e0 rel rd tm ar :
  team = 1 ∨ team = 2 → x = FORMING_TEAM ∨ x = WAITING_TEAM →
  (rel = true → tm ≠ None) →
  own_stat k id m = Some x →
  obeys_protocol k id (waitReferee k id team) m (between e0 rel rd tm ar [x; ARRIVING])
    (λ _ m' s, own_stat k id m' = Some (WAITING_START team) ∧
               ∃ e, s = between e rel rd tm ar [WAITING_START team; x; ARRIVING]).
Proof.
  intros Ht Hx Hrel Hown. unfold obeys_protocol.
  destruct k, Ht as [-> | ->], Hx as [-> | ->]; simpl in *; proto_intro;
    (split; [done|]);
    [proto_write Player|proto_write Player|proto_write Player|proto_write Player
    |proto_write Goalie|proto_write Goalie|proto_write Goalie|proto_write Goalie];
    proto_intro; (split; [done|]); proto_intro;
    (split; [simpl; repeat split; try done; left; done|]);
    simpl; proto_intro; (split; [done|]); simpl; repeat split; eauto.
Qed.

Lemma playUntilEnd_protocol k id team x m e0 rel rd tm ar :
  team = 1 ∨ team = 2 → x = FORMING_TEAM ∨ x = WAITING_TEAM →
  (rel = true → tm ≠ None) →
  own_stat k id m = Some (WAITING_START team) →
  obeys_protocol k id (playUntilEnd k id team) m
    (between e0 rel rd tm ar [WAITING_START team; x; ARRIVING])
    (λ _ m' s, own_stat k id m' = Some (PLAYING team) ∧
               ∃ e, s = between e rel rd tm ar
                          [PLAYING team; WAITING_START team; x; ARRIVING]).
Proof.
  intros Ht Hx Hrel Hown. unfold obeys_protocol.
  destruct k, Ht as [-> | ->], Hx as [-> | ->]; simpl in *; proto_intro;
    (split; [done|]).
  1-4: proto_write Player; proto_intro; (split; [done|]); proto_intro;
    (split; [done|]); proto_intro;
    (split; [simpl; repeat split; try done; left; done|]);
    simpl; proto_intro; (split; [done|]); simpl; repeat split; eauto.
  all: proto_intro; (split; [done|]); proto_write Goalie; proto_intro;
    (split; [done|]); proto_intro;
    (split; [simpl; repeat split; try done; left; done|]);
    simpl; proto_intro; (split; [done|]); simpl; repeat split; eauto.
Qed.

(** The view of an actor when [constituteTeam] returns [v]. *)
Definition constituted (k : Kind) (v : Z) (s : view) : Prop :=
  ∃ e n,
    (s = between e false None None (Some n) [LATE; ARRIVING] ∧
     2 * perTeam NUMTEAMPLAYERS NUMTEAMGOALIES k < n ∧ v = 0) ∨
    (∃ rel, s = between e rel None (Some v) (Some n) [FORMING_TEAM; ARRIVING] ∧
     n <= 2 * perTeam NUMTEAMPLAYERS NUMTEAMGOALIES k) ∨
    (s = between e false (Some v) None (Some n) [WAITING_TEAM; ARRIVING] ∧
     n <= 2 * perTeam NUMTEAMPLAYERS NUMTEAMGOALIES k).

Ltac forming_now :=
  unfold forming, role_of; simpl;
  repeat match goal with H : _ = true |- _ => rewrite H end; done.

Ltac store_clauses :=
  unfold store_ok; simpl;
  repeat match goal with
  | H : playerStat (st ?m) !! ?id = Some _ |- context [playerStat (st ?m) !! ?id] => rewrite H
  | H : goalieStat (st ?m) !! ?id = Some _ |- context [goalieStat (st ?m) !! ?id] => rewrite H
  end;
  (split; [|split; [|split; [|split; [|split]]]]);
  [ by intros [] ? ?
  | done
  | first [ by left | right; repeat split; first [done | lia | forming_now] ]
  | first [ by left | right; repeat split; first [done | lia] ]
  | done
  | life_cycle ].

(** One assignment to a counter inside the critical region. *)
Ltac proto_assign :=
  let mm := fresh "m" in let m' := fresh "m" in
  let Hr := fresh "Hr" in let Hw := fresh "Hw" in
  intros mm m' Hr Hw; apply rely_held in Hr; subst mm; injection Hw as <-;
  split; [split; [done|store_clauses]|]; view_norm.

Ltac own_now :=
  repeat match goal with
  | H : playerStat (st ?m) !! ?id = Some _ |- context [playerStat (st ?m) !! ?id] => rewrite H
  | H : goalieStat (st ?m) !! ?id = Some _ |- context [goalieStat (st ?m) !! ?id] => rewrite H
  end;
  repeat (case_bool_decide; simplify_eq; []); simpl.

Ltac leaves_now :=
  unfold leaves_ok, role_of; simpl;
  repeat match goal with H : _ = true |- _ => rewrite H | H : _ = false |- _ => rewrite H end;
  simpl; split; [done|];
  first [ left; repeat split; lia | right; repeat split; lia ].

Ltac constituted_now :=
  unfold constituted, perTeam;
  repeat match goal with
  | H : (_ <=? _) = true |- _ => apply Z.leb_le in H
  | H : (_ <=? _) = false |- _ => apply Z.leb_gt in H
  end;
  eexists _, _;
  first [ left; split; [reflexivity|]; split; [lia|reflexivity]
        | right; left; eexists; split; [unfold between; f_equal; f_equal; congruence|lia]
        | right; right; split; [reflexivity|lia] ].

Lemma playerConstituteTeam_protocol id m e0 :
  own_stat Player id m = Some ARRIVING →
  obeys_protocol Player id
    (Player.playerConstituteTeam NUMTEAMPLAYERS NUMTEAMGOALIES id) m
    (between e0 false None None None [ARRIVING])
    (λ v m' s, own_stat Player id m' = head (v_hist s) ∧ constituted Player v s).
Proof.
  intros Hown. unfold obeys_protocol, Player.playerConstituteTeam.
  simpl in *. proto_intro. split; [done|].
  proto_assign. proto_assign.
  proto_intro. split; [done|]. simpl.
  destruct (playersArrived m0 + 1 <=? 2 * NUMTEAMPLAYERS) eqn:Ha; simpl.
  - proto_intro. split; [done|]. simpl.
    destruct ((NUMTEAMPLAYERS <=? playersFree m0 + 1) && (NUMTEAMGOALIES <=? goaliesFree m0))
      eqn:Hb; simpl.
    + proto_write Player. do 2 apply obeys_mbind.
      match goal with |- obeys _ _ _ _ _ _ ?mm ?s _ =>
        apply (obeys_for_loop Player id _ _
                 (λ i h m' s', h = true ∧ m' = mm ∧
                    s' = View true m0 0 (match i with O => false | _ => true end)
                           false None None (Some (playersArrived m0 + 1))
                           [FORMING_TEAM; ARRIVING]))
      end.
      * done.
      * intros i h m' s' _ (-> & -> & ->). simpl.
        proto_intro. split; [repeat split; try done; forming_now|].
        proto_intro. split; [split; [done|simpl; lia]|]. done.
      * intros h m' s' (-> & -> & ->). simpl.
        proto_assign. proto_intro.
        split; [repeat split; try done; forming_now|].
        proto_intro. split; [split; [done|simpl; lia]|].
        proto_assign. proto_intro. split; [done|]. simpl.
        proto_assign. proto_intro. split; [done|]. proto_intro.
        split; [split; [done|split; [done|leaves_now]]|].
        proto_intro. split; [done|]. simpl. own_now.
        proto_intro. split; [done|]. simpl. own_now.
        proto_intro. split; [done|]. simpl.
        repeat split; try done. constituted_now.
    + proto_write Player. proto_intro. split; [done|]. proto_intro.
      split; [split; [done|split; [done|leaves_now]]|].
      proto_intro. split; [done|]. simpl. own_now.
      proto_intro. split; [split; [done|done]|]. simpl.
      proto_intro. split; [done|]. simpl.
      proto_intro. split; [split; [done|done]|]. simpl.
      repeat split; try done. constituted_now.
  - proto_write Player. proto_assign. proto_intro. split; [done|]. proto_intro.
    split; [split; [done|split; [done|leaves_now]]|].
    proto_intro. split; [done|]. simpl. own_now.
    proto_intro. split; [done|]. simpl. own_now.
    repeat split; try done. constituted_now.
Qed.

Lemma goalieConstituteTeam_protocol id m e0 :
  own_stat Goalie id m = Some ARRIVING →
  obeys_protocol Goalie id
    (Goalie.goalieConstituteTeam NUMTEAMPLAYERS NUMTEAMGOALIES id) m
    (between e0 false None None None [ARRIVING])
    (λ v m' s, own_stat Goalie id m' = head (v_hist s) ∧ constituted Goalie v s).
Proof.
  intros Hown. unfold obeys_protocol, Goalie.goalieConstituteTeam.
  simpl in *. proto_intro. split; [done|].
  proto_assign. proto_assign.
  proto_intro. split; [done|]. simpl.
  destruct (goaliesArrived m0 + 1 <=? 2 * NUMTEAMGOALIES) eqn:Ha; simpl.
  - proto_intro. split; [done|]. simpl.
    destruct ((NUMTEAMPLAYERS <=? playersFree m0) && (NUMTEAMGOALIES <=? goaliesFree m0 + 1))
      eqn:Hb; simpl.
    + proto_write Goalie. proto_assign. do 2 apply obeys_mbind.
      match goal with |- obeys _ _ _ _ _ _ ?mm ?s _ =>
        apply (obeys_for_loop Goalie id _ _
                 (λ i h m' s', h = true ∧ m' = mm ∧
                    s' = View true m0 i (match i with O => false | _ => true end)
                           false None None (Some (goaliesArrived m0 + 1))
                           [FORMING_TEAM; ARRIVING]))
      end.
      * done.
      * intros i h m' s' _ (-> & -> & ->). simpl.
        proto_intro. split; [repeat split; try done; forming_now|]. done.
      * intros h m' s' (-> & -> & ->). simpl. apply obeys_mbind.
        match goal with |- obeys _ _ _ _ _ _ ?mm ?s _ =>
          apply (obeys_for_loop Goalie id _ _
                   (λ i h m' s', h = true ∧ m' = mm ∧
                      s' = View true m0 (Z.to_nat NUMTEAMPLAYERS - i)
                             (match Z.to_nat NUMTEAMPLAYERS with O => false | _ => true end)
                             false None None (Some (goaliesArrived m0 + 1))
                             [FORMING_TEAM; ARRIVING]))
        end.
        -- repeat split. by rewrite Nat.sub_0_r.
        -- intros i h m' s' Hi (-> & -> & ->). simpl.
           proto_intro. split; [split; [done|simpl; lia]|].
           repeat split. simpl. do 8 f_equal. lia.
        -- intros h m' s' (-> & -> & ->). rewrite Nat.sub_diag. simpl.
           proto_assign. proto_intro. split; [done|]. simpl.
           proto_assign. proto_intro. split; [done|]. proto_intro.
           split; [split; [done|split; [done|leaves_now]]|].
           proto_intro. split; [done|]. simpl. own_now.
           proto_intro. split; [done|]. simpl.
           repeat split; try done. constituted_now.
    + proto_write Goalie. proto_intro. split; [done|]. proto_intro.
      split; [split; [done|split; [done|leaves_now]]|].
      proto_intro. split; [done|]. simpl. own_now.
      proto_intro. split; [done|]. simpl. own_now.
      proto_intro. split; [split; [done|done]|]. simpl.
      proto_intro. split; [done|]. simpl.
      proto_intro. split; [split; [done|done]|]. simpl.
      repeat split; try done. constituted_now.
  - proto_write Goalie. proto_assign. proto_intro. split; [done|]. proto_intro.
    split; [split; [done|split; [done|leaves_now]]|].
    proto_intro. split; [done|]. simpl. own_now.
    proto_intro. split; [done|]. simpl. own_now.
    repeat split; try done. constituted_now.
Qed.

Lemma constituteTeam_protocol k id m e0 :
  own_stat k id m = Some ARRIVING →
  obeys_protocol k id (constituteTeam NUMTEAMPLAYERS NUMTEAMGOALIES k id) m
    (between e0 false None None None [ARRIVING])
    (λ v m' s, own_stat k id m' = head (v_hist s) ∧ constituted k v s).
Proof.
  destruct k; [apply playerConstituteTeam_protocol|apply goalieConstituteTeam_protocol].
Qed.
End LocalProtocol.

(** ** The invariant of the system *)
Definition b2n (b : bool) : nat := if b then 1%nat else 0%nat.

Definition holds (p : proc) : nat := b2n (v_held (view_of p)).
Definition wakes (p : proc) : nat := b2n (v_woken (view_of p)).
Definition pends (p : proc) : nat := v_pend (view_of p).

Definition total (f : proc → nat) (σ : system) : nat := sum_list_with f (procs σ).

(** The team a process got from [constituteTeam], once it has returned. *)
Definition team_of (ph : phase) : option Z :=
  match ph with
  | InWaitReferee t _ | InPlay t _ | Done t => Some t
  | _ => None
  end.

Section Invariant.
Variables NUMTEAMPLAYERS NUMTEAMGOALIES : Z.

(** The arrivals of kind [k] in time for one of the two teams. *)
Definition in_time (k : Kind) (p : proc) : nat :=
  if decide (p_kind p = k) then
    match v_arr (view_of p) with
    | Some n =>
        if decide (n <= 2 * perTeam NUMTEAMPLAYERS NUMTEAMGOALIES k) then 1%nat else 0%nat
    | None => 0%nat
    end
  else 0%nat.

(** What the events of one process make true of its view. *)
Definition view_ok (k : Kind) (s : view) : Prop :=
  (v_woken s = true → v_held s = false) ∧
  ((0 < v_pend s)%nat →
     v_held s = true ∧ v_team s = None ∧
     forming NUMTEAMPLAYERS NUMTEAMGOALIES k (v_entry s)) ∧
  (v_rel s = true → v_held s = false → v_team s ≠ None) ∧
  (v_rel s = true → FORMING_TEAM ∈ v_hist s) ∧
  (v_team s ≠ None → FORMING_TEAM ∈ v_hist s) ∧
  (v_woken s = true ∨ v_read s ≠ None → WAITING_TEAM ∈ v_hist s) ∧
  in_life_cycle (reverse (v_hist s)).

(** What a process last saw of the shared region. *)
Definition sees (σ : system) (p : proc) (m : FULL_STAT) : Prop :=
  (v_held (view_of p) = true → shared σ = m) ∧
  own_stat (p_kind p) (p_id p) (shared σ) = own_stat (p_kind p) (p_id p) m.

(** What [constituteTeam] left in the view of an actor that got team [t]. *)
Definition joined (k : Kind) (t : Z) (rel : bool) (rd tm ar : option Z) : Prop :=
  (rel = true → tm ≠ None) ∧
  (∃ n, ar = Some n ∧ n <= 2 * perTeam NUMTEAMPLAYERS NUMTEAMGOALIES k) ∧
  ((tm = Some t ∧ rd = None) ∨ (rd = Some t ∧ tm = None)) ∧
  (t = 1 ∨ t = 2).

Definition has_team (k : Kind) (s : view) (t : Z) : Prop :=
  v_woken s = false ∧ (v_team s = Some t ∨ v_read s = Some t) ∧
  (t = 1 ∨ t = 2) ∧
  ∃ n, v_arr s = Some n ∧ n <= 2 * perTeam NUMTEAMPLAYERS NUMTEAMGOALIES k.

(** The rest of the running operation follows the protocol, and the
    operations before it have left the view they should. *)
Definition phase_ok (p : proc) (m : FULL_STAT) : Prop :=
  let k := p_kind p in
  let id := p_id p in
  let s := view_of p in
  match p_phase p with
  | InArrive c =>
      obeys_protocol NUMTEAMPLAYERS NUMTEAMGOALIES k id c m s
        (λ _ m' s', own_stat k id m' = Some ARRIVING ∧
                    ∃ e, s' = between e false None None None [ARRIVING])
  | InConstitute c =>
      obeys_protocol NUMTEAMPLAYERS NUMTEAMGOALIES k id c m s
        (λ v m' s', own_stat k id m' = head (v_hist s') ∧
                    constituted NUMTEAMPLAYERS NUMTEAMGOALIES k v s')
  | InWaitReferee t c =>
      has_team k s t ∧
      ∃ x rel rd tm ar,
        (x = FORMING_TEAM ∨ x = WAITING_TEAM) ∧ joined k t rel rd tm ar ∧
        obeys_protocol NUMTEAMPLAYERS NUMTEAMGOALIES k id c m s
          (λ _ m' s', own_stat k id m' = Some (WAITING_START t) ∧
                      ∃ e, s' = between e rel rd tm ar
                                  [WAITING_START t; x; ARRIVING])
  | InPlay t c =>
      has_team k s t ∧
      ∃ x rel rd tm ar,
        (x = FORMING_TEAM ∨ x = WAITING_TEAM) ∧ joined k t rel rd tm ar ∧
        obeys_protocol NUMTEAMPLAYERS NUMTEAMGOALIES k id c m s
          (λ _ m' s', own_stat k id m' = Some (PLAYING t) ∧
                      ∃ e, s' = between e rel rd tm ar
                                  [PLAYING t; WAITING_START t; x; ARRIVING])
  | Done t =>
      (t = 0 ∧ ∃ e n, s = between e false None None (Some n) [LATE; ARRIVING] ∧
                      2 * perTeam NUMTEAMPLAYERS NUMTEAMGOALIES k < n) ∨
      (has_team k s t ∧
       ∃ x rel rd tm ar e,
         (x = FORMING_TEAM ∨ x = WAITING_TEAM) ∧ joined k t rel rd tm ar ∧
         s = between e rel rd tm ar [PLAYING t; WAITING_START t; x; ARRIVING])
  end.

(** What a recruit, released and not acknowledged yet ([woken]) or having
    read the team id [rd], finds in the view [c] of the process that
    released it: a captain, inside its critical region until the recruit has
    acknowledged, and the team id read is the one that captain reserves. *)
Definition released_by (m : FULL_STAT) (c : view) (woken : bool) (rd : option Z)
  : Prop :=
  v_rel c = true ∧
  (woken = true → v_held c = true ∧ v_team c = None) ∧
  (∀ v, rd = Some v →
     (v_team c = None → v_held c = true ∧ teamId m = v) ∧
     (∀ t, v_team c = Some t → t = v)).

Definition by_ok (σ : system) (r : nat) (pr : proc) : Prop :=
  (p_by pr ≠ None → v_woken (view_of pr) = true ∨ v_read (view_of pr) ≠ None) ∧
  (v_woken (view_of pr) = true ∨ v_read (view_of pr) ≠ None →
   ∃ ci pc,
     p_by pr = Some ci ∧ ci ≠ r ∧ procs σ !! ci = Some pc ∧
     released_by (shared σ) (view_of pc) (v_woken (view_of pr)) (v_read (view_of pr))).

Definition proc_ok (σ : system) (i : nat) (p : proc) : Prop :=
  let s := view_of p in
  view_ok (p_kind p) s ∧
  (∃ m, sees σ p m ∧ phase_ok p m) ∧
  (v_held s = true →
     settled NUMTEAMPLAYERS NUMTEAMGOALIES (v_entry s) ∧
     (v_team s = None → teamId (shared σ) = teamId (v_entry s))) ∧
  (∀ t, v_team s = Some t → 1 <= t <= 2) ∧
  (∀ t, v_read s = Some t → 1 <= t <= 2) ∧
  (∀ x, head (v_hist s) = Some x → own_stat (p_kind p) (p_id p) (shared σ) = Some x) ∧
  by_ok σ i p.

Record invariant (σ : system) : Prop := Invariant {
  inv_uniq : ∀ i j p q,
    procs σ !! i = Some p → procs σ !! j = Some q →
    p_kind p = p_kind q → p_id p = p_id q → i = j;
  inv_mutex :
    (sems σ mutex + total holds σ + b2n (referee_in σ) = 1)%nat;
  inv_hand :
    (sems σ playersWaitTeam + sems σ goaliesWaitTeam + sems σ playerRegistered
       + total wakes σ = total pends σ)%nat;
  inv_settled :
    total holds σ = 0%nat → settled NUMTEAMPLAYERS NUMTEAMGOALIES (shared σ);
  inv_in_time : ∀ k,
    Z.of_nat (total (in_time k) σ) =
    Z.min (arrived k (shared σ)) (2 * perTeam NUMTEAMPLAYERS NUMTEAMGOALIES k);
  inv_last : ∀ s,
    is_wait_team s = true → (0 < sems σ s)%nat →
    ∃ ci pc, last_up σ s = Some ci ∧ procs σ !! ci = Some pc ∧
             v_held (view_of pc) = true ∧ v_rel (view_of pc) = true;
  inv_proc : ∀ i p, procs σ !! i = Some p → proc_ok σ i p
}.

(** Modelled from the spec: the state in which the launcher, which is not
    among the sources at hand, starts the processes. Nobody has arrived, the
    first team to form gets id 1, the lock is free and every other semaphore
    is at zero; every process is about to run [arrive], no two of a kind
    with the same id. *)
Definition initial (σ : system) : Prop :=
  playersArrived (shared σ) = 0 ∧ goaliesArrived (shared σ) = 0 ∧
  playersFree (shared σ) = 0 ∧ goaliesFree (shared σ) = 0 ∧
  teamId (shared σ) = 1 ∧
  (∀ s, sems σ s = if decide (s = mutex) then 1%nat else 0%nat) ∧
  referee_in σ = false ∧
  (∀ i p, procs σ !! i = Some p →
     p_phase p = InArrive (arrive (p_kind p) (p_id p)) ∧ p_trace p = [] ∧
     p_by p = None) ∧
  (∀ i j p q,
     procs σ !! i = Some p → procs σ !! j = Some q →
     p_kind p = p_kind q → p_id p = p_id q → i = j).

Inductive reachable : system → Prop :=
| reach_init σ : initial σ → reachable σ
| reach_step σ a σ' :
    reachable σ → fire NUMTEAMPLAYERS NUMTEAMGOALIES σ a = Some σ' →
    reachable σ'.
End Invariant.

(** ** Sums over the processes *)
Lemma sum_list_with_insert {A} (f : A → nat) (l : list A) i x y :
  l !! i = Some x →
  (sum_list_with f (<[i:=y]> l) + f x = sum_list_with f l + f y)%nat.
Proof.
  revert i. induction l as [|a l IH]; intros [|i] Hi; simplify_eq/=; [lia|].
  specialize (IH _ Hi). lia.
Qed.

Lemma sum_list_with_lookup {A} (f : A → nat) (l : list A) i x :
  l !! i = Some x → (f x <= sum_list_with f l)%nat.
Proof.
  revert i. induction l as [|a l IH]; intros [|i] Hi; simplify_eq/=; [lia|].
  specialize (IH _ Hi). lia.
Qed.

Lemma sum_list_with_lookup2 {A} (f : A → nat) (l : list A) i j x y :
  i ≠ j → l !! i = Some x → l !! j = Some y →
  (f x + f y <= sum_list_with f l)%nat.
Proof.
  revert i j. induction l as [|a l IH]; intros [|i] [|j] Hij Hi Hj; simplify_eq/=.
  - pose proof (sum_list_with_lookup f _ _ _ Hj). lia.
  - pose proof (sum_list_with_lookup f _ _ _ Hi). lia.
  - assert (i ≠ j) by congruence. specialize (IH _ _ ltac:(done) Hi Hj). lia.
Qed.

Lemma sum_list_with_pos {A} (f : A → nat) (l : list A) :
  (0 < sum_list_with f l)%nat → ∃ i x, l !! i = Some x ∧ (0 < f x)%nat.
Proof.
  induction l as [|a l IH]; simpl; [lia|]. intros Hpos.
  destruct (decide (0 < f a)%nat) as [Ha|Ha].
  - by exists O, a.
  - destruct IH as (i & x & Hi & Hx); [lia|]. by exists (S i), x.
Qed.

Lemma sum_list_with_all_zero {A} (f : A → nat) (l : list A) :
  (∀ i x, l !! i = Some x → f x = 0%nat) → sum_list_with f l = 0%nat.
Proof.
  induction l as [|a l IH]; intros Hall; simpl; [done|].
  rewrite (Hall O a eq_refl), IH; [done|]. intros i x Hi. by apply (Hall (S i)).
Qed.


(** ** Steps of programs and of views *)
Lemma step_prog_pre {A} (c : prog A) m e c' :
  step_prog c m = Some (e, c') → ev_pre e = m.
Proof.
  destruct c; simpl; intros H; simplify_eq/=; try done.
  destruct (f m); by simplify_eq/=.
Qed.

Lemma step_prog_post {A} (c : prog A) m e c' :
  step_prog c m = Some (e, c') → ev_op e ≠ OpStore → ev_post e = m.
Proof.
  destruct c; simpl; intros H; simplify_eq/=; try done.
  destruct (f m); by simplify_eq/=.
Qed.

Lemma view_of_cons k id ph e tr by' :
  view_of (Proc k id ph (e :: tr) by') =
  watch k id (view_of (Proc k id ph tr by')) e.
Proof. done. Qed.

Lemma view_of_phase k id ph ph' tr by' by'' :
  view_of (Proc k id ph tr by') = view_of (Proc k id ph' tr by'').
Proof. done. Qed.

Lemma life_cycle_exclusive l :
  in_life_cycle (reverse l) → FORMING_TEAM ∈ l → WAITING_TEAM ∈ l → False.
Proof.
  unfold in_life_cycle, life_cycles. rewrite !Exists_cons, Exists_nil.
  intros Hl HF HW. apply elem_of_reverse in HF, HW.
  assert (Hin : ∀ c, reverse l `prefix_of` c →
            FORMING_TEAM ∈ c ∧ WAITING_TEAM ∈ c).
  { intros c [r ->]. split; apply elem_of_app; by left. }
  destruct Hl as [H|[H|[H|[H|[H|[]]]]]]; apply Hin in H as [H1 H2];
    repeat (apply elem_of_cons in H1 as [?|H1]; [done|]);
    repeat (apply elem_of_cons in H2 as [?|H2]; [done|]);
    by apply elem_of_nil in H1 || by apply elem_of_nil in H2.
Qed.

Lemma in_life_cycle_push x h :
  in_life_cycle (reverse (push_status x h)) → in_life_cycle (reverse h).
Proof.
  destruct x as [y|]; simpl; [|done]. case_decide; [done|].
  rewrite reverse_cons. unfold in_life_cycle. intros Hl.
  eapply Exists_impl; [exact Hl|]. intros c [r ->]. exists ([y] ++ r).
  by rewrite <- app_assoc.
Qed.

Lemma elem_of_push x y h : y ∈ h → y ∈ push_status x h.
Proof.
  destruct x as [z|]; simpl; [|done]. case_decide; [done|]. by right.
Qed.

(** ** The counters across a critical region *)
Section LocalSteps.
Variables NUMTEAMPLAYERS NUMTEAMGOALIES : Z.
Hypothesis players_nonneg : 0 <= NUMTEAMPLAYERS.
Hypothesis goalies_nonneg : 0 <= NUMTEAMGOALIES.

Ltac unfold_role :=
  unfold forming, role_of, counted, player_counted, goalie_counted in *;
  simpl in *.

(** A captain forms team 1 or team 2. *)
Lemma captain_id k m :
  settled NUMTEAMPLAYERS NUMTEAMGOALIES m →
  forming NUMTEAMPLAYERS NUMTEAMGOALIES k m →
  1 <= teamId m <= 2.
Proof.
  intros (Hpa & Hga & Hpf & Hgf & Hid & Hp & Hg) Hf. unfold_role.
  destruct k; simpl in *.
  - destruct (playersArrived m + 1 <=? 2 * NUMTEAMPLAYERS) eqn:Ha; [|done].
    apply Z.leb_le in Ha. nia.
  - destruct (goaliesArrived m + 1 <=? 2 * NUMTEAMGOALIES) eqn:Ha; [|done].
    apply Z.leb_le in Ha. nia.
Qed.

(** The counters are settled again when a critical region is left. *)
Lemma settled_leaves k s m :
  settled NUMTEAMPLAYERS NUMTEAMGOALIES (v_entry s) →
  leaves_ok NUMTEAMPLAYERS NUMTEAMGOALIES k s m →
  settled NUMTEAMPLAYERS NUMTEAMGOALIES m.
Proof.
  intros Hs [_ [Hsame|(Harr & Harr' & Hrole)]].
  { destruct Hs as (? & ? & ? & ? & ? & ? & ?), Hsame as (? & ? & ? & ? & ?).
    unfold settled. repeat split; lia. }
  pose proof (captain_id k (v_entry s) Hs) as Hid.
  destruct Hs as (Hpa & Hga & Hpf & Hgf & Ht & Hp & Hg).
  unfold settled. unfold_role.
  destruct k; simpl in *.
  - destruct (playersArrived (v_entry s) + 1 <=? 2 * NUMTEAMPLAYERS) eqn:Ha; simpl in *.
    + apply Z.leb_le in Ha.
      destruct (NUMTEAMPLAYERS <=? playersFree (v_entry s) + 1) eqn:Hf1; simpl in *;
        [destruct (NUMTEAMGOALIES <=? goaliesFree (v_entry s)) eqn:Hf2; simpl in *|].
      * apply Z.leb_le in Hf1, Hf2. specialize (Hid eq_refl).
        destruct Hrole as (? & ? & ?). repeat split; nia.
      * destruct Hrole as (? & ? & ?). repeat split; nia.
      * destruct Hrole as (? & ? & ?). repeat split; nia.
    + apply Z.leb_gt in Ha. destruct Hrole as (? & ? & ?). repeat split; nia.
  - destruct (goaliesArrived (v_entry s) + 1 <=? 2 * NUMTEAMGOALIES) eqn:Ha; simpl in *.
    + apply Z.leb_le in Ha.
      destruct (NUMTEAMPLAYERS <=? playersFree (v_entry s)) eqn:Hf1; simpl in *;
        [destruct (NUMTEAMGOALIES <=? goaliesFree (v_entry s) + 1) eqn:Hf2; simpl in *|].
      * apply Z.leb_le in Hf1, Hf2. specialize (Hid eq_refl).
        destruct Hrole as (? & ? & ?). repeat split; nia.
      * destruct Hrole as (? & ? & ?). repeat split; nia.
      * destruct Hrole as (? & ? & ?). repeat split; nia.
    + apply Z.leb_gt in Ha. destruct Hrole as (? & ? & ?). repeat split; nia.
Qed.

Ltac view_clauses := refine (conj _ (conj _ (conj _ (conj _ (conj _ (conj _ _)))))).

(** One more event keeps the view of a process well formed. *)
Lemma view_ok_step k id h s e :
  view_ok NUMTEAMPLAYERS NUMTEAMGOALIES k s →
  protocol NUMTEAMPLAYERS NUMTEAMGOALIES k id h s e →
  view_ok NUMTEAMPLAYERS NUMTEAMGOALIES k (watch k id s e).
Proof.
  intros (Hw & Hp & Hr & Hrf & Htf & Hww & Hl) Hproto.
  destruct e as [[[]|[]| | | |] m m']; simpl in *; unfold view_ok; simpl;
    try (view_clauses; assumption).
  - (* semDown (mutex) *)
    destruct Hproto as [Hh Hwk]. view_clauses; try done; try (intros; congruence).
    intros Hpos; destruct (Hp Hpos) as [? _]; congruence.
  - (* semDown (playersWaitTeam) *)
    destruct Hproto as (Hh & Hwk & Hrd & Htm & Hhist).
    view_clauses; try done; try (intros; congruence).
    intros _. rewrite Hhist. by left.
  - (* semDown (goaliesWaitTeam) *)
    destruct Hproto as (Hh & Hwk & Hrd & Htm & Hhist).
    view_clauses; try done; try (intros; congruence).
    intros _. rewrite Hhist. by left.
  - (* semDown (playerRegistered) *)
    destruct Hproto as [Hh Hpos]. view_clauses; try done; try (intros; congruence).
    intros; apply Hp; lia.
  - (* semUp (mutex) *)
    destruct Hproto as (Hh & Hpend & Hrel & _).
    view_clauses; try done; try (intros; congruence).
    + intros; lia.
    + intros Hr' _. by apply Hrel.
  - (* semUp (playersWaitTeam) *)
    destruct Hproto as (Hh & Htm & Hform & Hhist).
    view_clauses; try done; try (intros; congruence).
    intros _. rewrite Hhist. by left.
  - (* semUp (goaliesWaitTeam) *)
    destruct Hproto as (Hh & Htm & Hform & Hhist).
    view_clauses; try done; try (intros; congruence).
    intros _. rewrite Hhist. by left.
  - (* semUp (playerRegistered) *)
    destruct Hproto as [Hwk Hrd]. view_clauses; try done; try (intros; congruence).
    intros _. apply Hww. by left.
  - (* a read *)
    view_clauses; try done; try (intros; congruence).
    intros [Hwk|Hrd]; [apply Hww; by left|].
    destruct (v_woken s); apply Hww; [by left|by right].
  - (* an assignment *)
    destruct Hproto as (Hh & _ & _ & Hid & _ & _ & Hlc).
    view_clauses; try done; try (intros; congruence).
    + intros Hpos. destruct (Hp Hpos) as (? & Htm & ?).
      split; [done|]. split; [|done].
      case_decide; [done|]. destruct Hid as [?|(_ & Hz & _)]; [done|lia].
    + intros Hr'. apply elem_of_push. by apply Hrf.
    + intros Htm. apply elem_of_push. case_decide; [by apply Htf|].
      destruct Hid as [?|(_ & _ & _ & _ & _ & Hhist)]; [done|].
      rewrite Hhist. by left.
    + intros Hwk. apply elem_of_push. by apply Hww.
Qed.

(** The team an actor got stays in its view. *)
Lemma has_team_step k id h s e t :
  has_team NUMTEAMPLAYERS NUMTEAMGOALIES k s t →
  protocol NUMTEAMPLAYERS NUMTEAMGOALIES k id h s e →
  has_team NUMTEAMPLAYERS NUMTEAMGOALIES k (watch k id s e) t.
Proof.
  intros (Hwk & Ht & Hrange & n & Harr & Hn) Hproto.
  destruct e as [[[]|[]| | | |] m m']; simpl in *; unfold has_team; simpl;
    try (repeat split; eauto; fail).
  - destruct Hproto as (_ & _ & Hrd & Htm & _). destruct Ht; congruence.
  - destruct Hproto as (_ & _ & Hrd & Htm & _). destruct Ht; congruence.
  - rewrite Hwk. repeat split; eauto.
  - destruct Hproto as (_ & _ & _ & Hid & Ha & _).
    rewrite decide_True; [|destruct Hid as [?|(_ & _ & ? & _ & ? & _)];
                            [done|destruct Ht; congruence]].
    rewrite decide_True; [|destruct Ha as [?|[_ ?]]; [done|congruence]].
    repeat split; eauto.
Qed.
End LocalSteps.

(** ** The steps of [main] *)
Section PhaseSteps.
Variables NUMTEAMPLAYERS NUMTEAMGOALIES : Z.

(** A step of [main] that is an action of the running operation. *)
Inductive runs (m : FULL_STAT) (e : event) : phase → phase → Prop :=
| runs_arrive c c' :
    step_prog c m = Some (e, c') → runs m e (InArrive c) (InArrive c')
| runs_constitute c c' :
    step_prog c m = Some (e, c') → runs m e (InConstitute c) (InConstitute c')
| runs_waitReferee t c c' :
    step_prog c m = Some (e, c') → runs m e (InWaitReferee t c) (InWaitReferee t c')
| runs_play t c c' :
    step_prog c m = Some (e, c') → runs m e (InPlay t c) (InPlay t c').

(** A step of [main] from one operation to the next. *)
Inductive returns (k : Kind) (id : nat) : phase → phase → Prop :=
| returns_arrive a :
    returns k id (InArrive (Ret a))
      (InConstitute (constituteTeam NUMTEAMPLAYERS NUMTEAMGOALIES k id))
| returns_late :
    returns k id (InConstitute (Ret 0)) (Done 0)
| returns_team t :
    t ≠ 0 →
    returns k id (InConstitute (Ret t)) (InWaitReferee t (waitReferee k id t))
| returns_waitReferee t a :
    returns k id (InWaitReferee t (Ret a)) (InPlay t (playUntilEnd k id t))
| returns_play t a :
    returns k id (InPlay t (Ret a)) (Done t).

Lemma next_runs k id ph m e ph' :
  next NUMTEAMPLAYERS NUMTEAMGOALIES k id ph m = Some (Some e, ph') →
  runs m e ph ph'.
Proof.
  destruct ph as [c|c|t c|t c|t]; simpl; [| | | |done].
  all: destruct c; try discriminate;
    intros H; apply bind_Some in H as ([e' c'] & Hst & H); simplify_eq/=;
    by constructor.
Qed.

Lemma next_returns k id ph m ph' :
  next NUMTEAMPLAYERS NUMTEAMGOALIES k id ph m = Some (None, ph') →
  returns k id ph ph'.
Proof.
  destruct ph as [c|c|t c|t c|t]; simpl; [| | | |done].
  all: destruct c;
    try (intros H; apply bind_Some in H as ([e' c'] & Hst & H); discriminate);
    intros H; simplify_eq/=; try constructor.
  destruct (a =? 0) eqn:Ha.
  - apply Z.eqb_eq in Ha as ->. constructor.
  - apply Z.eqb_neq in Ha. by constructor.
Qed.

Lemma obeys_protocol_step {A} k id (c : prog A) m0 s Q m e c' :
  obeys_protocol NUMTEAMPLAYERS NUMTEAMGOALIES k id c m0 s Q →
  rely k id (v_held s) m0 m →
  step_prog c m = Some (e, c') →
  protocol NUMTEAMPLAYERS NUMTEAMGOALIES k id (v_held s) s e ∧
  obeys_protocol NUMTEAMPLAYERS NUMTEAMGOALIES k id c' (ev_post e) (watch k id s e) Q.
Proof.
  unfold obeys_protocol. intros Hob Hr Hst.
  destruct (obeys_step _ _ _ _ _ _ _ _ _ _ _ _ Hob Hr Hst) as [Hok Hob'].
  split; [done|]. by rewrite watch_held.
Qed.

(** An action of the running operation follows the protocol, and so does
    what is left of the operation. *)
Lemma phase_ok_runs p m0 m e ph' by' :
  phase_ok NUMTEAMPLAYERS NUMTEAMGOALIES p m0 →
  rely (p_kind p) (p_id p) (v_held (view_of p)) m0 m →
  runs m e (p_phase p) ph' →
  protocol NUMTEAMPLAYERS NUMTEAMGOALIES (p_kind p) (p_id p)
    (v_held (view_of p)) (view_of p) e ∧
  phase_ok NUMTEAMPLAYERS NUMTEAMGOALIES
    (Proc (p_kind p) (p_id p) ph' (e :: p_trace p) by') (ev_post e).
Proof.
  destruct p as [k id ph tr by0]. unfold phase_ok. simpl.
  intros Hph Hr Hruns. destruct Hruns as [c c' Hst|c c' Hst|t c c' Hst|t c c' Hst].
  - exact (obeys_protocol_step _ _ _ _ _ _ _ _ _ Hph Hr Hst).
  - exact (obeys_protocol_step _ _ _ _ _ _ _ _ _ Hph Hr Hst).
  - destruct Hph as (Hteam & x & rel & rd & tm & ar & Hx & Hj & Hob).
    destruct (obeys_protocol_step _ _ _ _ _ _ _ _ _ Hob Hr Hst) as [Hok Hob'].
    split; [done|]. split; [by eapply has_team_step|]. by exists x, rel, rd, tm, ar.
  - destruct Hph as (Hteam & x & rel & rd & tm & ar & Hx & Hj & Hob).
    destruct (obeys_protocol_step _ _ _ _ _ _ _ _ _ Hob Hr Hst) as [Hok Hob'].
    split; [done|]. split; [by eapply has_team_step|]. by exists x, rel, rd, tm, ar.
Qed.

(** The return from an operation leaves what the next one starts from. *)
Lemma phase_ok_returns p m0 ph' :
  phase_ok NUMTEAMPLAYERS NUMTEAMGOALIES p m0 →
  (∀ t, v_team (view_of p) = Some t → 1 <= t <= 2) →
  (∀ t, v_read (view_of p) = Some t → 1 <= t <= 2) →
  returns (p_kind p) (p_id p) (p_phase p) ph' →
  phase_ok NUMTEAMPLAYERS NUMTEAMGOALIES
    (Proc (p_kind p) (p_id p) ph' (p_trace p) (p_by p)) m0.
Proof.
  destruct p as [k id ph tr by0]. unfold phase_ok, view_of. simpl.
  set (s := foldr _ _ _). intros Hph Htm Hrd Hret.
  destruct Hret as [a| |t Ht|t a|t a]; simpl in *.
  - destruct Hph as (_ & _ & Hown & e & ->).
    by apply constituteTeam_protocol.
  - destruct Hph as (_ & _ & Hown & e & n & [(-> & Hn & _)|[(rel & Hs & Hn)|(Hs & Hn)]]).
    + left. split; [done|]. by exists e, n.
    + rewrite Hs in Htm. specialize (Htm 0 eq_refl). lia.
    + rewrite Hs in Hrd. specialize (Hrd 0 eq_refl). lia.
  - destruct Hph as (_ & _ & Hown & e & n & [(_ & _ & ?)|[(rel & Hs & Hn)|(Hs & Hn)]]);
      [done| |].
    + assert (Hr : t = 1 ∨ t = 2).
      { rewrite Hs in Htm. specialize (Htm t eq_refl). lia. }
      rewrite Hs in *. simpl in Hown. split.
      { split; [done|]. split; [by left|]. split; [done|]. by exists n. }
      exists FORMING_TEAM, rel, None, (Some t), (Some n).
      split; [by left|]. split.
      { split; [done|]. split; [by exists n|]. split; [by left|done]. }
      apply waitReferee_protocol; try done. by left.
    + assert (Hr : t = 1 ∨ t = 2).
      { rewrite Hs in Hrd. specialize (Hrd t eq_refl). lia. }
      rewrite Hs in *. simpl in Hown. split.
      { split; [done|]. split; [by right|]. split; [done|]. by exists n. }
      exists WAITING_TEAM, false, (Some t), None, (Some n).
      split; [by right|]. split.
      { split; [done|]. split; [by exists n|]. split; [by right|done]. }
      apply waitReferee_protocol; try done. by right.
  - destruct Hph as (Hteam & x & rel & rd & tm & ar & Hx & Hj & _ & _ & Hown & e & Hs).
    split; [done|]. exists x, rel, rd, tm, ar. split; [done|]. split; [done|].
    rewrite Hs. destruct Hj as (Hrel & _ & _ & Hr). by apply playUntilEnd_protocol.
  - destruct Hph as (Hteam & x & rel & rd & tm & ar & Hx & Hj & _ & _ & Hown & e & Hs).
    right. split; [done|]. by exists x, rel, rd, tm, ar, e.
Qed.
End PhaseSteps.

Lemma sum_list_with_only {A} (f : A → nat) (l : list A) i x :
  l !! i = Some x →
  (∀ j y, l !! j = Some y → j ≠ i → f y = 0%nat) →
  sum_list_with f l = f x.
Proof.
  revert i. induction l as [|a l IH]; intros [|i] Hi Hall; simplify_eq/=.
  - rewrite sum_list_with_all_zero; [lia|].
    intros j y Hj. by apply (Hall (S j)).
  - rewrite (Hall O a eq_refl), (IH _ Hi); [done| |done].
    intros j y Hj Hne. apply (Hall (S j)); [done|congruence].
Qed.

(** The system after process [i] has returned from an operation. *)
Definition moved (σ : system) (i : nat) (p : proc) (ph' : phase) : system :=
  Sys (shared σ) (sems σ)
      (<[i := Proc (p_kind p) (p_id p) ph' (p_trace p) (p_by p)]> (procs σ))
      (referee_in σ) (last_up σ).

(** The system after process [i] has performed the event [e]. *)
Definition by_after (σ : system) (p : proc) (e : event) : option nat :=
  match ev_op e with
  | OpDown s => if is_wait_team s then last_up σ s else p_by p
  | _ => p_by p
  end.

Definition last_after (σ : system) (i : nat) (e : event) : Sem → option nat :=
  match ev_op e with
  | OpUp s => set_at s (Some i) (last_up σ)
  | _ => last_up σ
  end.

Definition performed (σ : system) (p : proc) (e : event) (ph' : phase) : proc :=
  Proc (p_kind p) (p_id p) ph' (e :: p_trace p) (by_after σ p e).

Definition acted (σ : system) (i : nat) (p : proc) (e : event) (ph' : phase)
    (sm : Sem → nat) : system :=
  Sys (ev_post e) sm (<[i := performed σ p e ph']> (procs σ))
      (referee_in σ) (last_after σ i e).

Lemma view_of_performed σ p e ph' :
  view_of (performed σ p e ph') = watch (p_kind p) (p_id p) (view_of p) e.
Proof. done. Qed.

Section Steps.
Variables NUMTEAMPLAYERS NUMTEAMGOALIES : Z.

Lemma fire_act σ i σ' :
  fire NUMTEAMPLAYERS NUMTEAMGOALIES σ (Act i) = Some σ' →
  ∃ p, procs σ !! i = Some p ∧
    ((∃ ph', returns NUMTEAMPLAYERS NUMTEAMGOALIES (p_kind p) (p_id p) (p_phase p) ph' ∧
             σ' = moved σ i p ph') ∨
     (∃ e ph' sm, runs (shared σ) e (p_phase p) ph' ∧
                  sem_effect (sems σ) (ev_op e) = Some sm ∧
                  σ' = acted σ i p e ph' sm)).
Proof.
  simpl. intros H. apply bind_Some in H as (p & Hp & H).
  apply bind_Some in H as ([[e|] ph'] & Hnext & H); simpl in H.
  - apply bind_Some in H as (sm & Hsm & H). exists p. split; [done|]. right.
    exists e, ph', sm. split; [by eapply next_runs|]. split; [done|]. by simplify_eq.
  - exists p. split; [done|]. left. exists ph'.
    split; [by eapply next_returns|]. by simplify_eq.
Qed.

(** ** What one event does to the counts *)
Lemma step_holds k id h s e sm sm' :
  sem_effect sm (ev_op e) = Some sm' →
  protocol NUMTEAMPLAYERS NUMTEAMGOALIES k id h s e →
  (sm' mutex + b2n (v_held (watch k id s e)) = sm mutex + b2n (v_held s))%nat.
Proof.
  destruct e as [[x|x| | | |] m m']; simpl; intros Hsm Hproto; simplify_eq/=; try done.
  - destruct (sm x) as [|n] eqn:Hx; [done|]. simplify_eq.
    destruct x; simpl in *; unfold set_at; simpl; try done.
    destruct Hproto as [-> _]. rewrite Hx. simpl. lia.
  - destruct x; simpl in *; unfold set_at; simpl; try done.
    destruct Hproto as [-> _]. simpl. lia.
Qed.

Lemma step_hand k id h s e sm sm' :
  sem_effect sm (ev_op e) = Some sm' →
  protocol NUMTEAMPLAYERS NUMTEAMGOALIES k id h s e →
  (sm' playersWaitTeam + sm' goaliesWaitTeam + sm' playerRegistered
     + b2n (v_woken (watch k id s e)) + v_pend s =
   sm playersWaitTeam + sm goaliesWaitTeam + sm playerRegistered
     + b2n (v_woken s) + v_pend (watch k id s e))%nat.
Proof.
  destruct e as [[x|x| | | |] m m']; simpl; intros Hsm Hproto; simplify_eq/=; try done.
  - destruct (sm x) as [|n] eqn:Hx; [done|]. simplify_eq.
    destruct x; simpl in *; unfold set_at; simpl; try done.
    + destruct Hproto as (_ & -> & _). rewrite Hx. simpl. lia.
    + destruct Hproto as (_ & -> & _). rewrite Hx. simpl. lia.
    + destruct Hproto as [_ Hpos]. rewrite Hx. lia.
  - destruct x; simpl in *; unfold set_at; simpl; try done; try lia.
    destruct Hproto as [-> _]. simpl. lia.
Qed.

Lemma step_in_time k' p e ph' by' :
  protocol NUMTEAMPLAYERS NUMTEAMGOALIES (p_kind p) (p_id p) (v_held (view_of p))
    (view_of p) e →
  (ev_op e ≠ OpStore → ev_post e = ev_pre e) →
  Z.of_nat (in_time NUMTEAMPLAYERS NUMTEAMGOALIES k'
              (Proc (p_kind p) (p_id p) ph' (e :: p_trace p) by')) +
    Z.min (arrived k' (ev_pre e)) (2 * perTeam NUMTEAMPLAYERS NUMTEAMGOALIES k') =
  Z.of_nat (in_time NUMTEAMPLAYERS NUMTEAMGOALIES k' p) +
    Z.min (arrived k' (ev_post e)) (2 * perTeam NUMTEAMPLAYERS NUMTEAMGOALIES k').
Proof.
  destruct p as [k id ph tr by0]. unfold in_time. simpl.
  change (view_of (Proc k id ph' (e :: tr) by'))
    with (watch k id (view_of (Proc k id ph tr by0)) e).
  set (s := view_of _). intros Hproto Hpost.
  destruct e as [[x|x| | | |] m m']; simpl in *;
    try (rewrite Hpost by done; destruct x; done); try by rewrite Hpost.
  destruct Hproto as (_ & _ & _ & _ & Harr & Hoth & _).
  case_decide as Hk.
  - subst k'. case_decide as Hsame; [by rewrite Hsame|].
    destruct Harr as [?|[Harr ->]]; [done|]. rewrite Harr.
    case_decide; simpl; lia.
  - replace (arrived k' m') with (arrived k' m); [done|].
    destruct k, k'; simpl in *; done.
Qed.
End Steps.

(** ** Mutual exclusion and the open handshake *)
Section Holder.
Variables NUMTEAMPLAYERS NUMTEAMGOALIES : Z.
Variable σ : system.
Hypothesis Hinv : invariant NUMTEAMPLAYERS NUMTEAMGOALIES σ.

Lemma held_holds p : v_held (view_of p) = true → holds p = 1%nat.
Proof. unfold holds. by intros ->. Qed.

(** Mutual exclusion: one process at most is inside its critical region. *)
Lemma holder_unique i j p q :
  procs σ !! i = Some p → procs σ !! j = Some q →
  v_held (view_of p) = true → v_held (view_of q) = true → i = j.
Proof.
  intros Hp Hq Hhp Hhq. destruct (decide (i = j)) as [|Hne]; [done|].
  pose proof (sum_list_with_lookup2 holds _ _ _ _ _ Hne Hp Hq) as Hle.
  rewrite (held_holds _ Hhp), (held_holds _ Hhq) in Hle.
  pose proof (inv_mutex _ _ _ Hinv) as Hm. unfold total in Hm. lia.
Qed.

Lemma holder_locks i p :
  procs σ !! i = Some p → v_held (view_of p) = true →
  sems σ mutex = 0%nat ∧ referee_in σ = false ∧ total holds σ = 1%nat.
Proof.
  intros Hp Hhp.
  pose proof (sum_list_with_lookup holds _ _ _ Hp) as Hle.
  rewrite (held_holds _ Hhp) in Hle.
  pose proof (inv_mutex _ _ _ Hinv) as Hm. unfold total in *.
  destruct (referee_in σ); simpl in *; repeat split; lia.
Qed.

Lemma pending_held j q :
  procs σ !! j = Some q → (0 < v_pend (view_of q))%nat →
  v_held (view_of q) = true ∧ v_team (view_of q) = None ∧
  forming NUMTEAMPLAYERS NUMTEAMGOALIES (p_kind q) (v_entry (view_of q)).
Proof.
  intros Hq Hpos. destruct (inv_proc _ _ _ Hinv _ _ Hq) as [Hv _].
  destruct Hv as (_ & Hpend & _). by apply Hpend.
Qed.

(** The acknowledgments awaited are those the process inside its critical
    region awaits. *)
Lemma pends_holder i p :
  procs σ !! i = Some p → v_held (view_of p) = true →
  total pends σ = v_pend (view_of p).
Proof.
  intros Hp Hhp. unfold total. apply (sum_list_with_only pends _ i p Hp).
  intros j q Hq Hne. unfold pends.
  destruct (decide (0 < v_pend (view_of q))%nat) as [Hpos|]; [|lia].
  destruct (pending_held _ _ Hq Hpos) as [Hhq _].
  destruct Hne. by eapply holder_unique.
Qed.

Lemma pends_some :
  (0 < total pends σ)%nat →
  ∃ i p, procs σ !! i = Some p ∧ (0 < v_pend (view_of p))%nat ∧
         v_held (view_of p) = true ∧ v_team (view_of p) = None ∧
         forming NUMTEAMPLAYERS NUMTEAMGOALIES (p_kind p) (v_entry (view_of p)).
Proof.
  intros Hpos. apply sum_list_with_pos in Hpos as (i & p & Hp & Hpos).
  exists i, p. split; [done|]. split; [done|]. by apply pending_held with i.
Qed.

Lemma woken_wakes j q :
  procs σ !! j = Some q → v_woken (view_of q) = true → (0 < total wakes σ)%nat.
Proof.
  intros Hq Hw. pose proof (sum_list_with_lookup wakes _ _ _ Hq) as Hle.
  unfold wakes at 1 in Hle. rewrite Hw in Hle. unfold total. simpl in Hle. lia.
Qed.

(** While a released recruit has not acknowledged, and while a release has
    not been taken, the process inside its critical region is a captain in
    the middle of its handshake. *)
Lemma handshake_open i p :
  procs σ !! i = Some p → v_held (view_of p) = true →
  (0 < sems σ playersWaitTeam + sems σ goaliesWaitTeam + total wakes σ)%nat →
  (0 < v_pend (view_of p))%nat ∧ v_team (view_of p) = None ∧
  forming NUMTEAMPLAYERS NUMTEAMGOALIES (p_kind p) (v_entry (view_of p)).
Proof.
  intros Hp Hhp Hpos. pose proof (inv_hand _ _ _ Hinv) as Hh.
  rewrite (pends_holder _ _ Hp Hhp) in Hh.
  assert (Hpend : (0 < v_pend (view_of p))%nat) by lia.
  split; [done|]. by apply (pending_held _ _ Hp Hpend).
Qed.
End Holder.

(** ** One step, seen from a captain and from a recruit *)
Section ViewSteps.
Variables NUMTEAMPLAYERS NUMTEAMGOALIES : Z.
Hypothesis players_nonneg : 0 <= NUMTEAMPLAYERS.
Hypothesis goalies_nonneg : 0 <= NUMTEAMGOALIES.

(** A step of a captain, seen from a recruit it has released. *)
Lemma captain_step k id h s e woken rd :
  protocol NUMTEAMPLAYERS NUMTEAMGOALIES k id h s e →
  (ev_op e ≠ OpStore → ev_post e = ev_pre e) →
  (woken = true → (0 < v_pend s)%nat) →
  released_by (ev_pre e) s woken rd →
  released_by (ev_post e) (watch k id s e) woken rd.
Proof.
  intros Hproto Hpost Hpend (Hrel & Hwk & Hrd). unfold released_by.
  destruct e as [[[]|[]| | | |] m m']; simpl in *;
    try (rewrite Hpost by done; done).
  - (* semDown (mutex) *)
    destruct Hproto as [Hh _]. rewrite Hpost by done.
    split; [done|]. split; [intros Hw; by destruct (Hwk Hw)|].
    intros v Hv. destruct (Hrd v Hv) as [H1 H2]. split; [|done].
    intros Ht. by destruct (H1 Ht).
  - (* semUp (mutex) *)
    destruct Hproto as (Hh & Hp & Hleave & _). rewrite Hpost by done.
    specialize (Hleave Hrel).
    split; [done|]. split; [intros Hw; by destruct (Hwk Hw)|].
    intros v Hv. destruct (Hrd v Hv) as [H1 H2]. by split.
  - (* an assignment *)
    destruct Hproto as (Hh & _ & _ & Hid & _).
    split; [done|]. destruct Hid as [Hid|(Hid & Hp & Ht & _)].
    + rewrite decide_True by done. rewrite Hid. done.
    + rewrite decide_False by lia. split.
      { intros Hw. specialize (Hpend Hw). lia. }
      intros v Hv. destruct (Hrd v Hv) as [H1 H2]. split; [done|].
      intros t [= <-]. by destruct (H1 Ht).
Qed.

(** What a step of a process keeps true of the region it entered, of the
    team id it reserved and of its status entry. *)
Lemma region_step k id h s e :
  protocol NUMTEAMPLAYERS NUMTEAMGOALIES k id h s e →
  (ev_op e ≠ OpStore → ev_post e = ev_pre e) →
  (ev_op e = OpDown mutex → settled NUMTEAMPLAYERS NUMTEAMGOALIES (ev_pre e)) →
  (v_held s = true →
     settled NUMTEAMPLAYERS NUMTEAMGOALIES (v_entry s) ∧
     (v_team s = None → teamId (ev_pre e) = teamId (v_entry s))) →
  (∀ t, v_team s = Some t → 1 <= t <= 2) →
  (∀ x, head (v_hist s) = Some x → own_stat k id (ev_pre e) = Some x) →
  let s' := watch k id s e in
  (v_held s' = true →
     settled NUMTEAMPLAYERS NUMTEAMGOALIES (v_entry s') ∧
     (v_team s' = None → teamId (ev_post e) = teamId (v_entry s'))) ∧
  (∀ t, v_team s' = Some t → 1 <= t <= 2) ∧
  (∀ x, head (v_hist s') = Some x → own_stat k id (ev_post e) = Some x).
Proof.
  intros Hproto Hpost Hfree Hheld Hteam Hown.
  destruct e as [[[]|[]| | | |] m m']; simpl in *;
    try (rewrite Hpost by done; done).
  - (* semDown (mutex) *)
    destruct Hproto as [Hh _]. rewrite Hpost by done. split; [|done].
    intros _. split; [by apply Hfree|done].
  - (* an assignment *)
    destruct Hproto as (Hh & _ & Hsome & Hid & _ & _ & _).
    destruct (Hheld Hh) as [Hset Hent]. split; [|split].
    + intros _. split; [done|]. destruct Hid as [Hid|(Hid & _)].
      * rewrite decide_True by done. rewrite Hid. done.
      * by rewrite decide_False by lia.
    + destruct Hid as [Hid|(Hid & _ & Ht & Hf & _)].
      * rewrite decide_True by done. exact Hteam.
      * rewrite decide_False by lia. intros t [= <-]. rewrite (Hent Ht).
        by apply (captain_id NUMTEAMPLAYERS NUMTEAMGOALIES
                    players_nonneg goalies_nonneg k).
    + intros x. destruct (own_stat k id m') as [y|] eqn:Hy; simpl.
      * case_decide as Hhd; [by rewrite Hhd|]. done.
      * intros Hx. specialize (Hown x Hx). destruct Hsome as [? ?]; [by eexists|].
        congruence.
Qed.

Lemma read_step k id h s e :
  protocol NUMTEAMPLAYERS NUMTEAMGOALIES k id h s e →
  (∀ t, v_read s = Some t → 1 <= t <= 2) →
  (v_woken s = true → 1 <= teamId (ev_pre e) <= 2) →
  ∀ t, v_read (watch k id s e) = Some t → 1 <= t <= 2.
Proof.
  intros Hproto Hrd Hwk.
  destruct e as [[[]|[]| | | |] m m']; simpl in *; try done.
  destruct (v_woken s); [|done]. intros t [= <-]. by apply Hwk.
Qed.

Lemma released_by_region m m' c woken rd :
  released_by m c woken rd →
  (v_held c = true → teamId m' = teamId m) →
  released_by m' c woken rd.
Proof.
  intros (Hrel & Hwk & Hrd) Hm. split; [done|]. split; [done|].
  intros v Hv. destruct (Hrd v Hv) as [H1 H2]. split; [|done].
  intros Ht. destruct (H1 Ht) as [Hh <-]. split; [done|]. by apply Hm.
Qed.

(** The [semDown] by which a recruit takes its release. *)
Definition takes_release (o : op) : bool :=
  match o with
  | OpDown s => is_wait_team s
  | _ => false
  end.

(** A step of a recruit, against the view [c] of the captain that released
    it. *)
Lemma recruit_step k id h s e c :
  protocol NUMTEAMPLAYERS NUMTEAMGOALIES k id h s e →
  (ev_op e ≠ OpStore → ev_post e = ev_pre e) →
  takes_release (ev_op e) = false →
  let s' := watch k id s e in
  ((v_woken s' = true ∨ v_read s' ≠ None) ↔ (v_woken s = true ∨ v_read s ≠ None)) ∧
  (released_by (ev_pre e) c (v_woken s) (v_read s) →
   (v_held s = true → v_held c = true → False) →
   released_by (ev_post e) c (v_woken s') (v_read s')).
Proof.
  intros Hproto Hpost Htake.
  destruct e as [[[]|[]| | | |] m m']; simpl in *; try done;
    try (rewrite Hpost by done; done).
  - (* semUp (playerRegistered) *)
    destruct Hproto as [Hw Hr]. rewrite Hpost by done. split.
    + split; [by right|]. intros _. by right.
    + intros (Hrel & _ & Hrd) _. split; [done|]. split; [done|]. done.
  - (* a read *)
    rewrite Hpost by done. destruct (v_woken s) eqn:Hw; [|done]. split.
    + split; intros _; by left.
    + intros (Hrel & Hwk & Hrd) _. destruct (Hwk eq_refl) as [Hh Ht].
      split; [done|]. split; [done|]. intros v [= <-]. split; [done|].
      intros t. rewrite Ht. done.
  - (* an assignment *)
    destruct Hproto as [Hh _]. split; [done|]. intros Hrel Hexcl.
    apply (released_by_region m); [done|]. intros Hc. by destruct (Hexcl Hh Hc).
Qed.
End ViewSteps.

(** ** The invariant after an action of a process *)
Lemma runs_pre m e ph ph' :
  runs m e ph ph' → ev_pre e = m ∧ (ev_op e ≠ OpStore → ev_post e = m).
Proof.
  intros [c c' H|c c' H|t c c' H|t c c' H];
    (split; [by eapply step_prog_pre|by eapply step_prog_post]).
Qed.

Lemma total_insert f σ i p p' m sm r lu :
  procs σ !! i = Some p →
  (total f (Sys m sm (<[i:=p']> (procs σ)) r lu) + f p = total f σ + f p')%nat.
Proof. intros Hp. unfold total. simpl. by apply sum_list_with_insert. Qed.

Lemma held_after_left o : held_after true o = false → o = OpUp mutex.
Proof. destruct o as [[]|[]| | | |]; simpl; congruence. Qed.

Lemma sem_effect_le sm o sm' s :
  sem_effect sm o = Some sm' → o ≠ OpUp s → (sm' s <= sm s)%nat.
Proof.
  destruct o as [x|x| | | |]; simpl; intros H Hne; simplify_eq/=; try done.
  - destruct (sm x) as [|n] eqn:Hx; [done|]. simplify_eq. unfold set_at.
    case_decide; [subst; lia|done].
  - unfold set_at. case_decide; [congruence|done].
Qed.

Lemma sem_effect_down sm s sm' :
  sem_effect sm (OpDown s) = Some sm' → (0 < sm s)%nat.
Proof. simpl. destruct (sm s); [done|lia]. Qed.

Lemma last_after_ne σ i e s :
  ev_op e ≠ OpUp s → last_after σ i e s = last_up σ s.
Proof.
  unfold last_after. destruct (ev_op e) as [x|x| | | |]; try done.
  intros Hne. unfold set_at. case_decide; [congruence|done].
Qed.

Section EventStep.
Variables NUMTEAMPLAYERS NUMTEAMGOALIES : Z.
Hypothesis players_nonneg : 0 <= NUMTEAMPLAYERS.
Hypothesis goalies_nonneg : 0 <= NUMTEAMGOALIES.
Variables (σ : system) (i : nat) (p : proc) (e : event) (ph' : phase)
          (sm : Sem → nat).
Hypothesis Hinv : invariant NUMTEAMPLAYERS NUMTEAMGOALIES σ.
Hypothesis Hp : procs σ !! i = Some p.
Hypothesis Hruns : runs (shared σ) e (p_phase p) ph'.
Hypothesis Hsem : sem_effect (sems σ) (ev_op e) = Some sm.

Lemma act_pre : ev_pre e = shared σ.
Proof. by destruct (runs_pre _ _ _ _ Hruns). Qed.

Lemma act_post : ev_op e ≠ OpStore → ev_post e = shared σ.
Proof. by destruct (runs_pre _ _ _ _ Hruns). Qed.

Lemma act_same : ev_op e ≠ OpStore → ev_post e = ev_pre e.
Proof. intros H. by rewrite act_pre, act_post. Qed.

Lemma act_protocol :
  protocol NUMTEAMPLAYERS NUMTEAMGOALIES (p_kind p) (p_id p)
    (v_held (view_of p)) (view_of p) e.
Proof.
  destruct (inv_proc _ _ _ Hinv _ _ Hp) as (_ & (m0 & Hsees & Hph) & _).
  by destruct (phase_ok_runs _ _ p m0 (shared σ) e ph' None Hph Hsees Hruns).
Qed.

Lemma act_phase by' :
  phase_ok NUMTEAMPLAYERS NUMTEAMGOALIES
    (Proc (p_kind p) (p_id p) ph' (e :: p_trace p) by') (ev_post e).
Proof.
  destruct (inv_proc _ _ _ Hinv _ _ Hp) as (_ & (m0 & Hsees & Hph) & _).
  by destruct (phase_ok_runs _ _ p m0 (shared σ) e ph' by' Hph Hsees Hruns).
Qed.

Lemma acted_lookup_ne j :
  j ≠ i → procs (acted σ i p e ph' sm) !! j = procs σ !! j.
Proof. intros Hne. simpl. by apply list_lookup_insert_ne. Qed.

Lemma acted_lookup :
  procs (acted σ i p e ph' sm) !! i = Some (performed σ p e ph').
Proof. simpl. apply list_lookup_insert_eq. by eapply lookup_lt_Some. Qed.

Lemma acted_total f :
  (total f (acted σ i p e ph' sm) + f p = total f σ + f (performed σ p e ph'))%nat.
Proof. by apply total_insert. Qed.

Lemma acted_uniq j1 j2 q1 q2 :
  procs (acted σ i p e ph' sm) !! j1 = Some q1 →
  procs (acted σ i p e ph' sm) !! j2 = Some q2 →
  p_kind q1 = p_kind q2 → p_id q1 = p_id q2 → j1 = j2.
Proof.
  pose proof acted_lookup as Hi.
  intros H1 H2 Hk Hid.
  destruct (decide (j1 = i)) as [->|Hn1], (decide (j2 = i)) as [->|Hn2]; [done| | |].
  - rewrite Hi in H1. rewrite acted_lookup_ne in H2 by done. simplify_eq/=.
    by eapply (inv_uniq _ _ _ Hinv).
  - rewrite Hi in H2. rewrite acted_lookup_ne in H1 by done. simplify_eq/=.
    by eapply (inv_uniq _ _ _ Hinv).
  - rewrite acted_lookup_ne in H1, H2 by done. by eapply (inv_uniq _ _ _ Hinv).
Qed.

Lemma acted_mutex :
  (sems (acted σ i p e ph' sm) mutex + total holds (acted σ i p e ph' sm)
     + b2n (referee_in (acted σ i p e ph' sm)) = 1)%nat.
Proof.
  pose proof (inv_mutex _ _ _ Hinv) as Hm.
  pose proof (step_holds _ _ _ _ _ _ _ _ _ Hsem act_protocol) as Hs.
  pose proof (acted_total holds) as Ht.
  unfold holds at 2 4 in Ht. rewrite view_of_performed in Ht.
  change (sems (acted σ i p e ph' sm)) with sm.
  change (referee_in (acted σ i p e ph' sm)) with (referee_in σ).
  lia.
Qed.

Lemma acted_hand :
  (sems (acted σ i p e ph' sm) playersWaitTeam
     + sems (acted σ i p e ph' sm) goaliesWaitTeam
     + sems (acted σ i p e ph' sm) playerRegistered
     + total wakes (acted σ i p e ph' sm) =
   total pends (acted σ i p e ph' sm))%nat.
Proof.
  pose proof (inv_hand _ _ _ Hinv) as Hm.
  pose proof (step_hand _ _ _ _ _ _ _ _ _ Hsem act_protocol) as Hs.
  pose proof (acted_total wakes) as Hw.
  pose proof (acted_total pends) as Hq.
  unfold wakes at 2 4 in Hw. unfold pends at 2 4 in Hq.
  rewrite view_of_performed in Hw, Hq.
  change (sems (acted σ i p e ph' sm)) with sm.
  lia.
Qed.

Lemma acted_in_time k :
  Z.of_nat (total (in_time NUMTEAMPLAYERS NUMTEAMGOALIES k) (acted σ i p e ph' sm)) =
  Z.min (arrived k (shared (acted σ i p e ph' sm)))
        (2 * perTeam NUMTEAMPLAYERS NUMTEAMGOALIES k).
Proof.
  pose proof (inv_in_time _ _ _ Hinv k) as Hm.
  pose proof (step_in_time _ _ k p e ph' (by_after σ p e) act_protocol act_same) as Hs.
  pose proof (acted_total (in_time NUMTEAMPLAYERS NUMTEAMGOALIES k)) as Ht.
  rewrite act_pre in Hs. fold (performed σ p e ph') in Hs.
  change (shared (acted σ i p e ph' sm)) with (ev_post e).
  lia.
Qed.

Lemma acted_settled :
  total holds (acted σ i p e ph' sm) = 0%nat →
  settled NUMTEAMPLAYERS NUMTEAMGOALIES (shared (acted σ i p e ph' sm)).
Proof.
  intros Hz. change (shared (acted σ i p e ph' sm)) with (ev_post e).
  pose proof (acted_total holds) as Ht.
  pose proof (sum_list_with_lookup holds _ _ _ acted_lookup) as Hle.
  fold (total holds (acted σ i p e ph' sm)) in Hle.
  assert (Hh' : v_held (watch (p_kind p) (p_id p) (view_of p) e) = false).
  { assert (Hz' : holds (performed σ p e ph') = 0%nat) by lia.
    unfold holds in Hz'. rewrite view_of_performed in Hz'.
    by destruct (v_held _). }
  pose proof act_protocol as Hproto.
  pose proof act_pre as Hpre. pose proof act_post as Hpost.
  destruct (v_held (view_of p)) eqn:Hh.
  - rewrite watch_held, Hh in Hh'. apply held_after_left in Hh'.
    destruct e as [o m m']. simpl in *. subst o. simpl in Hproto.
    destruct Hproto as (_ & _ & Hleave).
    rewrite Hpost by done. rewrite Hpre in Hleave.
    destruct (inv_proc _ _ _ Hinv _ _ Hp) as (_ & _ & Hent & _).
    destruct (Hent Hh) as [Hset _]. by eapply settled_leaves.
  - rewrite Hpost.
    + apply (inv_settled _ _ _ Hinv).
      assert (Hz' : holds p = 0%nat) by (unfold holds; by rewrite Hh). lia.
    + intros Hop. destruct e as [o m m']. simpl in *. subst o. simpl in Hproto.
      destruct Hproto as [? _]. congruence.
Qed.

(** What the step of process [i] leaves as it was for the others. *)
Lemma others_frame j q :
  j ≠ i → procs σ !! j = Some q →
  own_stat (p_kind q) (p_id q) (ev_post e) = own_stat (p_kind q) (p_id q) (shared σ) ∧
  (v_held (view_of q) = true → ev_post e = shared σ).
Proof.
  intros Hne Hq. destruct (decide (ev_op e = OpStore)) as [Hop|Hop].
  - pose proof act_protocol as Hproto. pose proof act_pre as Hpre.
    destruct e as [o m m']. simpl in *. subst o. simpl in Hproto.
    destruct Hproto as (Hh & Hfr & _). split.
    + rewrite <- Hpre. apply Hfr.
      destruct (decide (p_kind q = p_kind p)) as [Hk|]; [|by left].
      right. intros Hid. destruct Hne. by eapply (inv_uniq _ _ _ Hinv).
    + intros Hhq. destruct Hne. by eapply holder_unique.
  - by rewrite act_post.
Qed.

Lemma acted_last s :
  is_wait_team s = true → (0 < sems (acted σ i p e ph' sm) s)%nat →
  ∃ ci pc, last_up (acted σ i p e ph' sm) s = Some ci ∧
           procs (acted σ i p e ph' sm) !! ci = Some pc ∧
           v_held (view_of pc) = true ∧ v_rel (view_of pc) = true.
Proof.
  intros Hs Hpos. change (sems (acted σ i p e ph' sm)) with sm in Hpos.
  change (last_up (acted σ i p e ph' sm)) with (last_after σ i e).
  pose proof act_protocol as Hproto.
  destruct (decide (ev_op e = OpUp s)) as [Hop|Hop].
  - exists i, (performed σ p e ph'). split.
    { unfold last_after. rewrite Hop. unfold set_at. by rewrite decide_True. }
    split; [apply acted_lookup|]. rewrite view_of_performed.
    destruct e as [o m m']. simpl in *. subst o.
    destruct s; try discriminate; simpl in *; by destruct Hproto as (? & _).
  - pose proof (sem_effect_le _ _ _ s Hsem Hop) as Hle.
    destruct (inv_last _ _ _ Hinv s Hs) as (ci & pc & Hlu & Hpc & Hh & Hrel); [lia|].
    exists ci. rewrite last_after_ne by done.
    destruct (decide (ci = i)) as [->|Hne].
    + exists (performed σ p e ph'). split; [done|]. split; [apply acted_lookup|].
      rewrite view_of_performed. simplify_eq.
      destruct (handshake_open _ _ _ Hinv _ _ Hp Hh) as (Hpend & Hteam & _).
      { destruct s; try discriminate; lia. }
      destruct (captain_step _ _ _ _ _ _ _ true None Hproto act_same) as (? & Hw & _);
        [done|by split|].
      by destruct (Hw eq_refl).
    + exists pc. by rewrite acted_lookup_ne.
Qed.

(** While it holds a release it has not acknowledged, a recruit sees team 1
    or team 2 in the shared region. *)
Lemma woken_team_id :
  v_woken (view_of p) = true → 1 <= teamId (shared σ) <= 2.
Proof.
  intros Hw. destruct (inv_proc _ _ _ Hinv _ _ Hp) as (_ & _ & _ & _ & _ & _ & _ & Hby).
  destruct Hby as (ci & pc & _ & _ & Hpc & _ & Hwk & _); [by left|].
  destruct (Hwk Hw) as [Hh Ht].
  destruct (handshake_open _ _ _ Hinv _ _ Hpc Hh) as (_ & _ & Hf).
  { pose proof (woken_wakes _ _ _ Hp Hw). lia. }
  destruct (inv_proc _ _ _ Hinv _ _ Hpc) as (_ & _ & Hent & _).
  destruct (Hent Hh) as [Hset Hid]. rewrite (Hid Ht).
  by apply (captain_id NUMTEAMPLAYERS NUMTEAMGOALIES
              players_nonneg goalies_nonneg (p_kind pc)).
Qed.

Lemma acted_by_self : by_ok (acted σ i p e ph' sm) i (performed σ p e ph').
Proof.
  pose proof act_protocol as Hproto. pose proof act_same as Hsame.
  pose proof act_pre as Hpre.
  destruct (inv_proc _ _ _ Hinv _ _ Hp) as (_ & _ & _ & _ & _ & _ & Hby & Hrec).
  unfold by_ok. rewrite view_of_performed.
  change (shared (acted σ i p e ph' sm)) with (ev_post e).
  change (p_by (performed σ p e ph')) with (by_after σ p e).
  destruct (takes_release (ev_op e)) eqn:Htake.
  - (* the recruit takes its release *)
    assert (∃ s, is_wait_team s = true ∧ ev_op e = OpDown s) as (s & Hs & Hop).
    { destruct (ev_op e) as [x| | | | |]; try discriminate. by exists x. }
    unfold by_after. rewrite Hop, Hs.
    rewrite Hop in Hsem. apply sem_effect_down in Hsem as Hpos.
    destruct (inv_last _ _ _ Hinv s Hs Hpos) as (ci & pc & Hlu & Hpc & Hh & Hrel).
    destruct (handshake_open _ _ _ Hinv _ _ Hpc Hh) as (_ & Hteam & _).
    { destruct s; try discriminate; lia. }
    assert (Hview : v_held (view_of p) = false ∧
                    v_woken (watch (p_kind p) (p_id p) (view_of p) e) = true ∧
                    v_read (watch (p_kind p) (p_id p) (view_of p) e) = None).
    { clear Hsem. destruct e as [o m m']. simpl in *. subst o.
      destruct s; try discriminate; simpl in *;
        by destruct Hproto as (? & _ & ? & _). }
    destruct Hview as (Hnh & -> & ->). split; [by left|]. intros _.
    exists ci, pc. split; [done|]. split; [intros ->; simplify_eq; congruence|].
    split.
    { rewrite acted_lookup_ne; [done|]. intros ->. simplify_eq. congruence. }
    split; [done|]. by split.
  - (* any other step *)
    assert (Hby' : by_after σ p e = p_by p).
    { unfold by_after. destruct (ev_op e) as [x| | | | |]; try done.
      simpl in Htake. by rewrite Htake. }
    rewrite Hby'.
    assert (Hstep : ∀ c, _) by exact (λ c, recruit_step _ _ _ _ _ _ _ c Hproto Hsame Htake).
    split.
    + intros Hsome. apply (Hstep (view_of p)). by apply Hby.
    + intros Hrl. apply (Hstep (view_of p)) in Hrl.
      destruct (Hrec Hrl) as (ci & pc & Hci & Hne & Hpc & Hrb).
      exists ci, pc. split; [done|]. split; [done|].
      split; [by rewrite acted_lookup_ne|].
      apply (Hstep (view_of pc)); [by rewrite Hpre|].
      intros Hh Hc. destruct Hne. by eapply holder_unique.
Qed.

Lemma acted_proc_self :
  proc_ok NUMTEAMPLAYERS NUMTEAMGOALIES (acted σ i p e ph' sm) i (performed σ p e ph').
Proof.
  pose proof act_protocol as Hproto. pose proof act_same as Hsame.
  pose proof act_pre as Hpre.
  destruct (inv_proc _ _ _ Hinv _ _ Hp) as (Hv & _ & Hent & Htm & Hrd & Hown & _).
  unfold proc_ok.
  change (shared (acted σ i p e ph' sm)) with (ev_post e).
  change (p_kind (performed σ p e ph')) with (p_kind p).
  change (p_id (performed σ p e ph')) with (p_id p).
  rewrite view_of_performed.
  destruct (region_step _ _ players_nonneg goalies_nonneg _ _ _ _ _ Hproto Hsame)
    as (Hent' & Htm' & Hown'); try done.
  - intros Hop. rewrite Hpre. apply (inv_settled _ _ _ Hinv).
    rewrite Hop in Hsem. apply sem_effect_down in Hsem.
    pose proof (inv_mutex _ _ _ Hinv). lia.
  - by rewrite Hpre.
  - by rewrite Hpre.
  - split; [by eapply view_ok_step|]. split.
    { exists (ev_post e). split; [by split|]. apply act_phase. }
    split; [done|]. split; [done|]. split.
    { eapply read_step; [done..|]. rewrite Hpre. apply woken_team_id. }
    split; [done|]. apply acted_by_self.
Qed.

Lemma acted_proc_other j q :
  j ≠ i → procs σ !! j = Some q →
  proc_ok NUMTEAMPLAYERS NUMTEAMGOALIES (acted σ i p e ph' sm) j q.
Proof.
  intros Hne Hq. pose proof act_protocol as Hproto. pose proof act_same as Hsame.
  pose proof act_pre as Hpre.
  destruct (others_frame _ _ Hne Hq) as [Hfr Hsh].
  destruct (inv_proc _ _ _ Hinv _ _ Hq)
    as (Hv & (m0 & [Hs1 Hs2] & Hph) & Hent & Htm & Hrd & Hown & Hby & Hrec).
  unfold proc_ok. change (shared (acted σ i p e ph' sm)) with (ev_post e).
  split; [done|]. split.
  { exists m0. split; [|done]. split; simpl.
    - intros Hh. rewrite (Hsh Hh). by apply Hs1.
    - by rewrite Hfr. }
  split.
  { intros Hh. destruct (Hent Hh) as [? Hid]. split; [done|]. by rewrite (Hsh Hh). }
  split; [done|]. split; [done|]. split.
  { intros x Hx. rewrite Hfr. by apply Hown. }
  split; [done|]. intros Hrl.
  destruct (Hrec Hrl) as (ci & pc & Hci & Hnj & Hpc & Hrb).
  exists ci. destruct (decide (ci = i)) as [->|Hni].
  - simplify_eq. exists (performed σ p e ph'). split; [done|]. split; [done|].
    split; [apply acted_lookup|]. rewrite view_of_performed.
    change (shared (acted σ i p e ph' sm)) with (ev_post e).
    apply (captain_step NUMTEAMPLAYERS NUMTEAMGOALIES _ _ _ _ _ _ _ Hproto Hsame).
    + intros Hw. destruct Hrb as (_ & Hwk & _). destruct (Hwk Hw) as [Hh _].
      apply (handshake_open _ _ _ Hinv _ _ Hp Hh).
      pose proof (woken_wakes _ _ _ Hq Hw). lia.
    + by rewrite Hpre.
  - exists pc. split; [done|]. split; [done|].
    split; [by rewrite acted_lookup_ne|].
    change (shared (acted σ i p e ph' sm)) with (ev_post e).
    apply (released_by_region (shared σ)); [done|].
    intros Hh. destruct (others_frame _ _ Hni Hpc) as [_ Hsh']. by rewrite Hsh'.
Qed.

(** The invariant after an action of a process. *)
Lemma invariant_acted :
  invariant NUMTEAMPLAYERS NUMTEAMGOALIES (acted σ i p e ph' sm).
Proof.
  split.
  - apply acted_uniq.
  - apply acted_mutex.
  - apply acted_hand.
  - apply acted_settled.
  - apply acted_in_time.
  - apply acted_last.
  - intros j q Hq. destruct (decide (j = i)) as [->|Hne].
    + rewrite acted_lookup in Hq. simplify_eq. apply acted_proc_self.
    + rewrite acted_lookup_ne in Hq by done. by apply acted_proc_other.
Qed.
End EventStep.

(** ** The invariant in every reachable state *)
Section OtherSteps.
Variables NUMTEAMPLAYERS NUMTEAMGOALIES : Z.
Hypothesis players_nonneg : 0 <= NUMTEAMPLAYERS.
Hypothesis goalies_nonneg : 0 <= NUMTEAMGOALIES.

(** What is true of a process depends on the others through their views
    and on the system through the shared region. *)
Lemma proc_ok_ext σ σ' j q q' :
  shared σ' = shared σ →
  (∀ ci pc, procs σ !! ci = Some pc →
     ∃ pc', procs σ' !! ci = Some pc' ∧ view_of pc' = view_of pc) →
  p_kind q' = p_kind q → p_id q' = p_id q → view_of q' = view_of q →
  p_by q' = p_by q →
  (∀ m, phase_ok NUMTEAMPLAYERS NUMTEAMGOALIES q m →
        phase_ok NUMTEAMPLAYERS NUMTEAMGOALIES q' m) →
  proc_ok NUMTEAMPLAYERS NUMTEAMGOALIES σ j q →
  proc_ok NUMTEAMPLAYERS NUMTEAMGOALIES σ' j q'.
Proof.
  intros Hsh Hprocs Hk Hid Hview Hby Hph.
  intros (Hv & (m0 & [Hs1 Hs2] & Hph0) & Hent & Htm & Hrd & Hown & Hby1 & Hrec).
  unfold proc_ok, by_ok, sees. rewrite Hk, Hid, Hview, Hby, Hsh.
  split; [done|]. split; [exists m0; by auto|].
  split; [done|]. split; [done|]. split; [done|]. split; [done|]. split; [done|].
  intros Hrl. destruct (Hrec Hrl) as (ci & pc & Hci & Hne & Hpc & Hrb).
  destruct (Hprocs _ _ Hpc) as (pc' & Hpc' & Hvc). exists ci, pc'.
  by rewrite Hvc.
Qed.

Lemma total_ext (f : proc → nat) σ σ' :
  (∀ ci, option_map f (procs σ' !! ci) = option_map f (procs σ !! ci)) →
  total f σ' = total f σ.
Proof.
  unfold total. generalize (procs σ) (procs σ'). intros l l'.
  revert l. induction l' as [|a l' IH]; intros [|b l] Hall; simpl; try done.
  - specialize (Hall O). done.
  - specialize (Hall O). done.
  - pose proof (Hall O) as H0. simpl in H0. injection H0 as ->.
    rewrite (IH l); [done|]. intros ci. apply (Hall (S ci)).
Qed.

(** The invariant after the return from an operation. *)
Lemma invariant_moved σ i p ph' :
  invariant NUMTEAMPLAYERS NUMTEAMGOALIES σ →
  procs σ !! i = Some p →
  returns NUMTEAMPLAYERS NUMTEAMGOALIES (p_kind p) (p_id p) (p_phase p) ph' →
  invariant NUMTEAMPLAYERS NUMTEAMGOALIES (moved σ i p ph').
Proof.
  intros Hinv Hp Hret.
  set (p' := Proc (p_kind p) (p_id p) ph' (p_trace p) (p_by p)).
  assert (Hi : procs (moved σ i p ph') !! i = Some p').
  { simpl. apply list_lookup_insert_eq. by eapply lookup_lt_Some. }
  assert (Hne : ∀ j, j ≠ i → procs (moved σ i p ph') !! j = procs σ !! j).
  { intros j Hj. simpl. by apply list_lookup_insert_ne. }
  assert (Hviews : ∀ ci pc, procs σ !! ci = Some pc →
            ∃ pc', procs (moved σ i p ph') !! ci = Some pc' ∧
                   view_of pc' = view_of pc ∧ p_kind pc' = p_kind pc ∧
                   p_id pc' = p_id pc).
  { intros ci pc Hpc. destruct (decide (ci = i)) as [->|Hci].
    - exists p'. rewrite Hp in Hpc. injection Hpc as <-. done.
    - exists pc. by rewrite Hne. }
  assert (Htot : ∀ f, f p' = f p → total f (moved σ i p ph') = total f σ).
  { intros f Hf. pose proof (total_insert f σ i p p' (shared σ) (sems σ)
                               (referee_in σ) (last_up σ) Hp) as Ht.
    unfold moved. fold p'. lia. }
  split.
  - intros j1 j2 q1 q2 H1 H2 Hk Hid.
    destruct (decide (j1 = i)) as [->|Hn1], (decide (j2 = i)) as [->|Hn2]; [done| | |].
    + rewrite Hi in H1. rewrite Hne in H2 by done. simplify_eq/=.
      by eapply (inv_uniq _ _ _ Hinv).
    + rewrite Hi in H2. rewrite Hne in H1 by done. simplify_eq/=.
      by eapply (inv_uniq _ _ _ Hinv).
    + rewrite Hne in H1, H2 by done. by eapply (inv_uniq _ _ _ Hinv).
  - rewrite Htot by done. apply (inv_mutex _ _ _ Hinv).
  - rewrite !Htot by done. apply (inv_hand _ _ _ Hinv).
  - rewrite Htot by done. apply (inv_settled _ _ _ Hinv).
  - intros k. rewrite Htot by done. apply (inv_in_time _ _ _ Hinv).
  - intros s Hs Hpos.
    destruct (inv_last _ _ _ Hinv s Hs Hpos) as (ci & pc & Hlu & Hpc & Hh & Hrel).
    destruct (Hviews _ _ Hpc) as (pc' & Hpc' & Hvc & _).
    exists ci, pc'. by rewrite Hvc.
  - intros j q Hq.
    assert (Hv' : ∀ ci pc, procs σ !! ci = Some pc →
              ∃ pc', procs (moved σ i p ph') !! ci = Some pc' ∧
                     view_of pc' = view_of pc).
    { intros ci pc Hpc. destruct (Hviews _ _ Hpc) as (pc' & ? & ? & _). by exists pc'. }
    destruct (decide (j = i)) as [->|Hj].
    + rewrite Hi in Hq. injection Hq as <-.
      pose proof (inv_proc _ _ _ Hinv _ _ Hp) as Hok.
      apply (proc_ok_ext σ _ i p p'); try done.
      intros m0 Hph. destruct Hok as (_ & _ & _ & Htm & Hrd & _).
      by apply phase_ok_returns.
    + rewrite Hne in Hq by done.
      by apply (proc_ok_ext σ _ j q q); try done; apply (inv_proc _ _ _ Hinv).
Qed.

(** The invariant after a step of the referee. *)
Lemma invariant_referee σ σ' sm r :
  invariant NUMTEAMPLAYERS NUMTEAMGOALIES σ →
  σ' = Sys (shared σ) sm (procs σ) r (last_up σ) →
  (sm mutex + b2n r = sems σ mutex + b2n (referee_in σ))%nat →
  sm playersWaitTeam = sems σ playersWaitTeam →
  sm goaliesWaitTeam = sems σ goaliesWaitTeam →
  sm playerRegistered = sems σ playerRegistered →
  invariant NUMTEAMPLAYERS NUMTEAMGOALIES σ'.
Proof.
  intros Hinv -> Hm Hp Hg Hr. split; simpl.
  - apply (inv_uniq _ _ _ Hinv).
  - pose proof (inv_mutex _ _ _ Hinv). unfold total in *. simpl. lia.
  - pose proof (inv_hand _ _ _ Hinv). unfold total in *. simpl. lia.
  - apply (inv_settled _ _ _ Hinv).
  - apply (inv_in_time _ _ _ Hinv).
  - intros s Hs. destruct s; try discriminate; rewrite ?Hp, ?Hg;
      apply (inv_last _ _ _ Hinv); done.
  - intros j q Hq. apply (proc_ok_ext σ _ j q q); try done.
    + intros ci pc Hpc. by exists pc.
    + by apply (inv_proc _ _ _ Hinv).
Qed.

Lemma invariant_fire σ a σ' :
  invariant NUMTEAMPLAYERS NUMTEAMGOALIES σ →
  fire NUMTEAMPLAYERS NUMTEAMGOALIES σ a = Some σ' →
  invariant NUMTEAMPLAYERS NUMTEAMGOALIES σ'.
Proof.
  intros Hinv Hfire. destruct a as [i|s|s].
  - apply fire_act in Hfire
      as (p & Hp & [(ph' & Hret & ->)|(e & ph' & sm & Hruns & Hsem & ->)]).
    + by apply invariant_moved.
    + by apply invariant_acted.
  - simpl in Hfire.
    destruct (referee_sem s && negb (bool_decide (s = mutex) && referee_in σ))
      eqn:Hguard; [|done].
    apply andb_prop in Hguard as [Hs Hg].
    destruct (sems σ s) as [|n] eqn:Hn; simpl in Hfire; [done|]. simplify_eq.
    eapply invariant_referee; [done|reflexivity|..];
      destruct s; try discriminate; unfold set_at; simpl; try done.
    destruct (referee_in σ); [done|]. rewrite Hn. simpl. lia.
  - simpl in Hfire.
    destruct (referee_sem s && (negb (bool_decide (s = mutex)) || referee_in σ))
      eqn:Hguard; [|done].
    apply andb_prop in Hguard as [Hs Hg]. simpl in Hfire. simplify_eq.
    eapply invariant_referee; [done|reflexivity|..];
      destruct s; try discriminate; unfold set_at; simpl; try done.
    destruct (referee_in σ); [|done]. simpl. lia.
Qed.

Lemma invariant_initial σ :
  initial σ → invariant NUMTEAMPLAYERS NUMTEAMGOALIES σ.
Proof.
  intros (Hpa & Hga & Hpf & Hgf & Hid & Hsems & Href & Hprocs & Huniq).
  assert (Hview : ∀ j q, procs σ !! j = Some q → view_of q = view0).
  { intros j q Hq. destruct (Hprocs _ _ Hq) as (_ & Htr & _).
    unfold view_of. by rewrite Htr. }
  assert (Hzero : ∀ f, (∀ q, view_of q = view0 → f q = 0%nat) → total f σ = 0%nat).
  { intros f Hf. apply sum_list_with_all_zero. intros j q Hq.
    apply Hf. by eapply Hview. }
  split.
  - done.
  - rewrite Hzero, Hsems, Href; [done|]. intros q Hq. unfold holds. by rewrite Hq.
  - rewrite !Hzero, !Hsems; [done| |].
    + intros q Hq. unfold pends. by rewrite Hq.
    + intros q Hq. unfold wakes. by rewrite Hq.
  - intros _. unfold settled. rewrite Hpa, Hga, Hpf, Hgf, Hid. lia.
  - intros k. rewrite Hzero.
    + destruct k; simpl; rewrite ?Hpa, ?Hga; lia.
    + intros q Hq. unfold in_time. rewrite Hq. simpl. by case_decide.
  - intros s Hs. rewrite Hsems. destruct s; try discriminate; simpl; lia.
  - intros j q Hq. destruct (Hprocs _ _ Hq) as (Hph & Htr & Hby).
    unfold proc_ok, by_ok. rewrite (Hview _ _ Hq), Hby. simpl.
    split.
    { unfold view_ok. simpl. repeat split; try done; try lia.
      - intros [?|?]; done.
      - apply (bool_decide_unpack _). by vm_compute. }
    split.
    { exists (shared σ). split; [by split|]. unfold phase_ok.
      rewrite Hph, (Hview _ _ Hq). apply (arrive_protocol _ _ _ _ _ empty_region). }
    repeat split; try done. intros [?|?]; done.
Qed.

(** Every reachable state of the system satisfies the invariant. *)
Lemma reachable_invariant σ :
  reachable NUMTEAMPLAYERS NUMTEAMGOALIES σ →
  invariant NUMTEAMPLAYERS NUMTEAMGOALIES σ.
Proof.
  induction 1 as [σ Hinit|σ a σ' _ IH Hfire].
  - by apply invariant_initial.
  - by eapply invariant_fire.
Qed.
End OtherSteps.

(** ** Schedules *)

(** The system after the actions of a schedule, one after the other; an
    action that cannot fire (a [semDown] on a semaphore at zero, a process
    that has ended) is skipped. *)
Definition drive (NUMTEAMPLAYERS NUMTEAMGOALIES : Z) (σ : system) (l : list action)
  : system :=
  foldl (λ σ a, default σ (fire NUMTEAMPLAYERS NUMTEAMGOALIES σ a)) σ l.

(** [n] steps of process [i]. *)
Definition steps (n i : nat) : list action := replicate n (Act i).

Lemma reachable_drive NUMTEAMPLAYERS NUMTEAMGOALIES σ l :
  reachable NUMTEAMPLAYERS NUMTEAMGOALIES σ →
  reachable NUMTEAMPLAYERS NUMTEAMGOALIES (drive NUMTEAMPLAYERS NUMTEAMGOALIES σ l).
Proof.
  revert σ. induction l as [|a l IH]; intros σ Hσ; simpl; [done|].
  apply IH. destruct (fire NUMTEAMPLAYERS NUMTEAMGOALIES σ a) as [σ'|] eqn:Hf; simpl.
  - by eapply reach_step.
  - done.
Qed.

Lemma lookup_boot players goalies m i p :
  procs (boot players goalies m) !! i = Some p →
  (i < players)%nat ∧ p = Proc Player i (InArrive (arrive Player i)) [] None ∨
  (players <= i)%nat ∧
  p = Proc Goalie (i - players) (InArrive (arrive Goalie (i - players))) [] None.
Proof.
  unfold boot. simpl. intros Hi.
  apply lookup_app_Some in Hi as [Hi|[Hle Hi]]; [left|right].
  - rewrite list_lookup_fmap in Hi.
    destruct (seq 0 players !! i) as [x|] eqn:Hx; [|done].
    apply lookup_seq in Hx as [-> ?]. simpl in Hi. by simplify_eq.
  - rewrite length_map, length_seq in Hle, Hi.
    rewrite list_lookup_fmap in Hi.
    destruct (seq 0 goalies !! (i - players)%nat) as [x|] eqn:Hx; [|done].
    apply lookup_seq in Hx as [-> ?]. simpl in Hi. by simplify_eq.
Qed.

(** The system [boot] launches is an initial one. *)
Lemma initial_boot players goalies :
  initial (boot players goalies (fresh_region players goalies)).
Proof.
  unfold initial. do 7 (split; [done|]). split.
  - intros i p Hi. by apply lookup_boot in Hi as [[_ ->]|[_ ->]].
  - intros i j p q Hi Hj Hk Hid.
    apply lookup_boot in Hi as [[? ->]|[? ->]], Hj as [[? ->]|[? ->]];
      simpl in *; try done; lia.
Qed.

(** ** Team ids, capacity and life cycles in every run *)

(** An actor of kind [k] that [constituteTeam] has put in a team. *)
Definition admitted (k : Kind) (p : proc) : nat :=
  if decide (p_kind p = k) then
    match team_of (p_phase p) with
    | Some t => if decide (t = 0) then 0%nat else 1%nat
    | None => 0%nat
    end
  else 0%nat.

(** The schedule of one team of two players and one goalie: the goalie and
    player 0 arrive and wait for a team, player 1 forms it. *)
Definition one_team : list action :=
  steps 40 2 ++ steps 40 0 ++ steps 40 1 ++ steps 40 0 ++ steps 40 1 ++
  steps 40 2 ++ steps 40 1 ++ steps 40 0 ++ steps 40 2.

(** Five players and three goalies for teams of two players and one goalie:
    each runs as far as it can, in turn, six times over. *)
Definition full_house : list action :=
  concat (replicate 6 (flat_map (steps 40) (seq 0 8))).

Ltac not_listed H :=
  repeat (apply elem_of_cons in H as [H|H]; [discriminate|]);
  by apply elem_of_nil in H.

Section Claims.
Variables NUMTEAMPLAYERS NUMTEAMGOALIES : Z.
Hypothesis players_nonneg : 0 <= NUMTEAMPLAYERS.
Hypothesis goalies_nonneg : 0 <= NUMTEAMGOALIES.

Lemma returned_team σ i p t :
  invariant NUMTEAMPLAYERS NUMTEAMGOALIES σ → procs σ !! i = Some p →
  team_of (p_phase p) = Some t →
  (t = 0 ∧ v_hist (view_of p) = [LATE; ARRIVING] ∧
   ∃ n, v_arr (view_of p) = Some n ∧
        2 * perTeam NUMTEAMPLAYERS NUMTEAMGOALIES (p_kind p) < n) ∨
  has_team NUMTEAMPLAYERS NUMTEAMGOALIES (p_kind p) (view_of p) t.
Proof.
  intros Hinv Hp Ht.
  destruct (inv_proc _ _ _ Hinv _ _ Hp) as (_ & (m0 & _ & Hph) & _).
  unfold phase_ok in Hph. destruct (p_phase p) as [c|c|t' c|t' c|t']; simplify_eq/=.
  - right. by destruct Hph.
  - right. by destruct Hph.
  - destruct Hph as [(-> & e & n & Hs & Hn)|[Hteam _]]; [left|by right].
    rewrite Hs. simpl. split; [done|]. split; [done|]. by exists n.
Qed.

(** C3. A recruit, that is an actor that has marked itself [WAITING_TEAM],
    returns from [constituteTeam] the team id of the captain whose [semUp]
    released it: that captain has marked itself [FORMING_TEAM]; the id it has
    reserved ([ret = teamId++]) is the one the recruit returns, and so is the
    id it returns from its own [constituteTeam]; as long as it has not
    reserved it, it is inside its critical region and the recruit's id is the
    [teamId] of the shared region. *)
Theorem recruit_joins_team_of_captain σ r pr v :
  reachable NUMTEAMPLAYERS NUMTEAMGOALIES σ →
  procs σ !! r = Some pr →
  WAITING_TEAM ∈ v_hist (view_of pr) →
  team_of (p_phase pr) = Some v →
  (v = 1 ∨ v = 2) ∧
  ∃ c pc,
    p_by pr = Some c ∧ c ≠ r ∧ procs σ !! c = Some pc ∧
    FORMING_TEAM ∈ v_hist (view_of pc) ∧
    (∀ t, v_team (view_of pc) = Some t → t = v) ∧
    (∀ t, team_of (p_phase pc) = Some t → t = v) ∧
    (v_team (view_of pc) = None →
       v_held (view_of pc) = true ∧ teamId (shared σ) = v).
Proof.
  intros Hreach Hpr Hwait Hv.
  pose proof (reachable_invariant _ _ players_nonneg goalies_nonneg _ Hreach) as Hinv.
  destruct (inv_proc _ _ _ Hinv _ _ Hpr) as (Hview & _ & _ & _ & _ & _ & _ & Hrec).
  destruct Hview as (_ & _ & _ & _ & Htf & _ & Hlc).
  destruct (returned_team _ _ _ _ Hinv Hpr Hv)
    as [(_ & Hh & _)|(_ & Hteam & Hrange & _)].
  { rewrite Hh in Hwait. not_listed Hwait. }
  split; [done|].
  destruct Hteam as [Hteam|Hread].
  { destruct (life_cycle_exclusive _ Hlc); [|done]. apply Htf. congruence. }
  destruct Hrec as (c & pc & Hby & Hne & Hpc & Hrel & _ & Hrd);
    [right; congruence|].
  destruct (Hrd v Hread) as [Hnone Hsome].
  destruct (inv_proc _ _ _ Hinv _ _ Hpc) as (Hview & _).
  destruct Hview as (_ & _ & _ & Hrf & _ & Hww & Hlc').
  exists c, pc. do 4 (split; [by auto|]). split; [done|]. split; [|done].
  intros t Ht.
  destruct (returned_team _ _ _ _ Hinv Hpc Ht)
    as [(_ & Hh & _)|(_ & [Hteam|Hread'] & _)].
  - specialize (Hrf Hrel). rewrite Hh in Hrf. not_listed Hrf.
  - by apply Hsome.
  - destruct (life_cycle_exclusive _ Hlc'); [by apply Hrf|].
    apply Hww. right. congruence.
Qed.


(** C7. The values an actor has written to its status entry, in the order
    of the writes, are the beginning of one of the life cycles
    [ARRIVING; LATE] and [ARRIVING; FORMING_TEAM or WAITING_TEAM;
    WAITING_START_t; PLAYING_t], so none comes twice; the entry holds the
    last of them; a team member that has been through [playUntilEnd] has
    written the whole life cycle of the team [constituteTeam] returned, and
    an actor that got no team has written [ARRIVING; LATE] and nothing
    else. *)
Theorem status_life_cycle σ i p :
  reachable NUMTEAMPLAYERS NUMTEAMGOALIES σ →
  procs σ !! i = Some p →
  let h := v_hist (view_of p) in
  in_life_cycle (reverse h) ∧ NoDup h ∧
  (∀ x, head h = Some x → own_stat (p_kind p) (p_id p) (shared σ) = Some x) ∧
  (∀ t, p_phase p = Done t →
     (t = 0 ∧ h = [LATE; ARRIVING]) ∨
     ((t = 1 ∨ t = 2) ∧
      ∃ x, (x = FORMING_TEAM ∨ x = WAITING_TEAM) ∧
           h = [PLAYING t; WAITING_START t; x; ARRIVING])).
Proof.
  intros Hreach Hp h.
  pose proof (reachable_invariant _ _ players_nonneg goalies_nonneg _ Hreach) as Hinv.
  destruct (inv_proc _ _ _ Hinv _ _ Hp)
    as (Hview & (m0 & _ & Hph) & _ & _ & _ & Hown & _).
  destruct Hview as (_ & _ & _ & _ & _ & _ & Hlc).
  split; [done|]. split; [|split; [done|]].
  - rewrite <- (reverse_Permutation h). fold h in Hlc. revert Hlc.
    generalize (reverse h).
    intros l Hl. unfold in_life_cycle, life_cycles in Hl.
    rewrite !Exists_cons, Exists_nil in Hl.
    assert (Hpre : ∀ c, NoDup c → l `prefix_of` c → NoDup l).
    { intros c Hc [r ->]. by apply NoDup_app in Hc as [? _]. }
    destruct Hl as [H|[H|[H|[H|[H|[]]]]]]; (eapply Hpre; [|exact H]);
      apply (bool_decide_unpack _); by vm_compute.
  - intros t Hdone. unfold phase_ok in Hph. rewrite Hdone in Hph.
    destruct Hph as [(-> & e & n & Hs & _)|[Hteam Hrest]].
    + left. split; [done|]. unfold h. by rewrite Hs.
    + right. destruct Hteam as (_ & _ & Hrange & _). split; [done|].
      destruct Hrest as (x & rel & rd & tm & ar & e & Hx & _ & Hs).
      exists x. split; [done|]. unfold h. by rewrite Hs.
Qed.

(** X1. Mutual exclusion: two processes are never inside their critical
    regions at once, and while one is, the lock semaphore is at zero and the
    referee does not hold the lock. *)
Theorem mutual_exclusion σ i j p q :
  reachable NUMTEAMPLAYERS NUMTEAMGOALIES σ →
  procs σ !! i = Some p → procs σ !! j = Some q →
  v_held (view_of p) = true → v_held (view_of q) = true →
  i = j ∧ sems σ mutex = 0%nat ∧ referee_in σ = false.
Proof.
  intros Hreach Hp Hq Hhp Hhq.
  pose proof (reachable_invariant _ _ players_nonneg goalies_nonneg _ Hreach) as Hinv.
  split; [by eapply holder_unique|].
  by destruct (holder_locks _ _ _ Hinv _ _ Hp Hhp) as (? & ? & _).
Qed.
End Claims.

(** The referee starts and ends the match of the three actors of [one_team]. *)
Definition one_match : list action :=
  one_team ++
  [RefereeDown refereeWaitTeams] ++ replicate 3 (RefereeUp playersWaitReferee) ++
  steps 40 0 ++ steps 40 1 ++ steps 40 2 ++
  replicate 3 (RefereeUp playersWaitEnd) ++
  steps 40 0 ++ steps 40 1 ++ steps 40 2.

Lemma reachable_boot NUMTEAMPLAYERS NUMTEAMGOALIES players goalies l :
  reachable NUMTEAMPLAYERS NUMTEAMGOALIES
    (drive NUMTEAMPLAYERS NUMTEAMGOALIES
       (boot players goalies (fresh_region players goalies)) l).
Proof. apply reachable_drive, reach_init, initial_boot. Qed.

Ltac listed := apply (bool_decide_unpack _); vm_compute; reflexivity.

Lemma recruit_joins_team_of_captain_witness :
  let σ := drive 2 1 (boot 2 1 (fresh_region 2 1)) one_team in
  ∃ pr,
    procs σ !! 0%nat = Some pr ∧
    WAITING_TEAM ∈ v_hist (view_of pr) ∧ team_of (p_phase pr) = Some 1 ∧
    p_by pr = Some 1%nat ∧
    ((1 = 1 ∨ 1 = 2) ∧
     ∃ c pc,
       p_by pr = Some c ∧ c ≠ 0%nat ∧ procs σ !! c = Some pc ∧
       FORMING_TEAM ∈ v_hist (view_of pc) ∧
       (∀ t, v_team (view_of pc) = Some t → t = 1) ∧
       (∀ t, team_of (p_phase pc) = Some t → t = 1) ∧
       (v_team (view_of pc) = None →
          v_held (view_of pc) = true ∧ teamId (shared σ) = 1)).
Proof.
  intros σ.
  destruct (procs σ !! 0%nat) as [pr|] eqn:Hpr; [|by vm_compute in Hpr].
  exists pr. split; [done|].
  assert (Hpr' := Hpr). vm_compute in Hpr'. injection Hpr' as Heq.
  assert (Hwait : WAITING_TEAM ∈ v_hist (view_of pr)) by (rewrite <- Heq; listed).
  assert (Hteam : team_of (p_phase pr) = Some 1) by (by rewrite <- Heq).
  assert (Hby : p_by pr = Some 1%nat) by (by rewrite <- Heq).
  do 3 (split; [done|]).
  apply (recruit_joins_team_of_captain 2 1 ltac:(lia) ltac:(lia) σ 0 pr 1);
    [apply reachable_boot|done..].
Defined.


(** In [full_house] both teams form: four players and two goalies are
    admitted, the fifth player and the third goalie are late, and [teamId]
    ends at 3. *)
Example full_house_teams :
  let σ := drive 2 1 (boot 5 3 (fresh_region 5 3)) full_house in
  total (admitted Player) σ = 4%nat ∧ total (admitted Goalie) σ = 2%nat ∧
  teamId (shared σ) = 3 ∧ total holds σ = 0%nat ∧
  map (λ p, team_of (p_phase p)) (procs σ) =
    [Some 1; Some 1; Some 2; Some 2; Some 0; Some 1; Some 2; Some 0] ∧
  map p_by (procs σ) =
    [Some 5; Some 5; Some 6; Some 6; None; None; None; None]%nat.
Proof. by vm_compute. Qed.

Lemma status_life_cycle_witness :
  let σ := drive 2 1 (boot 2 1 (fresh_region 2 1)) one_match in
  ∃ p,
    procs σ !! 0%nat = Some p ∧ p_phase p = Done 1 ∧
    let h := v_hist (view_of p) in
    in_life_cycle (reverse h) ∧ NoDup h ∧
    (∀ x, head h = Some x → own_stat (p_kind p) (p_id p) (shared σ) = Some x) ∧
    (∀ t, p_phase p = Done t →
       (t = 0 ∧ h = [LATE; ARRIVING]) ∨
       ((t = 1 ∨ t = 2) ∧
        ∃ x, (x = FORMING_TEAM ∨ x = WAITING_TEAM) ∧
             h = [PLAYING t; WAITING_START t; x; ARRIVING])).
Proof.
  intros σ.
  destruct (procs σ !! 0%nat) as [p|] eqn:Hp; [|by vm_compute in Hp].
  exists p. split; [done|].
  assert (Hp' := Hp). vm_compute in Hp'. injection Hp' as Heq.
  split; [by rewrite <- Heq|].
  apply (status_life_cycle 2 1 ltac:(lia) ltac:(lia) σ 0 p);
    [apply reachable_boot|done].
Defined.

(** The status entries at the end of [one_match]. *)
Example one_match_statuses :
  let σ := drive 2 1 (boot 2 1 (fresh_region 2 1)) one_match in
  map (λ p, reverse (v_hist (view_of p))) (procs σ) =
    [ [ARRIVING; WAITING_TEAM; WAITING_START_1; PLAYING_1];
      [ARRIVING; FORMING_TEAM; WAITING_START_1; PLAYING_1];
      [ARRIVING; WAITING_TEAM; WAITING_START_1; PLAYING_1] ] ∧
  st (shared σ) = mkSTAT [PLAYING_1; PLAYING_1] [PLAYING_1].
Proof. by vm_compute. Qed.

(** The captain of [one_team] inside its critical region, waiting for the
    acknowledgment of its first recruit. *)
Lemma mutual_exclusion_witness :
  let σ := drive 2 1 (boot 2 1 (fresh_region 2 1))
             (steps 40 2 ++ steps 40 0 ++ steps 40 1) in
  ∃ p,
    procs σ !! 1%nat = Some p ∧ v_held (view_of p) = true ∧
    (1%nat = 1%nat ∧ sems σ mutex = 0%nat ∧ referee_in σ = false).
Proof.
  intros σ.
  destruct (procs σ !! 1%nat) as [p|] eqn:Hp; [|by vm_compute in Hp].
  exists p. split; [done|].
  assert (Hp' := Hp). vm_compute in Hp'. injection Hp' as Heq.
  assert (Hh : v_held (view_of p) = true) by (by rewrite <- Heq).
  split; [done|].
  apply (mutual_exclusion 2 1 ltac:(lia) ltac:(lia) σ 1 1 p p);
    [apply reachable_boot|done..].
Defined.

(** ** The operations, one by one *)

Lemma write_stat_in_pool k id v m :
  is_Some (own_stat k id m) → is_Some (write_stat k id v m).
Proof.
  intros Hown. destruct k; simpl in *; apply lookup_lt_is_Some in Hown;
    unfold write_playerStat, write_goalieStat; rewrite decide_True by done;
    by eexists.
Qed.

(** X2. For an actor of the pool (its id is an index of the status array of
    its kind), [arrive] runs to its end, and every complete execution of it
    is one critical region in which the actor writes ARRIVING to its own
    status entry and saves the state, followed by the sleep outside of it;
    no event changes a counter, the team id or the entry of another
    actor. *)
Theorem arrive_marks_arriving k id m0 :
  is_Some (own_stat k id m0) →
  (∃ tr, run (arrive k id) m0 = Some (tr, tt)) ∧
  ∀ tr, exec k id false m0 (arrive k id) tr (Ret tt) →
    ∃ m1 m2 m3,
      write_stat k id ARRIVING m1 = Some m2 ∧
      tr = [Ev (OpDown mutex) m1 m1; Ev OpStore m1 m2; Ev OpSave m2 m2;
            Ev (OpUp mutex) m2 m2; Ev OpSleep m3 m3] ∧
      own_stat k id m2 = Some ARRIVING ∧
      Forall (frame k id) tr.
Proof.
  intros Hown. split.
  { destruct (write_stat_in_pool k id ARRIVING m0 Hown) as [m' Hw].
    destruct k; simpl in *; rewrite Hw; simpl; by eexists. }
  intros tr Hex. from_program Hex.
  destruct k; simpl; repeat obeys_next; unfold record; simpl.
  - exists m, m1, m2. split; [done|]. split; [done|].
    split; [by eapply (write_stat_own Player)|].
    repeat (apply Forall_cons_2;
              [first [apply frame_same | by apply (frame_write Player id ARRIVING)]|]).
    apply Forall_nil_2.
  - exists m, m1, m2. split; [done|]. split; [done|].
    split; [by eapply (write_stat_own Goalie)|].
    repeat (apply Forall_cons_2;
              [first [apply frame_same | by apply (frame_write Goalie id ARRIVING)]|]).
    apply Forall_nil_2.
Qed.

Lemma arrive_marks_arriving_witness :
  is_Some (own_stat Goalie 1 demo_region) ∧
  (∃ tr, run (arrive Goalie 1) demo_region = Some (tr, tt)) ∧
  ∀ tr, exec Goalie 1 false demo_region (arrive Goalie 1) tr (Ret tt) →
    ∃ m1 m2 m3,
      write_stat Goalie 1 ARRIVING m1 = Some m2 ∧
      tr = [Ev (OpDown mutex) m1 m1; Ev OpStore m1 m2; Ev OpSave m2 m2;
            Ev (OpUp mutex) m2 m2; Ev OpSleep m3 m3] ∧
      own_stat Goalie 1 m2 = Some ARRIVING ∧
      Forall (frame Goalie 1) tr.
Proof.
  assert (Hown : is_Some (own_stat Goalie 1 demo_region)) by (by eexists).
  split; [done|]. by apply (arrive_marks_arriving Goalie 1%nat demo_region).
Defined.

(** The semaphore on which the recruits of a kind wait for a captain. *)
Definition wait_team (k : Kind) : Sem :=
  match k with Player => playersWaitTeam | Goalie => goaliesWaitTeam end.

Section Roles.
Variables NUMTEAMPLAYERS NUMTEAMGOALIES : Z.

Ltac pick_go :=
  simpl; rewrite ?pick_app, ?pick_concat_replicate, ?pick_replicate; simpl.

Ltac find_event :=
  simpl;
  repeat first [ apply list_elem_of_here | apply list_elem_of_further
               | (apply elem_of_app; right) ].

Ltac by_role k Hf :=
  unfold formation in Hf;
  destruct k, (role_of NUMTEAMPLAYERS NUMTEAMGOALIES _ _);
  [destruct Hf as (m4 & m6 & m7 & Hw & -> & ->)
  |destruct Hf as (m4 & m8 & m9 & m10 & Hw & -> & ->)
  |destruct Hf as (m4 & m6 & m7 & m8 & m9 & Hw & -> & ->)
  |destruct Hf as (m4 & m6 & m7 & Hw & -> & ->)
  |destruct Hf as (m4 & m8 & m9 & Hw & -> & ->)
  |destruct Hf as (m4 & m5 & m6 & m7 & m8 & m9 & Hw & -> & ->)].

(** X3. In every complete execution of [constituteTeam], an actor that is
    in time and does not find enough free players and goalies for a team
    marks itself WAITING_TEAM in a critical region that adds one to the
    arrivals and to the free actors of its kind and changes no other
    counter; it then waits once on the semaphore of its kind, reads
    [teamId], acknowledges once on [playerRegistered] and returns the value
    read. *)
Theorem recruit_waits_for_captain k id m0 tr v :
  exec k id false m0 (constituteTeam NUMTEAMPLAYERS NUMTEAMGOALIES k id) tr (Ret v) →
  ∃ m1, head tr = Some (Ev (OpDown mutex) m1 m1) ∧
    (role_of NUMTEAMPLAYERS NUMTEAMGOALIES k (counted k m1) = IsRecruit →
     sem_ops tr = [OpDown mutex; OpUp mutex; OpDown (wait_team k);
                   OpUp playerRegistered] ∧
     (∃ m4, Ev (OpUp mutex) m4 m4 ∈ tr ∧
            own_stat k id m4 = Some WAITING_TEAM ∧
            arrived k m4 = arrived k m1 + 1 ∧ free k m4 = free k m1 + 1 ∧
            arrived (other k) m4 = arrived (other k) m1 ∧
            free (other k) m4 = free (other k) m1 ∧
            teamId m4 = teamId m1) ∧
     ∃ pre m7 m8 m9,
       tr = pre ++ [Ev (OpDown (wait_team k)) m7 m7; Ev OpLoad m8 m8;
                    Ev (OpUp playerRegistered) m9 m9] ∧
       v = teamId m8).
Proof.
  intros Hex. apply constituteTeam_runs in Hex as [m1 Hf]. exists m1.
  by_role k Hf; unfold player_entry, goalie_entry; (split; [reflexivity|]);
    try discriminate; intros _; (split; [reflexivity|]).
  - split.
    + exists m4. split; [find_event|].
      pose proof (write_stat_own Player _ _ _ _ Hw) as Hown.
      destruct (write_stat_counters Player _ _ _ _ Hw) as (Ha & Hfr & Hga & Hgf & Ht).
      simpl in *. rewrite Ha, Hfr, Hga, Hgf, Ht. simpl. done.
    + eexists [_; _; _; _; _; _; _; _; _], m7, m8, m9. by split.
  - split.
    + exists m4. split; [find_event|].
      pose proof (write_stat_own Goalie _ _ _ _ Hw) as Hown.
      destruct (write_stat_counters Goalie _ _ _ _ Hw) as (Ha & Hfr & Hga & Hgf & Ht).
      simpl in *. rewrite Ha, Hfr, Hga, Hgf, Ht. simpl. done.
    + eexists [_; _; _; _; _; _; _; _; _; _], m7, m8, m9. by split.
Qed.

(** X4. In every complete execution of [constituteTeam] a captain performs,
    between [semDown (mutex)] and [semUp (mutex)], the handshake with its
    recruits and nothing else on the semaphores, and signals
    [refereeWaitTeams] once, after it has left the critical region, as its
    last action; it returns the [teamId] it found on entering the critical
    region and leaves it increased by one, with its status FORMING_TEAM. An
    actor that is not a captain never signals [refereeWaitTeams]. *)
Theorem captain_notifies_referee k id m0 tr v :
  exec k id false m0 (constituteTeam NUMTEAMPLAYERS NUMTEAMGOALIES k id) tr (Ret v) →
  ∃ m1, head tr = Some (Ev (OpDown mutex) m1 m1) ∧
    match role_of NUMTEAMPLAYERS NUMTEAMGOALIES k (counted k m1) with
    | IsCaptain =>
        sem_ops tr = [OpDown mutex] ++ captain_handshake NUMTEAMPLAYERS k ++
                     [OpUp mutex; OpUp refereeWaitTeams] ∧
        count_op (OpUp refereeWaitTeams) tr = 1%nat ∧
        (∃ m, last tr = Some (Ev (OpUp refereeWaitTeams) m m)) ∧
        v = teamId m1 ∧
        ∃ m7, Ev (OpUp mutex) m7 m7 ∈ tr ∧ teamId m7 = teamId m1 + 1 ∧
              own_stat k id m7 = Some FORMING_TEAM
    | _ => count_op (OpUp refereeWaitTeams) tr = 0%nat
    end.
Proof.
  intros Hex. apply constituteTeam_runs in Hex as [m1 Hf]. exists m1.
  by_role k Hf; unfold player_entry, goalie_entry, count_op, sem_ops;
    (split; [reflexivity|]); try (pick_go; done).
  - destruct (write_stat_counters Player _ _ _ _ Hw) as (Ha & Hfr & Hga & Hgf & Ht).
    pose proof (write_stat_own Player _ _ _ _ Hw) as Hown.
    split; [pick_go; f_equal; by rewrite <- app_assoc|]. split.
    { pick_go. rewrite !length_app, length_concat_replicate. simpl. lia. }
    split; [eexists; rewrite !last_app; reflexivity|].
    split; [simpl; by rewrite Ht|].
    eexists. split; [find_event|]. simpl. by rewrite Ht.
  - destruct (write_stat_counters Goalie _ _ _ _ Hw) as (Ha & Hfr & Hga & Hgf & Ht).
    pose proof (write_stat_own Goalie _ _ _ _ Hw) as Hown.
    split; [pick_go; f_equal; by rewrite <- app_assoc|]. split; [by pick_go|].
    split; [eexists; rewrite !last_app; reflexivity|].
    split; [simpl; by rewrite Ht|].
    eexists. split; [find_event|]. simpl. by rewrite Ht.
Qed.
End Roles.

Lemma recruit_waits_for_captain_witness :
  ∃ tr v,
    run (constituteTeam 2 1 Goalie 0) demo_region = Some (tr, v) ∧
    ∃ m1, head tr = Some (Ev (OpDown mutex) m1 m1) ∧
      role_of 2 1 Goalie (counted Goalie m1) = IsRecruit ∧
      (role_of 2 1 Goalie (counted Goalie m1) = IsRecruit →
       sem_ops tr = [OpDown mutex; OpUp mutex; OpDown (wait_team Goalie);
                     OpUp playerRegistered] ∧
       (∃ m4, Ev (OpUp mutex) m4 m4 ∈ tr ∧
              own_stat Goalie 0 m4 = Some WAITING_TEAM ∧
              arrived Goalie m4 = arrived Goalie m1 + 1 ∧
              free Goalie m4 = free Goalie m1 + 1 ∧
              arrived (other Goalie) m4 = arrived (other Goalie) m1 ∧
              free (other Goalie) m4 = free (other Goalie) m1 ∧
              teamId m4 = teamId m1) ∧
       ∃ pre m7 m8 m9,
         tr = pre ++ [Ev (OpDown (wait_team Goalie)) m7 m7; Ev OpLoad m8 m8;
                      Ev (OpUp playerRegistered) m9 m9] ∧
         v = teamId m8).
Proof.
  eexists _, _. split; [vm_compute; reflexivity|].
  destruct (recruit_waits_for_captain 2 1 Goalie 0%nat demo_region
              _ _ ltac:(apply run_exec; vm_compute; reflexivity))
    as (m1 & Hhead & Hrec).
  exists m1. split; [done|]. split; [|done].
  vm_compute in Hhead. injection Hhead as <-. by vm_compute.
Defined.

Lemma captain_notifies_referee_witness :
  ∃ tr v,
    run (constituteTeam 2 1 Player 1) one_each_waiting = Some (tr, v) ∧
    ∃ m1, head tr = Some (Ev (OpDown mutex) m1 m1) ∧
      match role_of 2 1 Player (counted Player m1) with
      | IsCaptain =>
          sem_ops tr = [OpDown mutex] ++ captain_handshake 2 Player ++
                       [OpUp mutex; OpUp refereeWaitTeams] ∧
          count_op (OpUp refereeWaitTeams) tr = 1%nat ∧
          (∃ m, last tr = Some (Ev (OpUp refereeWaitTeams) m m)) ∧
          v = teamId m1 ∧
          ∃ m7, Ev (OpUp mutex) m7 m7 ∈ tr ∧ teamId m7 = teamId m1 + 1 ∧
                own_stat Player 1 m7 = Some FORMING_TEAM
      | _ => count_op (OpUp refereeWaitTeams) tr = 0%nat
      end.
Proof.
  eexists _, _. split; [vm_compute; reflexivity|].
  apply (captain_notifies_referee 2 1 Player 1%nat one_each_waiting).
  apply run_exec. vm_compute. reflexivity.
Defined.

(** The player that finds one player and one goalie waiting is a captain. *)
Example one_each_waiting_captain :
  role_of 2 1 Player (counted Player one_each_waiting) = IsCaptain.
Proof. reflexivity. Qed.

(** ** What is done inside the critical region and what outside *)

(** The lock is taken from outside the critical region and released from
    inside; the shared region is written and saved, the recruits are
    released and [playing] is signalled inside; the acknowledgment of a
    recruit, the signal to the referee and the sleep come outside. *)
Definition region_discipline (h : bool) (e : event) : Prop :=
  match ev_op e with
  | OpDown mutex => h = false
  | OpUp mutex | OpStore | OpSave => h = true
  | OpUp playersWaitTeam | OpUp goaliesWaitTeam | OpUp playing => h = true
  | OpUp playerRegistered | OpUp refereeWaitTeams | OpSleep => h = false
  | _ => True
  end.

Fixpoint disciplined (h : bool) (tr : list event) : Prop :=
  match tr with
  | [] => True
  | e :: tr' => region_discipline h e ∧ disciplined (held_after h (ev_op e)) tr'
  end.

Lemma follows_disciplined {S} (δ : S → event → S) h s tr :
  follows δ (λ h _ e, region_discipline h e) h s tr → disciplined h tr.
Proof.
  revert h s. induction tr as [|e tr IH]; intros h s; simpl; [done|].
  intros [He Htr]. eauto.
Qed.

Section Regions.
Variables NUMTEAMPLAYERS NUMTEAMGOALIES : Z.

(** An operation that keeps the discipline and returns outside the
    critical region. *)
Definition keeps (k : Kind) (id : nat) {A} (c : prog A) : Prop :=
  ∀ m, obeys k id (λ (_ : unit) _, tt) (λ h _ e, region_discipline h e) c false m tt
         (λ _ h _ _, h = false).

Ltac keeps_go :=
  repeat (first [obeys_next | split; [done|] | intros ? Hr | intros ? ? Hr Hw]; simpl).

Ltac branch :=
  match goal with |- context [if ?b then _ else _] => destruct b end; simpl.

Lemma arrive_keeps k id : keeps k id (arrive k id).
Proof. intros m. destruct k; simpl; keeps_go; done. Qed.

Lemma waitReferee_keeps k id team : keeps k id (waitReferee k id team).
Proof.
  intros m. destruct k; simpl; keeps_go;
    destruct (team =? 1); [|destruct (team =? 2)| |destruct (team =? 2)];
    simpl; keeps_go; done.
Qed.

Lemma playUntilEnd_keeps k id team : keeps k id (playUntilEnd k id team).
Proof.
  intros m. destruct k; simpl; keeps_go;
    destruct (team =? 1); [|destruct (team =? 2)| |destruct (team =? 2)];
    simpl; keeps_go; done.
Qed.

Lemma constituteTeam_keeps k id :
  keeps k id (constituteTeam NUMTEAMPLAYERS NUMTEAMGOALIES k id).
Proof.
  intros m. destruct k; simpl.
  - unfold Player.playerConstituteTeam. simpl. keeps_go. branch.
    + keeps_go. branch.
      * keeps_go. do 2 apply obeys_mbind.
        apply (obeys_for_loop _ _ _ _ (λ _ h _ _, h = true)); [done| |].
        { intros i h m' [] _ ->. simpl. keeps_go. done. }
        intros h m' [] ->. simpl. keeps_go.
        branch; keeps_go; [done|]. branch; keeps_go; done.
      * keeps_go. branch; keeps_go; [done|]. branch; keeps_go; done.
    + keeps_go. branch; keeps_go; [done|]. branch; keeps_go; done.
  - unfold Goalie.goalieConstituteTeam. simpl. keeps_go. branch.
    + keeps_go. branch.
      * keeps_go. do 2 apply obeys_mbind.
        apply (obeys_for_loop _ _ _ _ (λ _ h _ _, h = true)); [done| |].
        { intros i h m' [] _ ->. simpl. keeps_go. done. }
        intros h m' [] ->. simpl. apply obeys_mbind.
        apply (obeys_for_loop _ _ _ _ (λ _ h _ _, h = true)); [done| |].
        { intros i h m'' [] _ ->. simpl. keeps_go. done. }
        intros h m'' [] ->. simpl. keeps_go.
        branch; keeps_go; [done|]. branch; keeps_go; done.
      * keeps_go. branch; keeps_go; [done|]. branch; keeps_go; done.
    + keeps_go. branch; keeps_go; [done|]. branch; keeps_go; done.
Qed.

Lemma life_keeps k id : keeps k id (life NUMTEAMPLAYERS NUMTEAMGOALIES k id).
Proof.
  intros m.
  assert (Hb : ∀ {A B} (c : prog A) (f : A → prog B) m',
    keeps k id c → (∀ a, keeps k id (f a)) →
    obeys k id (λ (_ : unit) _, tt) (λ h _ e, region_discipline h e)
      (bind c f) false m' tt (λ _ h _ _, h = false)).
  { intros A B c f m' Hc Hf. apply obeys_bind.
    eapply obeys_mono; [|apply Hc]. intros a h m'' [] ->. apply Hf. }
  assert (Hl : keeps k id
    (bind (arrive k id) (λ _, bind (constituteTeam NUMTEAMPLAYERS NUMTEAMGOALIES k id)
       (λ team, if negb (team =? 0)
                then bind (waitReferee k id team)
                       (λ _, bind (playUntilEnd k id team) (λ _, Ret team))
                else Ret team)))).
  { intros m'. apply Hb; [apply arrive_keeps|]. intros _ m1.
    apply Hb; [apply constituteTeam_keeps|]. intros team m2.
    destruct (negb (team =? 0)); [|done].
    apply Hb; [apply waitReferee_keeps|]. intros _ m3.
    apply Hb; [apply playUntilEnd_keeps|]. by intros _ m4. }
  destruct k; apply Hl.
Qed.

(** X5. In every execution of the life cycle of a player or of a goalie,
    complete or not: the process takes the lock only when it does not hold
    it and releases it only when it holds it; every assignment to the
    shared region and every [saveState] is inside the critical region, and
    so are the releases of recruits and the signal on [playing]; the
    acknowledgment on [playerRegistered], the signal on [refereeWaitTeams]
    and the sleep are outside. A complete life cycle ends outside the
    critical region. *)
Theorem shared_region_written_under_lock k id m0 tr c :
  exec k id false m0 (life NUMTEAMPLAYERS NUMTEAMGOALIES k id) tr c →
  disciplined false tr ∧ (∀ v, c = Ret v → held_of false tr = false).
Proof.
  intros Hex.
  destruct (obeys_exec _ _ _ _ _ _ _ _ _ _ _ (life_keeps k id m0) Hex) as [Hf HQ].
  split; [by eapply follows_disciplined|]. by intros v ->.
Qed.
End Regions.

Lemma shared_region_written_under_lock_witness :
  ∃ tr v,
    run (life 2 1 Player 1) one_each_waiting = Some (tr, v) ∧
    disciplined false tr ∧ (∀ v', Ret v = Ret v' → held_of false tr = false).
Proof.
  eexists _, _. split; [vm_compute; reflexivity|].
  apply (shared_region_written_under_lock 2 1 Player 1%nat one_each_waiting).
  apply run_exec. vm_compute. reflexivity.
Defined.

(** ** Critical regions and saved states of a life cycle *)

(** The critical regions entered and left, the states saved and the sleeps
    of a trace. *)
Definition tally (tr : list event) : nat * nat * nat * nat :=
  (count_op (OpDown mutex) tr, count_op (OpUp mutex) tr,
   count_op OpSave tr, count_op OpSleep tr).

Definition tally_add (a b : nat * nat * nat * nat) : nat * nat * nat * nat :=
  let '(a1, a2, a3, a4) := a in
  let '(b1, b2, b3, b4) := b in
  (a1 + b1, a2 + b2, a3 + b3, a4 + b4)%nat.

Lemma count_op_app o tr1 tr2 :
  count_op o (tr1 ++ tr2) = (count_op o tr1 + count_op o tr2)%nat.
Proof. unfold count_op. by rewrite pick_app, length_app. Qed.

Lemma tally_app tr1 tr2 : tally (tr1 ++ tr2) = tally_add (tally tr1) (tally tr2).
Proof. unfold tally, tally_add. by rewrite !count_op_app. Qed.

(** The critical regions of a trace, read from its start to its end: the
    number of [saveState] in each region that has been left, in order, the
    number in the region the process is inside at the end, if any, and the
    number of [saveState] outside every region. *)
Definition regions_state : Type := list nat * option nat * nat.

Definition regions_step (s : regions_state) (e : event) : regions_state :=
  let '(closed, inside, outside) := s in
  match ev_op e, inside with
  | OpDown mutex, None => (closed, Some 0%nat, outside)
  | OpUp mutex, Some n => (closed ++ [n], None, outside)
  | OpSave, Some n => (closed, Some (S n), outside)
  | OpSave, None => (closed, None, S outside)
  | _, _ => s
  end.

Definition regions_from (s : regions_state) (tr : list event) : regions_state :=
  foldl regions_step s tr.

Definition regions (tr : list event) : regions_state :=
  regions_from ([], None, 0%nat) tr.

(** An operation that neither takes nor releases the lock nor saves. *)
Definition quiet (o : op) : bool :=
  match o with
  | OpDown mutex | OpUp mutex | OpSave => false
  | _ => true
  end.

Lemma regions_from_app s tr1 tr2 :
  regions_from s (tr1 ++ tr2) = regions_from (regions_from s tr1) tr2.
Proof. apply foldl_app. Qed.

Lemma regions_from_quiet s tr :
  Forall (λ e, quiet (ev_op e) = true) tr → regions_from s tr = s.
Proof.
  intros Hq. revert s. induction Hq as [|e tr He _ IH]; intros s; [done|].
  unfold regions_from in *. simpl. rewrite <- (IH s) at 2. f_equal.
  destruct s as [[closed inside] outside]. unfold regions_step.
  destruct (ev_op e) as [[]|[]| | | |], inside; simpl in *; done.
Qed.

Lemma quiet_concat_replicate n tr :
  Forall (λ e, quiet (ev_op e) = true) tr →
  Forall (λ e, quiet (ev_op e) = true) (concat (replicate n tr)).
Proof.
  intros Hq. induction n as [|n IH]; simpl; [constructor|].
  by apply Forall_app.
Qed.

Lemma quiet_replicate n e :
  quiet (ev_op e) = true → Forall (λ e, quiet (ev_op e) = true) (replicate n e).
Proof. intros He. induction n as [|n IH]; simpl; by constructor. Qed.

Section Tally.
Variables NUMTEAMPLAYERS NUMTEAMGOALIES : Z.

Ltac pick_go :=
  simpl; rewrite ?pick_app, ?pick_concat_replicate, ?pick_replicate; simpl.

Lemma arrive_tally k id m0 tr :
  exec k id false m0 (arrive k id) tr (Ret tt) → tally tr = (1, 1, 1, 1)%nat.
Proof.
  intros Hex. from_program Hex.
  destruct k; simpl; repeat obeys_next; done.
Qed.

Lemma waitReferee_tally k id team m0 tr :
  exec k id false m0 (waitReferee k id team) tr (Ret tt) →
  tally tr = (1, 1, 1, 0)%nat.
Proof.
  intros Hex. from_program Hex.
  destruct k; simpl; repeat obeys_next;
    destruct (team =? 1); [|destruct (team =? 2)| |destruct (team =? 2)];
    simpl; repeat obeys_next; done.
Qed.

Lemma playUntilEnd_tally k id team m0 tr :
  exec k id false m0 (playUntilEnd k id team) tr (Ret tt) →
  tally tr = (1, 1, 1, 0)%nat.
Proof.
  intros Hex. from_program Hex.
  destruct k; simpl; repeat obeys_next;
    destruct (team =? 1); [|destruct (team =? 2)| |destruct (team =? 2)];
    simpl; repeat obeys_next; done.
Qed.

Lemma constituteTeam_tally k id m0 tr v :
  exec k id false m0 (constituteTeam NUMTEAMPLAYERS NUMTEAMGOALIES k id) tr (Ret v) →
  tally tr = (1, 1, 1, 0)%nat.
Proof.
  intros Hex. apply constituteTeam_runs in Hex as [m1 Hf].
  unfold formation in Hf.
  destruct k, (role_of NUMTEAMPLAYERS NUMTEAMGOALIES _ _);
    [destruct Hf as (m4 & m6 & m7 & Hw & -> & ->)
    |destruct Hf as (m4 & m8 & m9 & m10 & Hw & -> & ->)
    |destruct Hf as (m4 & m6 & m7 & m8 & m9 & Hw & -> & ->)
    |destruct Hf as (m4 & m6 & m7 & Hw & -> & ->)
    |destruct Hf as (m4 & m8 & m9 & Hw & -> & ->)
    |destruct Hf as (m4 & m5 & m6 & m7 & m8 & m9 & Hw & -> & ->)];
    unfold player_entry, goalie_entry, tally, count_op; pick_go; try done.
  rewrite !length_app, !length_concat_replicate. simpl.
  repeat f_equal; lia.
Qed.

(** A complete operation is one critical region with one [saveState]. *)
Definition one_region (tr : list event) : Prop :=
  ∀ closed outside,
    regions_from (closed, None, outside) tr = (closed ++ [1%nat], None, outside).

Lemma arrive_one_region k id m0 tr :
  exec k id false m0 (arrive k id) tr (Ret tt) → one_region tr.
Proof.
  intros Hex. from_program Hex.
  destruct k; simpl; repeat obeys_next; done.
Qed.

Lemma waitReferee_one_region k id team m0 tr :
  exec k id false m0 (waitReferee k id team) tr (Ret tt) → one_region tr.
Proof.
  intros Hex. from_program Hex.
  destruct k; simpl; repeat obeys_next;
    destruct (team =? 1); [|destruct (team =? 2)| |destruct (team =? 2)];
    simpl; repeat obeys_next; done.
Qed.

Lemma playUntilEnd_one_region k id team m0 tr :
  exec k id false m0 (playUntilEnd k id team) tr (Ret tt) → one_region tr.
Proof.
  intros Hex. from_program Hex.
  destruct k; simpl; repeat obeys_next;
    destruct (team =? 1); [|destruct (team =? 2)| |destruct (team =? 2)];
    simpl; repeat obeys_next; done.
Qed.

Lemma constituteTeam_one_region k id m0 tr v :
  exec k id false m0 (constituteTeam NUMTEAMPLAYERS NUMTEAMGOALIES k id) tr (Ret v) →
  one_region tr.
Proof.
  intros Hex. apply constituteTeam_runs in Hex as [m1 Hf].
  unfold formation in Hf.
  destruct k, (role_of NUMTEAMPLAYERS NUMTEAMGOALIES _ _);
    [destruct Hf as (m4 & m6 & m7 & Hw & -> & ->)
    |destruct Hf as (m4 & m8 & m9 & m10 & Hw & -> & ->)
    |destruct Hf as (m4 & m6 & m7 & m8 & m9 & Hw & -> & ->)
    |destruct Hf as (m4 & m6 & m7 & Hw & -> & ->)
    |destruct Hf as (m4 & m8 & m9 & Hw & -> & ->)
    |destruct Hf as (m4 & m5 & m6 & m7 & m8 & m9 & Hw & -> & ->)];
    unfold player_entry, goalie_entry; intros closed outside; try done.
  - rewrite !regions_from_app. simpl.
    rewrite (regions_from_quiet _ (concat _));
      [done|apply quiet_concat_replicate; by repeat constructor].
  - rewrite !regions_from_app. simpl.
    rewrite !(regions_from_quiet _ (replicate _ _)); [done|..];
      by apply quiet_replicate.
Qed.
(** X6. A complete life cycle of a player or of a goalie is two critical
    regions when [constituteTeam] returns 0 and four otherwise, one after
    the other; [saveState] is called exactly once inside each of them and
    never outside; the process ends outside the critical region and has
    slept once. *)
Theorem one_save_per_critical_region k id m0 tr v :
  exec k id false m0 (life NUMTEAMPLAYERS NUMTEAMGOALIES k id) tr (Ret v) →
  regions tr =
    (if v =? 0 then [1; 1]%nat else [1; 1; 1; 1]%nat, None, 0%nat) ∧
  tally tr = if v =? 0 then (2, 2, 2, 1)%nat else (4, 4, 4, 1)%nat.
Proof.
  intros Hex.
  apply life_runs in Hex as (tra & trc & rest & ma & -> & Ha & Hc & Hlate & Hteam).
  apply arrive_one_region in Ha as Hra.
  apply constituteTeam_one_region in Hc as Hrc.
  unfold regions.
  rewrite !regions_from_app, Hra, Hrc.
  rewrite !tally_app, (arrive_tally _ _ _ _ Ha), (constituteTeam_tally _ _ _ _ _ Hc).
  destruct (v =? 0) eqn:Hv.
  - apply Z.eqb_eq in Hv. by rewrite (Hlate Hv).
  - apply Z.eqb_neq in Hv.
    destruct (Hteam Hv) as (trw & trp & mw & mp & -> & Hw & Hp).
    rewrite regions_from_app, (waitReferee_one_region _ _ _ _ _ Hw),
      (playUntilEnd_one_region _ _ _ _ _ Hp).
    by rewrite tally_app, (waitReferee_tally _ _ _ _ _ Hw),
      (playUntilEnd_tally _ _ _ _ _ Hp).
Qed.
End Tally.

Lemma one_save_per_critical_region_witness :
  ∃ tr v,
    run (life 2 1 Goalie 1) two_players_waiting = Some (tr, v) ∧
    regions tr =
      (if v =? 0 then [1; 1]%nat else [1; 1; 1; 1]%nat, None, 0%nat) ∧
    tally tr = if v =? 0 then (2, 2, 2, 1)%nat else (4, 4, 4, 1)%nat.
Proof.
  eexists _, _. split; [vm_compute; reflexivity|].
  apply (one_save_per_critical_region 2 1 Goalie 1%nat two_players_waiting).
  apply run_exec. vm_compute. reflexivity.
Defined.

(** ** The counters and the handshake in every run *)

(** A process of kind [k] that has counted its arrival. *)
Definition counted_in (k : Kind) (p : proc) : nat :=
  if decide (p_kind p = k) then
    match v_arr (view_of p) with Some _ => 1%nat | None => 0%nat end
  else 0%nat.

Section Runs.
Variables NUMTEAMPLAYERS NUMTEAMGOALIES : Z.
Hypothesis players_nonneg : 0 <= NUMTEAMPLAYERS.
Hypothesis goalies_nonneg : 0 <= NUMTEAMGOALIES.

Lemma step_counted_in k' p e ph' by' :
  protocol NUMTEAMPLAYERS NUMTEAMGOALIES (p_kind p) (p_id p) (v_held (view_of p))
    (view_of p) e →
  (ev_op e ≠ OpStore → ev_post e = ev_pre e) →
  Z.of_nat (counted_in k' (Proc (p_kind p) (p_id p) ph' (e :: p_trace p) by')) +
    arrived k' (ev_pre e) =
  Z.of_nat (counted_in k' p) + arrived k' (ev_post e).
Proof.
  destruct p as [k id ph tr by0]. unfold counted_in. simpl.
  change (view_of (Proc k id ph' (e :: tr) by'))
    with (watch k id (view_of (Proc k id ph tr by0)) e).
  set (s := view_of _). intros Hproto Hpost.
  destruct e as [[x|x| | | |] m m']; simpl in *;
    try (rewrite Hpost by done; destruct x; done); try by rewrite Hpost.
  destruct Hproto as (_ & _ & _ & _ & Harr & Hoth & _).
  case_decide as Hk.
  - subst k'. case_decide as Hsame; [by rewrite Hsame|].
    destruct Harr as [?|[Harr ->]]; [done|]. rewrite Harr. simpl. lia.
  - replace (arrived k' m') with (arrived k' m); [done|].
    destruct k, k'; simpl in *; done.
Qed.

(** X7. In every reachable state, [playersArrived] is the number of player
    processes that have counted their arrival in [playerConstituteTeam],
    and [goaliesArrived] the number of goalie processes that have in
    [goalieConstituteTeam]: no arrival is lost and none is counted twice. *)
Theorem arrivals_accounted σ k :
  reachable NUMTEAMPLAYERS NUMTEAMGOALIES σ →
  Z.of_nat (total (counted_in k) σ) = arrived k (shared σ).
Proof.
  induction 1 as [σ Hinit|σ a σ' Hreach IH Hfire].
  - destruct Hinit as (Hpa & Hga & _ & _ & _ & _ & _ & Hprocs & _).
    unfold total. rewrite sum_list_with_all_zero.
    + destruct k; simpl; lia.
    + intros i p Hp. destruct (Hprocs _ _ Hp) as (_ & Htr & _).
      unfold counted_in, view_of. rewrite Htr. simpl. by case_decide.
  - pose proof (reachable_invariant _ _ players_nonneg goalies_nonneg _ Hreach)
      as Hinv.
    destruct a as [i|s|s].
    + apply fire_act in Hfire
        as (p & Hp & [(ph' & Hret & ->)|(e & ph' & sm & Hruns & Hsem & ->)]).
      * pose proof (total_insert (counted_in k) σ i p
                      (Proc (p_kind p) (p_id p) ph' (p_trace p) (p_by p))
                      (shared σ) (sems σ) (referee_in σ) (last_up σ) Hp) as Ht.
        unfold moved. simpl.
        change (counted_in k (Proc (p_kind p) (p_id p) ph' (p_trace p) (p_by p)))
          with (counted_in k p) in Ht.
        lia.
      * pose proof (total_insert (counted_in k) σ i p (performed σ p e ph')
                      (ev_post e) sm (referee_in σ) (last_after σ i e) Hp) as Ht.
        pose proof (step_counted_in k p e ph' (by_after σ p e)
                      (act_protocol _ _ _ _ _ _ _ Hinv Hp Hruns)
                      (act_same _ _ _ _ Hruns)) as Hs.
        rewrite (act_pre _ _ _ _ Hruns) in Hs.
        fold (performed σ p e ph') in Hs.
        unfold acted. simpl. lia.
    + simpl in Hfire. destruct (_ && _); [|done].
      apply bind_Some in Hfire as (sm & _ & Hfire). by simplify_eq.
    + simpl in Hfire. destruct (_ && _); [|done]. by simplify_eq/=.
Qed.

(** X8. In every reachable state with no process inside its critical
    region the counters are settled: none is negative, [teamId] is 1, 2 or
    3, and with [teamId - 1] teams formed the free players, resp. goalies,
    are the arrivals in time for one of the two teams that no team has
    taken. *)
Theorem counters_settled σ :
  reachable NUMTEAMPLAYERS NUMTEAMGOALIES σ →
  total holds σ = 0%nat →
  settled NUMTEAMPLAYERS NUMTEAMGOALIES (shared σ).
Proof.
  intros Hreach Hz.
  pose proof (reachable_invariant _ _ players_nonneg goalies_nonneg _ Hreach) as Hinv.
  by apply (inv_settled _ _ _ Hinv).
Qed.

(** X9. In every reachable state with no process inside its critical
    region no release and no acknowledgment is left over: the semaphores
    [playersWaitTeam], [goaliesWaitTeam] and [playerRegistered] are at
    zero, no recruit holds a release it has not acknowledged and no captain
    awaits an acknowledgment. *)
Theorem handshake_complete σ :
  reachable NUMTEAMPLAYERS NUMTEAMGOALIES σ →
  total holds σ = 0%nat →
  sems σ playersWaitTeam = 0%nat ∧ sems σ goaliesWaitTeam = 0%nat ∧
  sems σ playerRegistered = 0%nat ∧
  ∀ i p, procs σ !! i = Some p →
         v_woken (view_of p) = false ∧ v_pend (view_of p) = 0%nat.
Proof.
  intros Hreach Hz.
  pose proof (reachable_invariant _ _ players_nonneg goalies_nonneg _ Hreach) as Hinv.
  assert (Hp0 : total pends σ = 0%nat).
  { apply sum_list_with_all_zero. intros i p Hp. unfold pends.
    destruct (decide (0 < v_pend (view_of p))%nat) as [Hpos|]; [|lia].
    destruct (pending_held _ _ _ Hinv _ _ Hp Hpos) as [Hh _].
    pose proof (sum_list_with_lookup holds _ _ _ Hp) as Hle.
    unfold holds at 1 in Hle. rewrite Hh in Hle. unfold total in Hz.
    simpl in Hle. lia. }
  pose proof (inv_hand _ _ _ Hinv) as Hh. rewrite Hp0 in Hh.
  repeat (split; [lia|]). intros i p Hp. split.
  - destruct (v_woken (view_of p)) eqn:Hw; [|done].
    pose proof (woken_wakes _ _ _ Hp Hw). lia.
  - pose proof (sum_list_with_lookup pends _ _ _ Hp) as Hle.
    unfold total in Hp0. unfold pends at 1 in Hle. lia.
Qed.

(** X10. In every reachable state, a recruit that has taken its release and
    has not acknowledged it yet was released by another process, which is
    inside its critical region as a captain, awaits at least one
    acknowledgment and has not reserved its team id yet; the [teamId] the
    recruit is about to read is 1 or 2. *)
Theorem captain_awaits_recruit σ r pr :
  reachable NUMTEAMPLAYERS NUMTEAMGOALIES σ →
  procs σ !! r = Some pr →
  v_woken (view_of pr) = true →
  1 <= teamId (shared σ) <= 2 ∧
  ∃ c pc,
    p_by pr = Some c ∧ c ≠ r ∧ procs σ !! c = Some pc ∧
    v_held (view_of pc) = true ∧ (0 < v_pend (view_of pc))%nat ∧
    v_team (view_of pc) = None ∧
    forming NUMTEAMPLAYERS NUMTEAMGOALIES (p_kind pc) (v_entry (view_of pc)) ∧
    teamId (v_entry (view_of pc)) = teamId (shared σ).
Proof.
  intros Hreach Hpr Hw.
  pose proof (reachable_invariant _ _ players_nonneg goalies_nonneg _ Hreach) as Hinv.
  split; [exact (woken_team_id _ _ players_nonneg goalies_nonneg _ _ _ Hinv Hpr Hw)|].
  destruct (inv_proc _ _ _ Hinv _ _ Hpr) as (_ & _ & _ & _ & _ & _ & _ & Hby).
  destruct Hby as (c & pc & Hc & Hne & Hpc & _ & Hwk & _); [by left|].
  destruct (Hwk Hw) as [Hh Ht].
  destruct (handshake_open _ _ _ Hinv _ _ Hpc Hh) as (Hpend & _ & Hf).
  { pose proof (woken_wakes _ _ _ Hpr Hw). lia. }
  destruct (inv_proc _ _ _ Hinv _ _ Hpc) as (_ & _ & Hent & _).
  destruct (Hent Hh) as [_ Hid].
  exists c, pc. repeat (split; [done|]). symmetry. by apply Hid.
Qed.
End Runs.

Lemma arrivals_accounted_witness :
  let σ := drive 2 1 (boot 5 3 (fresh_region 5 3)) full_house in
  total (counted_in Player) σ = 5%nat ∧
  Z.of_nat (total (counted_in Player) σ) = arrived Player (shared σ).
Proof.
  intros σ. split; [by vm_compute|].
  apply (arrivals_accounted 2 1 ltac:(lia) ltac:(lia) σ Player), reachable_boot.
Defined.

Lemma counters_settled_witness :
  let σ := drive 2 1 (boot 5 3 (fresh_region 5 3)) full_house in
  total holds σ = 0%nat ∧ settled 2 1 (shared σ).
Proof.
  intros σ. assert (Hz : total holds σ = 0%nat) by (by vm_compute).
  split; [done|].
  apply (counters_settled 2 1 ltac:(lia) ltac:(lia) σ); [apply reachable_boot|done].
Defined.

Lemma handshake_complete_witness :
  let σ := drive 2 1 (boot 2 1 (fresh_region 2 1)) one_team in
  total holds σ = 0%nat ∧
  sems σ playersWaitTeam = 0%nat ∧ sems σ goaliesWaitTeam = 0%nat ∧
  sems σ playerRegistered = 0%nat ∧
  ∀ i p, procs σ !! i = Some p →
         v_woken (view_of p) = false ∧ v_pend (view_of p) = 0%nat.
Proof.
  intros σ. assert (Hz : total holds σ = 0%nat) by (by vm_compute).
  split; [done|].
  apply (handshake_complete 2 1 ltac:(lia) ltac:(lia) σ); [apply reachable_boot|done].
Defined.

(** Player 0 has taken the release of the captain, player 1, and has not
    acknowledged it yet. *)
Lemma captain_awaits_recruit_witness :
  let σ := drive 2 1 (boot 2 1 (fresh_region 2 1))
             (steps 40 2 ++ steps 40 0 ++ steps 40 1 ++ [Act 0]) in
  ∃ pr,
    procs σ !! 0%nat = Some pr ∧ v_woken (view_of pr) = true ∧
    (1 <= teamId (shared σ) <= 2 ∧
     ∃ c pc,
       p_by pr = Some c ∧ c ≠ 0%nat ∧ procs σ !! c = Some pc ∧
       v_held (view_of pc) = true ∧ (0 < v_pend (view_of pc))%nat ∧
       v_team (view_of pc) = None ∧
       forming 2 1 (p_kind pc) (v_entry (view_of pc)) ∧
       teamId (v_entry (view_of pc)) = teamId (shared σ)).
Proof.
  intros σ.
  destruct (procs σ !! 0%nat) as [pr|] eqn:Hpr; [|by vm_compute in Hpr].
  exists pr. split; [done|].
  assert (Hpr' := Hpr). vm_compute in Hpr'. injection Hpr' as Heq.
  assert (Hw : v_woken (view_of pr) = true) by (by rewrite <- Heq).
  split; [done|].
  apply (captain_awaits_recruit 2 1 ltac:(lia) ltac:(lia) σ 0 pr);
    [apply reachable_boot|done..].
Defined.

(** ** The command line

    [main] reads the process identification from [argv[1]] with
    [strtol (argv[1], &tinp, 0)], casts the result to [unsigned int] and
    stores it in the [int] variable [n]; it leaves with [EXIT_FAILURE] when
    [*tinp != 0] or [n >= NUMPLAYERS] (resp. [NUMGOALIES]). *)
Module CommandLine.
Import Stdlib.Strings.String Stdlib.Strings.Ascii.

(** [isspace] in the C locale. *)
Definition is_space (c : ascii) : bool :=
  let n := nat_of_ascii c in
  (n =? 32)%nat || ((9 <=? n)%nat && (n <=? 13)%nat).

(** The value of a character as a digit, in any base up to 36. *)
Definition digit_val (c : ascii) : option Z :=
  let n := Z.of_nat (nat_of_ascii c) in
  if (48 <=? n) && (n <=? 57) then Some (n - 48)
  else if (97 <=? n) && (n <=? 122) then Some (n - 87)
  else if (65 <=? n) && (n <=? 90) then Some (n - 55)
  else None.

Definition digit_in (base : Z) (c : ascii) : option Z :=
  match digit_val c with
  | Some d => if d <? base then Some d else None
  | None => None
  end.

Fixpoint skip_space (s : string) : string :=
  match s with
  | String c r => if is_space c then skip_space r else s
  | EmptyString => s
  end.

(** The digits of [s] in [base], added to [acc]: value, rest of the string
    and whether a digit was read. *)
Fixpoint digits (base : Z) (acc : Z) (any : bool) (s : string) : Z * string * bool :=
  match s with
  | String c r =>
      match digit_in base c with
      | Some d => digits base (acc * base + d) true r
      | None => (acc, s, any)
      end
  | EmptyString => (acc, s, any)
  end.

(** [long] is 64 bits wide (LP64). *)
Definition LONG_MAX : Z := 2 ^ 63 - 1.
Definition LONG_MIN : Z := - 2 ^ 63.

Definition clamp (v : Z) : Z :=
  if v <? LONG_MIN then LONG_MIN else if LONG_MAX <? v then LONG_MAX else v.

(** [strtol (s, &tinp, 0)]: the value and the part of the string left
    unread; when no digit is read the value is 0 and all of [s] is left. *)
Definition strtol (s : string) : Z * string :=
  let s1 := skip_space s in
  let '(neg, s2) :=
    match s1 with
    | String "-"%char r => (true, r)
    | String "+"%char r => (false, r)
    | _ => (false, s1)
    end in
  let '(base, s3) :=
    match s2 with
    | String "0"%char (String x (String d r)) =>
        if (Ascii.eqb x "x"%char || Ascii.eqb x "X"%char)
           && (match digit_in 16 d with Some _ => true | None => false end)
        then (16, String d r) else (8, s2)
    | String "0"%char _ => (8, s2)
    | _ => (10, s2)
    end in
  let '(v, rest, any) := digits base 0 false s3 in
  if any then (clamp (if neg then - v else v), rest) else (0, s).

(** The conversions of [n = (unsigned int) strtol (...)] with [int n]. *)
Definition to_unsigned_int (v : Z) : Z := v mod 2 ^ 32.

Definition to_int (v : Z) : Z :=
  let u := v mod 2 ^ 32 in
  if u <? 2 ^ 31 then u else u - 2 ^ 32.

Inductive started : Type :=
| EXIT_FAILURE
| LifeCycle (n : Z).

(** [main], up to the start of the life cycle: [EXIT_FAILURE] when the
    command line is refused, the id the life cycle runs with otherwise.
    [NUM] is [NUMPLAYERS] for a player and [NUMGOALIES] for a goalie, an
    [int] constant of probConst.h. *)
Definition main (NUM : Z) (argv : list string) : started :=
  if negb (List.length argv =? 4)%nat then EXIT_FAILURE
  else
    match argv !! 1%nat with
    | None => EXIT_FAILURE
    | Some arg =>
        let '(v, tinp) := strtol arg in
        let n := to_int (to_unsigned_int v) in
        if negb (String.eqb tinp EmptyString) || (NUM <=? n) then EXIT_FAILURE
        else LifeCycle n
    end.

Example strtol_decimal : strtol "7"%string = (7, EmptyString).
Proof. reflexivity. Qed.

Example strtol_hexadecimal : strtol "  0x1F rest"%string = (31, " rest"%string).
Proof. reflexivity. Qed.

Example strtol_trailing : strtol "12ab"%string = (12, "ab"%string).
Proof. reflexivity. Qed.

Example main_accepts : main 10 ["player"%string; "7"%string; "log"%string; "err"%string] = LifeCycle 7.
Proof. reflexivity. Qed.

Example main_refuses_large : main 10 ["player"%string; "10"%string; "log"%string; "err"%string] = EXIT_FAILURE.
Proof. reflexivity. Qed.

Example main_refuses_trailing : main 10 ["player"%string; "3x"%string; "log"%string; "err"%string] = EXIT_FAILURE.
Proof. reflexivity. Qed.

(** C9 does not hold of the code: an id below zero passes the validation,
    whatever the size of the pool. The cast to [unsigned int] is undone by
    the assignment to the [int] variable [n], and [n >= NUM] compares signed
    values; the life cycle then starts with id -1, whose status entry lies
    outside the array. *)
Theorem negative_id_starts_life_cycle (NUM : Z) :
  0 <= NUM →
  main NUM ["player"%string; "-1"%string; "log"%string; "err"%string] = LifeCycle (-1).
Proof.
  intros HNUM.
  change (main NUM _) with (if false || (NUM <=? -1) then EXIT_FAILURE else LifeCycle (-1)).
  destruct (NUM <=? -1) eqn:Hle; [apply Z.leb_le in Hle; lia|reflexivity].
Qed.

Lemma negative_id_starts_life_cycle_witness :
  main 10 ["player"%string; "-1"%string; "log"%string; "err"%string] = LifeCycle (-1).
Proof. apply (negative_id_starts_life_cycle 10). lia. Defined.

(** An empty identification is read as id 0. *)
Example main_accepts_empty : main 10 ["player"%string; EmptyString; "log"%string; "err"%string] = LifeCycle 0.
Proof. reflexivity. Qed.

(** *** Ids written as numerals *)

(** The character of a digit and the string of a list of digits, most
    significant first. *)
Definition digit_char (d : Z) : ascii := ascii_of_nat (Z.to_nat (48 + d)).

Fixpoint numeral (ds : list Z) : string :=
  match ds with
  | [] => EmptyString
  | d :: ds' => String (digit_char d) (numeral ds')
  end.

(** The value of a list of digits in [base], on top of [acc]. *)
Fixpoint value_from (base acc : Z) (ds : list Z) : Z :=
  match ds with
  | [] => acc
  | d :: ds' => value_from base (acc * base + d) ds'
  end.

Definition value (base : Z) (ds : list Z) : Z := value_from base 0 ds.

Lemma digit_cases d : 0 <= d <= 9 →
  d = 0 ∨ d = 1 ∨ d = 2 ∨ d = 3 ∨ d = 4 ∨ d = 5 ∨ d = 6 ∨ d = 7 ∨ d = 8 ∨ d = 9.
Proof. lia. Qed.

Lemma digit_val_char d : 0 <= d <= 9 → digit_val (digit_char d) = Some d.
Proof.
  intros Hd.
  destruct (digit_cases d Hd) as [->|[->|[->|[->|[->|[->|[->|[->|[->| ->]]]]]]]]];
    reflexivity.
Qed.

Lemma digit_in_char base d :
  0 <= d <= 9 → d < base → digit_in base (digit_char d) = Some d.
Proof.
  intros Hd Hb. unfold digit_in. rewrite digit_val_char by done.
  destruct (d <? base) eqn:Hlt; [done|]. apply Z.ltb_ge in Hlt. lia.
Qed.

Lemma digits_numeral base acc any ds :
  Forall (λ d, 0 <= d <= 9 ∧ d < base) ds →
  digits base acc any (numeral ds) =
  (value_from base acc ds, EmptyString,
   match ds with [] => any | _ => true end).
Proof.
  intros Hds. revert acc any. induction Hds as [|d ds [Hd Hb] _ IH]; intros acc any.
  - done.
  - simpl. rewrite digit_in_char by done. rewrite IH. by destruct ds.
Qed.

Lemma value_from_lower base acc ds :
  1 <= base → 0 <= acc → Forall (λ d, 0 <= d <= 9 ∧ d < base) ds →
  0 <= value_from base acc ds.
Proof.
  intros Hb Hacc Hds. revert acc Hacc.
  induction Hds as [|d ds [Hd _] _ IH]; intros acc Hacc; simpl; [done|].
  apply IH. nia.
Qed.

Lemma clamp_id v : LONG_MIN <= v <= LONG_MAX → clamp v = v.
Proof.
  intros Hv. unfold clamp.
  destruct (v <? LONG_MIN) eqn:H1; [apply Z.ltb_lt in H1; lia|].
  destruct (LONG_MAX <? v) eqn:H2; [apply Z.ltb_lt in H2; lia|]. done.
Qed.

Lemma to_int_unsigned v : to_int (to_unsigned_int v) = to_int v.
Proof. unfold to_int, to_unsigned_int. by rewrite Z.mod_mod. Qed.

Lemma to_int_id v : - 2 ^ 31 <= v < 2 ^ 31 → to_int v = v.
Proof.
  intros Hv. unfold to_int.
  destruct (decide (0 <= v)) as [Hpos|Hneg].
  - rewrite Z.mod_small by lia.
    destruct (v <? 2 ^ 31) eqn:H; [done|]. apply Z.ltb_ge in H. lia.
  - replace (v mod 2 ^ 32) with (v + 2 ^ 32).
    + destruct (v + 2 ^ 32 <? 2 ^ 31) eqn:H; [apply Z.ltb_lt in H; lia|lia].
    + apply Z.mod_unique with (-1); lia.
Qed.

(** [strtol] on a string that starts with a digit other than zero, after a
    minus sign or not: base ten. *)
Lemma strtol_digit_start (neg : bool) d r :
  1 <= d <= 9 →
  let s := String (digit_char d) r in
  strtol (if neg then String "-"%char s else s) =
  (let '(v, rest, any) := digits 10 0 false s in
   if any then (clamp (if neg then - v else v), rest)
   else (0, if neg then String "-"%char s else s)).
Proof.
  intros Hd. assert (Hd9 : 0 <= d <= 9) by lia.
  destruct (digit_cases d Hd9) as [->|[->|[->|[->|[->|[->|[->|[->|[->| ->]]]]]]]]];
    try lia; destruct neg; reflexivity.
Qed.

(** [strtol] on a numeral with no leading zero, with or without a minus
    sign: all of the string is read, as a number in base ten. *)
Lemma strtol_numeral (neg : bool) d ds :
  1 <= d <= 9 → Forall (λ x, 0 <= x <= 9) ds →
  value 10 (d :: ds) <= LONG_MAX →
  strtol (if neg then String "-"%char (numeral (d :: ds)) else numeral (d :: ds)) =
  (if neg then - value 10 (d :: ds) else value 10 (d :: ds), EmptyString).
Proof.
  intros Hd Hds Hmax.
  assert (Hall : Forall (λ x, 0 <= x <= 9 ∧ x < 10) (d :: ds)).
  { constructor; [lia|]. eapply Forall_impl; [exact Hds|]. simpl. lia. }
  assert (Hlow : 0 <= value 10 (d :: ds)) by (apply value_from_lower; [lia|lia|done]).
  change (numeral (d :: ds)) with (String (digit_char d) (numeral ds)).
  rewrite (strtol_digit_start neg d (numeral ds) Hd).
  change (String (digit_char d) (numeral ds)) with (numeral (d :: ds)).
  rewrite (digits_numeral 10 0 false (d :: ds) Hall).
  fold (value 10 (d :: ds)).
  rewrite clamp_id; [done|].
  unfold LONG_MIN, LONG_MAX in *. destruct neg; lia.
Qed.

Lemma main_strtol NUM prog arg log err v :
  strtol arg = (v, EmptyString) →
  main NUM [prog; arg; log; err] =
  if NUM <=? to_int v then EXIT_FAILURE else LifeCycle (to_int v).
Proof.
  intros Hs. unfold main. simpl. rewrite Hs, to_int_unsigned. done.
Qed.

Lemma main_trailing NUM prog arg log err v c r :
  strtol arg = (v, String c r) →
  main NUM [prog; arg; log; err] = EXIT_FAILURE.
Proof. intros Hs. unfold main. simpl. by rewrite Hs. Qed.

(** X11. An id written in decimal with no leading zero, below the size of
    the pool (itself within [int]), is accepted by [main], and the life
    cycle runs with that id. *)
Theorem decimal_id_accepted NUM d ds prog log err :
  1 <= d <= 9 → Forall (λ x, 0 <= x <= 9) ds →
  value 10 (d :: ds) < NUM → NUM <= 2 ^ 31 →
  main NUM [prog; numeral (d :: ds); log; err] = LifeCycle (value 10 (d :: ds)).
Proof.
  intros Hd Hds Hlt HNUM.
  assert (Hlow : 0 <= value 10 (d :: ds)).
  { apply value_from_lower; [lia|lia|]. constructor; [lia|].
    eapply Forall_impl; [exact Hds|]. simpl. lia. }
  rewrite (main_strtol _ _ _ _ _ (value 10 (d :: ds))).
  - rewrite to_int_id by lia.
    destruct (NUM <=? value 10 (d :: ds)) eqn:Hle; [apply Z.leb_le in Hle; lia|done].
  - apply (strtol_numeral false); [done|done|]. unfold LONG_MAX. lia.
Qed.

Lemma decimal_id_accepted_witness :
  main 200 ["player"%string; numeral [1; 0; 7]; "log"%string; "err"%string] =
  LifeCycle (value 10 [1; 0; 7]).
Proof.
  apply (decimal_id_accepted 200 1 [0; 7]); [lia| |by vm_compute|lia].
  repeat constructor; lia.
Defined.

Example numeral_107 : numeral [1; 0; 7] = "107"%string ∧ value 10 [1; 0; 7] = 107.
Proof. split; reflexivity. Qed.

(** X12. [main] takes an id written in decimal, with a minus sign or
    without, modulo [2 ^ 32] as a signed 32-bit number, and refuses it only
    when that number is [NUM] or more: an id of [2 ^ 31] or more, or a
    negative one, is accepted whenever it wraps to a number below [NUM]. *)
Theorem id_taken_modulo_int NUM (neg : bool) d ds prog log err :
  1 <= d <= 9 → Forall (λ x, 0 <= x <= 9) ds →
  value 10 (d :: ds) <= LONG_MAX →
  let v := if neg then - value 10 (d :: ds) else value 10 (d :: ds) in
  main NUM [prog; if neg then String "-"%char (numeral (d :: ds))
                  else numeral (d :: ds); log; err] =
  if NUM <=? to_int v then EXIT_FAILURE else LifeCycle (to_int v).
Proof.
  intros Hd Hds Hmax v. apply main_strtol. by apply strtol_numeral.
Qed.

Lemma id_taken_modulo_int_witness :
  main 10 ["player"%string; numeral [4; 2; 9; 4; 9; 6; 7; 2; 9; 9];
           "log"%string; "err"%string] = LifeCycle 3.
Proof.
  apply (id_taken_modulo_int 10 false 4 [2; 9; 4; 9; 6; 7; 2; 9; 9]).
  - lia.
  - repeat constructor; lia.
  - by vm_compute.
Defined.

(** [strtol] on a string that starts with a zero and a digit: base eight,
    the zero included. *)
Lemma strtol_zero_start x r :
  0 <= x <= 9 →
  let s := String "0"%char (String (digit_char x) r) in
  strtol s =
  (let '(v, rest, any) := digits 8 0 false s in
   if any then (clamp v, rest) else (0, s)).
Proof.
  intros Hx.
  destruct (digit_cases x Hx) as [->|[->|[->|[->|[->|[->|[->|[->|[->| ->]]]]]]]]];
    destruct r; reflexivity.
Qed.

Lemma digit_in_octal_none x : 8 <= x <= 9 → digit_in 8 (digit_char x) = None.
Proof. intros Hx. assert (x = 8 ∨ x = 9) as [->| ->] by lia; reflexivity. Qed.

(** The digits in base eight stop at the first 8 or 9. *)
Lemma digits_octal_stop acc any pre x post :
  Forall (λ d, 0 <= d <= 7) pre → 8 <= x <= 9 →
  digits 8 acc any (numeral (pre ++ x :: post)) =
  (value_from 8 acc pre, numeral (x :: post),
   match pre with [] => any | _ => true end).
Proof.
  intros Hpre Hx. revert acc any.
  induction Hpre as [|d pre Hd _ IH]; intros acc any; simpl.
  - by rewrite digit_in_octal_none.
  - rewrite digit_in_char by lia. rewrite IH. by destruct pre.
Qed.

Lemma value_octal_zero ds : value 8 (0 :: ds) = value 8 ds.
Proof. done. Qed.

(** X13. An id written with a leading zero is read in base eight: [main]
    accepts it when its digits are below 8 and its value in base eight is
    below the size of the pool, and the life cycle runs with that value;
    the id 0 is the case of no further digit. *)
Theorem leading_zero_id_is_octal NUM ds prog log err :
  Forall (λ x, 0 <= x <= 7) ds →
  value 8 ds < NUM → NUM <= 2 ^ 31 →
  main NUM [prog; numeral (0 :: ds); log; err] = LifeCycle (value 8 ds).
Proof.
  intros Hds Hlt HNUM.
  assert (Hall : Forall (λ x, 0 <= x <= 9 ∧ x < 8) (0 :: ds)).
  { constructor; [lia|]. eapply Forall_impl; [exact Hds|]. simpl. lia. }
  assert (Hlow : 0 <= value 8 ds).
  { rewrite <- value_octal_zero. apply value_from_lower; [lia|lia|done]. }
  assert (Hs : strtol (numeral (0 :: ds)) = (value 8 ds, EmptyString)).
  { destruct ds as [|x ds']; [reflexivity|].
    change (numeral (0 :: x :: ds'))
      with (String "0"%char (String (digit_char x) (numeral ds'))).
    rewrite strtol_zero_start by (inversion Hds; lia).
    change (String "0"%char (String (digit_char x) (numeral ds')))
      with (numeral (0 :: x :: ds')).
    rewrite (digits_numeral 8 0 false _ Hall).
    fold (value 8 (0 :: x :: ds')). rewrite value_octal_zero.
    rewrite clamp_id; [done|]. unfold LONG_MIN, LONG_MAX. lia. }
  rewrite (main_strtol _ _ _ _ _ _ Hs), to_int_id by lia.
  destruct (NUM <=? value 8 ds) eqn:Hle; [apply Z.leb_le in Hle; lia|done].
Qed.

Lemma leading_zero_id_is_octal_witness :
  main 10 ["goalie"%string; numeral [0; 1; 0]; "log"%string; "err"%string] =
  LifeCycle (value 8 [1; 0]).
Proof.
  apply (leading_zero_id_is_octal 10 [1; 0]); [|by vm_compute|lia].
  repeat constructor; lia.
Defined.

(** X14. An id written with a leading zero and decimal digits of which one
    is 8 or 9 is refused by [main], whatever the size of the pool: [strtol]
    reads it in base eight and stops at that digit. *)
Theorem leading_zero_id_refused NUM pre x post prog log err :
  Forall (λ d, 0 <= d <= 7) pre → 8 <= x <= 9 →
  main NUM [prog; numeral (0 :: pre ++ x :: post); log; err] = EXIT_FAILURE.
Proof.
  intros Hpre Hx.
  assert (Hs : ∃ v, strtol (numeral (0 :: pre ++ x :: post)) =
                    (v, numeral (x :: post))).
  { set (ds := pre ++ x :: post).
    assert (∃ y r, ds = y :: r ∧ 0 <= y <= 9) as (y & r & Hds & Hy).
    { unfold ds. destruct pre as [|y pre']; simpl.
      - exists x, post. split; [done|lia].
      - exists y, (pre' ++ x :: post). split; [done|]. inversion Hpre; lia. }
    rewrite Hds.
    change (numeral (0 :: y :: r))
      with (String "0"%char (String (digit_char y) (numeral r))).
    rewrite strtol_zero_start by done.
    change (String "0"%char (String (digit_char y) (numeral r)))
      with (numeral (0 :: y :: r)).
    rewrite <- Hds. unfold ds.
    change (0 :: pre ++ x :: post) with ((0 :: pre) ++ x :: post).
    rewrite (digits_octal_stop 0 false (0 :: pre) x post); [|by constructor|done].
    by eexists. }
  destruct Hs as [v Hs]. by eapply main_trailing.
Qed.

Lemma leading_zero_id_refused_witness :
  main 10 ["goalie"%string; numeral [0; 8]; "log"%string; "err"%string] =
  EXIT_FAILURE.
Proof. apply (leading_zero_id_refused 10 [] 8 []); [constructor|lia]. Defined.
End CommandLine.
